(** * A Pascal front end: lexer, LL(1) grammar table, table-driven parser
      and parse tree.

    The development embeds [lexer.py], [grammar.py], [parse_tree.py] and
    [parser.py] and proves properties of the embedded functions.

    Conventions of the embedding.
    - A Python [str] is a Rocq [string]; a source text is read as the
      sequence of its code points below 256, and the character classes
      [isspace], [isdigit], [isalpha], [isalnum] and [lower] are Python's,
      restricted to that range.
    - Parse tree nodes are mutable objects that the parser reaches both from
      its stack and from their parent: they live in a store (a list of
      nodes) and a reference is an index into it.
    - A [while] loop is a function with a fuel argument; [None] is "fuel
      exhausted" and is never a result of the program.
    - A raised exception is a value; output written by [print] is not
      modelled. *)

From Stdlib Require Import String Ascii List Lia Arith Bool.
From stdpp Require Import list strings.

(** ** Helpers shared by the modules *)

Definition assoc {A : Type} (k : string) (l : list (string * A)) : option A :=
  snd <$> find (fun kv => String.eqb k (fst kv)) l.

Fixpoint list_string_eqb (a b : list string) : bool :=
  match a, b with
  | [], [] => true
  | x :: a', y :: b' => String.eqb x y && list_string_eqb a' b'
  | _, _ => false
  end.

(** ** lexer.py *)

Module lexer.

Inductive TokenType : Type :=
| PROGRAM | VAR | BEGIN | END | INTEGER | REAL | BOOLEAN | IF | THEN | ELSE
| WHILE | DO | READ | WRITE | DIV | MOD
| ID | NUM
| PLUS | MINUS | MULTIPLY | DIVIDE | ASSIGN | EQUAL | NOT_EQUAL | LESS
| GREATER | LESS_EQUAL | GREATER_EQUAL
| LPAREN | RPAREN | SEMICOLON | COLON | COMMA | DOT
| EOF.

Definition TokenType_eqb (a b : TokenType) : bool :=
  match a, b with
  | PROGRAM, PROGRAM | VAR, VAR | BEGIN, BEGIN | END, END
  | INTEGER, INTEGER | REAL, REAL | BOOLEAN, BOOLEAN | IF, IF | THEN, THEN
  | ELSE, ELSE | WHILE, WHILE | DO, DO | READ, READ | WRITE, WRITE
  | DIV, DIV | MOD, MOD | ID, ID | NUM, NUM | PLUS, PLUS | MINUS, MINUS
  | MULTIPLY, MULTIPLY | DIVIDE, DIVIDE | ASSIGN, ASSIGN | EQUAL, EQUAL
  | NOT_EQUAL, NOT_EQUAL | LESS, LESS | GREATER, GREATER
  | LESS_EQUAL, LESS_EQUAL | GREATER_EQUAL, GREATER_EQUAL
  | LPAREN, LPAREN | RPAREN, RPAREN | SEMICOLON, SEMICOLON | COLON, COLON
  | COMMA, COMMA | DOT, DOT | EOF, EOF => true
  | _, _ => false
  end.

Record Token : Type := mkToken
  { type : TokenType; value : string; line : nat; column : nat }.

Record LexerError : Type := mkLexerError
  { message : string; err_line : nat; err_column : nat }.

(** Python's character classes on the code points 0..255. *)

Definition code (c : ascii) : nat := nat_of_ascii c.

Definition between (lo hi n : nat) : bool := (lo <=? n) && (n <=? hi).

Definition isspace (c : ascii) : bool :=
  let n := code c in
  between 9 13 n || between 28 32 n || (n =? 133) || (n =? 160).

Definition isdigit (c : ascii) : bool :=
  let n := code c in
  between 48 57 n || between 178 179 n || (n =? 185).

Definition isalpha (c : ascii) : bool :=
  let n := code c in
  between 65 90 n || between 97 122 n || (n =? 170) || (n =? 181)
  || (n =? 186) || between 192 214 n || between 216 246 n
  || between 248 255 n.

Definition isalnum (c : ascii) : bool :=
  isalpha c || isdigit c || between 188 190 (code c).

Definition lower_char (c : ascii) : ascii :=
  let n := code c in
  if between 65 90 n || between 192 214 n || between 216 222 n
  then ascii_of_nat (n + 32) else c.

Fixpoint lower (s : string) : string :=
  match s with
  | EmptyString => EmptyString
  | String c s' => String (lower_char c) (lower s')
  end.

Definition KEYWORDS : list (string * TokenType) :=
  [ ("program", PROGRAM); ("var", VAR); ("begin", BEGIN); ("end", END);
    ("integer", INTEGER); ("real", REAL); ("boolean", BOOLEAN); ("if", IF);
    ("then", THEN); ("else", ELSE); ("while", WHILE); ("do", DO);
    ("read", READ); ("write", WRITE); ("div", DIV); ("mod", MOD) ].

Record Lexer : Type := mkLexer
  { source : string; pos : nat; cur_line : nat; cur_column : nat;
    tokens : list Token }.

Definition init (src : string) : Lexer :=
  {| source := src; pos := 0; cur_line := 1; cur_column := 1; tokens := [] |}.

Definition current_char (lx : Lexer) : option ascii :=
  String.get (pos lx) (source lx).

Definition peek (lx : Lexer) : option ascii :=
  String.get (pos lx + 1) (source lx).

Definition newline : ascii := ascii_of_nat 10.

(** [advance] returns the character it steps over; the callers below have
    that character at hand already (it is [current_char]), so the embedding
    returns the new state only. *)
Definition advance (lx : Lexer) : Lexer :=
  match current_char lx with
  | Some c =>
      if Ascii.eqb c newline
      then {| source := source lx; pos := S (pos lx);
              cur_line := S (cur_line lx); cur_column := 1;
              tokens := tokens lx |}
      else {| source := source lx; pos := S (pos lx);
              cur_line := cur_line lx; cur_column := S (cur_column lx);
              tokens := tokens lx |}
  | None => {| source := source lx; pos := S (pos lx);
               cur_line := cur_line lx; cur_column := S (cur_column lx);
               tokens := tokens lx |}
  end.

Definition push (t : Token) (lx : Lexer) : Lexer :=
  {| source := source lx; pos := pos lx; cur_line := cur_line lx;
     cur_column := cur_column lx; tokens := tokens lx ++ [t] |}.

Definition is_char (c : ascii) (o : option ascii) : bool :=
  match o with Some d => Ascii.eqb c d | None => false end.

Definition holds (p : ascii -> bool) (o : option ascii) : bool :=
  match o with Some d => p d | None => false end.

(** Every loop of the lexer advances by one character per iteration, so the
    number of characters left is enough fuel. *)
Definition remaining (lx : Lexer) : nat :=
  String.length (source lx) - pos lx.

Fixpoint skip_while (p : ascii -> bool) (fuel : nat) (lx : Lexer) : Lexer :=
  match fuel with
  | 0 => lx
  | S fuel' =>
      if holds p (current_char lx)
      then skip_while p fuel' (advance lx) else lx
  end.

Definition skip_whitespace (lx : Lexer) : Lexer :=
  skip_while isspace (remaining lx) lx.

Fixpoint skip_star_comment (fuel : nat) (lx : Lexer) : Lexer :=
  match fuel with
  | 0 => lx
  | S fuel' =>
      match current_char lx with
      | None => lx
      | Some c =>
          if Ascii.eqb c "*" && is_char ")" (peek lx)
          then advance (advance lx)
          else skip_star_comment fuel' (advance lx)
      end
  end.

Definition skip_comment (lx : Lexer) : Lexer :=
  if is_char "{" (current_char lx) then
    let lx1 := advance lx in
    let lx2 :=
      skip_while (fun c => negb (Ascii.eqb c "}")) (remaining lx1) lx1 in
    if is_char "}" (current_char lx2) then advance lx2 else lx2
  else if is_char "(" (current_char lx) && is_char "*" (peek lx) then
    let lx2 := advance (advance lx) in
    skip_star_comment (remaining lx2) lx2
  else lx.

(** [read_run p] is the loop [while current_char() and p(current_char()):
    result += advance()]. *)
Fixpoint read_run (p : ascii -> bool) (fuel : nat) (lx : Lexer)
    (result : string) : Lexer * string :=
  match fuel with
  | 0 => (lx, result)
  | S fuel' =>
      match current_char lx with
      | Some c =>
          if p c
          then read_run p fuel' (advance lx) (result +:+ String c EmptyString)
          else (lx, result)
      | None => (lx, result)
      end
  end.

Definition read_number (lx : Lexer) : Lexer * Token :=
  let start_line := cur_line lx in
  let start_col := cur_column lx in
  let '(lx1, result) := read_run isdigit (remaining lx) lx EmptyString in
  let '(lx2, result2) :=
    if is_char "." (current_char lx1) && holds isdigit (peek lx1)
    then
      let lx1' := advance lx1 in
      read_run isdigit (remaining lx1') lx1' (result +:+ ".")
    else (lx1, result) in
  (lx2, mkToken NUM result2 start_line start_col).

Definition read_identifier (lx : Lexer) : Lexer * Token :=
  let start_line := cur_line lx in
  let start_col := cur_column lx in
  let '(lx1, result) :=
    read_run (fun c => isalnum c || Ascii.eqb c "_") (remaining lx) lx
             EmptyString in
  let lower_result := lower result in
  match assoc lower_result KEYWORDS with
  | Some kw => (lx1, mkToken kw result start_line start_col)
  | None => (lx1, mkToken ID result start_line start_col)
  end.

Definition single_char_token (c : ascii) : option (TokenType * string) :=
  if Ascii.eqb c "+" then Some (PLUS, "+")
  else if Ascii.eqb c "-" then Some (MINUS, "-")
  else if Ascii.eqb c "*" then Some (MULTIPLY, "*")
  else if Ascii.eqb c "/" then Some (DIVIDE, "/")
  else if Ascii.eqb c "=" then Some (EQUAL, "=")
  else if Ascii.eqb c "<" then Some (LESS, "<")
  else if Ascii.eqb c ">" then Some (GREATER, ">")
  else if Ascii.eqb c "(" then Some (LPAREN, "(")
  else if Ascii.eqb c ")" then Some (RPAREN, ")")
  else if Ascii.eqb c ";" then Some (SEMICOLON, ";")
  else if Ascii.eqb c ":" then Some (COLON, ":")
  else if Ascii.eqb c "," then Some (COMMA, ",")
  else if Ascii.eqb c "." then Some (DOT, ".")
  else None.

Definition unexpected (c : ascii) : string :=
  "Unexpected character: '" +:+ String c "'".

(** One iteration of the main loop of [tokenize], entered with a current
    character [c]. *)
Definition tokenize_body (c : ascii) (lx : Lexer) : LexerError + Lexer :=
  if isspace c then inr (skip_whitespace lx)
  else if Ascii.eqb c "{" || (Ascii.eqb c "(" && is_char "*" (peek lx))
  then inr (skip_comment lx)
  else
    let start_line := cur_line lx in
    let start_col := cur_column lx in
    if isdigit c then
      let '(lx', t) := read_number lx in inr (push t lx')
    else if isalpha c || Ascii.eqb c "_" then
      let '(lx', t) := read_identifier lx in inr (push t lx')
    else if Ascii.eqb c ":" && is_char "=" (peek lx) then
      inr (push (mkToken ASSIGN ":=" start_line start_col)
                (advance (advance lx)))
    else if Ascii.eqb c "<" && is_char "=" (peek lx) then
      inr (push (mkToken LESS_EQUAL "<=" start_line start_col)
                (advance (advance lx)))
    else if Ascii.eqb c ">" && is_char "=" (peek lx) then
      inr (push (mkToken GREATER_EQUAL ">=" start_line start_col)
                (advance (advance lx)))
    else if Ascii.eqb c "<" && is_char ">" (peek lx) then
      inr (push (mkToken NOT_EQUAL "<>" start_line start_col)
                (advance (advance lx)))
    else
      match single_char_token c with
      | Some (ty, v) =>
          inr (push (mkToken ty v start_line start_col) (advance lx))
      | None => inl (mkLexerError (unexpected c) start_line start_col)
      end.

Fixpoint tokenize_loop (fuel : nat) (lx : Lexer)
    : option (LexerError + list Token) :=
  match current_char lx with
  | None =>
      Some (inr (tokens lx ++
                 [mkToken EOF "$" (cur_line lx) (cur_column lx)]))
  | Some c =>
      match fuel with
      | 0 => None
      | S fuel' =>
          match tokenize_body c lx with
          | inl e => Some (inl e)
          | inr lx' => tokenize_loop fuel' lx'
          end
      end
  end.

Definition tokenize (src : string) : option (LexerError + list Token) :=
  tokenize_loop (String.length src) (init src).

End lexer.


(** ** grammar.py *)

Module grammar.

Import lexer.

Definition NONTERMINALS : list string :=
  [ "Program"; "Block"; "Declarations"; "DeclList"; "DeclListP";
    "Decl"; "IdList"; "IdListP"; "Type";
    "StmtList"; "StmtListP"; "Statement"; "AssignStmt";
    "IfStmt"; "ElsePart"; "WhileStmt"; "ReadStmt"; "WriteStmt";
    "ExprList"; "ExprListP"; "BoolExpr"; "RelOp";
    "Expression"; "ExpressionP"; "Term"; "TermP"; "Factor" ].

Definition TERMINALS : list string :=
  [ "program"; "id"; ";"; "."; "var"; "begin"; "end"; ":"; ",";
    "integer"; "real"; "boolean";
    ":="; "if"; "then"; "else"; "while"; "do"; "read"; "write";
    "("; ")"; "+"; "-"; "*"; "/"; "div"; "mod";
    "<"; ">"; "<="; ">="; "="; "<>";
    "num"; "$" ].

Definition EPSILON : string := "ε".

Definition PRODUCTIONS : list (string * list (list string)) :=
  [ ("Program", [["program"; "id"; ";"; "Block"; "."]]);
    ("Block", [["Declarations"; "begin"; "StmtList"; "end"]]);
    ("Declarations", [["var"; "DeclList"]; [EPSILON]]);
    ("DeclList", [["Decl"; "DeclListP"]]);
    ("DeclListP", [["Decl"; "DeclListP"]; [EPSILON]]);
    ("Decl", [["IdList"; ":"; "Type"; ";"]]);
    ("IdList", [["id"; "IdListP"]]);
    ("IdListP", [[","; "id"; "IdListP"]; [EPSILON]]);
    ("Type", [["integer"]; ["real"]; ["boolean"]]);
    ("StmtList", [["Statement"; "StmtListP"]]);
    ("StmtListP", [[";"; "Statement"; "StmtListP"]; [EPSILON]]);
    ("Statement",
      [ ["id"; ":="; "Expression"]; ["IfStmt"]; ["WhileStmt"]; ["ReadStmt"];
        ["WriteStmt"]; ["begin"; "StmtList"; "end"]; [EPSILON] ]);
    ("AssignStmt", [["id"; ":="; "Expression"]]);
    ("IfStmt", [["if"; "BoolExpr"; "then"; "Statement"; "ElsePart"]]);
    ("ElsePart", [["else"; "Statement"]; [EPSILON]]);
    ("WhileStmt", [["while"; "BoolExpr"; "do"; "Statement"]]);
    ("ReadStmt", [["read"; "("; "IdList"; ")"]]);
    ("WriteStmt", [["write"; "("; "ExprList"; ")"]]);
    ("ExprList", [["Expression"; "ExprListP"]]);
    ("ExprListP", [[","; "Expression"; "ExprListP"]; [EPSILON]]);
    ("BoolExpr", [["Expression"; "RelOp"; "Expression"]]);
    ("RelOp", [["<"]; [">"]; ["<="]; [">="]; ["="]; ["<>"]]);
    ("Expression", [["Term"; "ExpressionP"]]);
    ("ExpressionP",
      [ ["+"; "Term"; "ExpressionP"]; ["-"; "Term"; "ExpressionP"];
        [EPSILON] ]);
    ("Term", [["Factor"; "TermP"]]);
    ("TermP",
      [ ["*"; "Factor"; "TermP"]; ["/"; "Factor"; "TermP"];
        ["div"; "Factor"; "TermP"]; ["mod"; "Factor"; "TermP"]; [EPSILON] ]);
    ("Factor",
      [ ["("; "Expression"; ")"]; ["id"]; ["num"]; ["+"; "Factor"];
        ["-"; "Factor"] ]) ].

Definition FIRST : list (string * list string) :=
  [ ("Program", ["program"]);
    ("Block", ["var"; "begin"]);
    ("Declarations", ["var"; EPSILON]);
    ("DeclList", ["id"]);
    ("DeclListP", ["id"; EPSILON]);
    ("Decl", ["id"]);
    ("IdList", ["id"]);
    ("IdListP", [","; EPSILON]);
    ("Type", ["integer"; "real"; "boolean"]);
    ("StmtList", ["id"; "if"; "while"; "read"; "write"; "begin"; EPSILON]);
    ("StmtListP", [";"; EPSILON]);
    ("Statement", ["id"; "if"; "while"; "read"; "write"; "begin"; EPSILON]);
    ("AssignStmt", ["id"]);
    ("IfStmt", ["if"]);
    ("ElsePart", ["else"; EPSILON]);
    ("WhileStmt", ["while"]);
    ("ReadStmt", ["read"]);
    ("WriteStmt", ["write"]);
    ("ExprList", ["("; "id"; "num"; "+"; "-"]);
    ("ExprListP", [","; EPSILON]);
    ("BoolExpr", ["("; "id"; "num"; "+"; "-"]);
    ("RelOp", ["<"; ">"; "<="; ">="; "="; "<>"]);
    ("Expression", ["("; "id"; "num"; "+"; "-"]);
    ("ExpressionP", ["+"; "-"; EPSILON]);
    ("Term", ["("; "id"; "num"; "+"; "-"]);
    ("TermP", ["*"; "/"; "div"; "mod"; EPSILON]);
    ("Factor", ["("; "id"; "num"; "+"; "-"]) ].

Definition expr_follow : list string :=
  [")"; ";"; ","; "then"; "do"; "<"; ">"; "<="; ">="; "="; "<>"].

Definition FOLLOW : list (string * list string) :=
  [ ("Program", ["$"]);
    ("Block", ["."]);
    ("Declarations", ["begin"]);
    ("DeclList", ["begin"]);
    ("DeclListP", ["begin"]);
    ("Decl", ["id"; "begin"]);
    ("IdList", [":"; ")"]);
    ("IdListP", [":"; ")"]);
    ("Type", [";"]);
    ("StmtList", ["end"]);
    ("StmtListP", ["end"]);
    ("Statement", [";"; "end"; "else"]);
    ("AssignStmt", [";"; "end"; "else"]);
    ("IfStmt", [";"; "end"; "else"]);
    ("ElsePart", [";"; "end"; "else"]);
    ("WhileStmt", [";"; "end"; "else"]);
    ("ReadStmt", [";"; "end"; "else"]);
    ("WriteStmt", [";"; "end"; "else"]);
    ("ExprList", [")"]);
    ("ExprListP", [")"]);
    ("BoolExpr", ["then"; "do"]);
    ("RelOp", ["("; "id"; "num"; "+"; "-"]);
    ("Expression", expr_follow);
    ("ExpressionP", expr_follow);
    ("Term", ["+"; "-"] ++ expr_follow);
    ("TermP", ["+"; "-"] ++ expr_follow);
    ("Factor", ["*"; "/"; "div"; "mod"; "+"; "-"] ++ expr_follow) ].

(** The rows of [PARSE_TABLE] that send several terminals to one
    right-hand side are written with [row]. *)
Definition row (ts : list string) (rhs : list string)
    : list (string * list string) :=
  map (fun t => (t, rhs)) ts.

Definition expr_start : list string := ["("; "id"; "num"; "+"; "-"].

Definition PARSE_TABLE : list (string * list (string * list string)) :=
  [ ("Program", [("program", ["program"; "id"; ";"; "Block"; "."])]);
    ("Block",
      row ["var"; "begin"] ["Declarations"; "begin"; "StmtList"; "end"]);
    ("Declarations", [("var", ["var"; "DeclList"]); ("begin", [EPSILON])]);
    ("DeclList", [("id", ["Decl"; "DeclListP"])]);
    ("DeclListP", [("id", ["Decl"; "DeclListP"]); ("begin", [EPSILON])]);
    ("Decl", [("id", ["IdList"; ":"; "Type"; ";"])]);
    ("IdList", [("id", ["id"; "IdListP"])]);
    ("IdListP",
      [ (",", [","; "id"; "IdListP"]); (":", [EPSILON]); (")", [EPSILON]) ]);
    ("Type",
      [ ("integer", ["integer"]); ("real", ["real"]);
        ("boolean", ["boolean"]) ]);
    ("StmtList",
      row ["id"; "if"; "while"; "read"; "write"; "begin"; "end"]
          ["Statement"; "StmtListP"]);
    ("StmtListP",
      [ (";", [";"; "Statement"; "StmtListP"]); ("end", [EPSILON]) ]);
    ("Statement",
      [ ("id", ["id"; ":="; "Expression"]);
        ("if", ["IfStmt"]);
        ("while", ["WhileStmt"]);
        ("read", ["ReadStmt"]);
        ("write", ["WriteStmt"]);
        ("begin", ["begin"; "StmtList"; "end"]);
        (";", [EPSILON]); ("end", [EPSILON]); ("else", [EPSILON]) ]);
    ("IfStmt",
      [("if", ["if"; "BoolExpr"; "then"; "Statement"; "ElsePart"])]);
    ("ElsePart",
      [ ("else", ["else"; "Statement"]); (";", [EPSILON]);
        ("end", [EPSILON]) ]);
    ("WhileStmt", [("while", ["while"; "BoolExpr"; "do"; "Statement"])]);
    ("ReadStmt", [("read", ["read"; "("; "IdList"; ")"])]);
    ("WriteStmt", [("write", ["write"; "("; "ExprList"; ")"])]);
    ("ExprList", row expr_start ["Expression"; "ExprListP"]);
    ("ExprListP",
      [ (",", [","; "Expression"; "ExprListP"]); (")", [EPSILON]) ]);
    ("BoolExpr", row expr_start ["Expression"; "RelOp"; "Expression"]);
    ("RelOp",
      [ ("<", ["<"]); (">", [">"]); ("<=", ["<="]); (">=", [">="]);
        ("=", ["="]); ("<>", ["<>"]) ]);
    ("Expression", row expr_start ["Term"; "ExpressionP"]);
    ("ExpressionP",
      [ ("+", ["+"; "Term"; "ExpressionP"]);
        ("-", ["-"; "Term"; "ExpressionP"]) ]
      ++ row [ ")"; ";"; ","; "then"; "do"; "end"; "else";
               "<"; ">"; "<="; ">="; "="; "<>" ] [EPSILON]);
    ("Term", row expr_start ["Factor"; "TermP"]);
    ("TermP",
      [ ("*", ["*"; "Factor"; "TermP"]);
        ("/", ["/"; "Factor"; "TermP"]);
        ("div", ["div"; "Factor"; "TermP"]);
        ("mod", ["mod"; "Factor"; "TermP"]) ]
      ++ row [ "+"; "-"; ")"; ";"; ","; "then"; "do"; "end"; "else";
               "<"; ">"; "<="; ">="; "="; "<>" ] [EPSILON]);
    ("Factor",
      [ ("(", ["("; "Expression"; ")"]); ("id", ["id"]); ("num", ["num"]);
        ("+", ["+"; "Factor"]); ("-", ["-"; "Factor"]) ]) ].

(** [TOKEN_TO_TERMINAL] has a key for every token type, so it is a total
    function; the default of [dict.get] in [get_terminal] is never used. *)
Definition TOKEN_TO_TERMINAL (ty : TokenType) : string :=
  match ty with
  | PROGRAM => "program" | VAR => "var" | BEGIN => "begin" | END => "end"
  | INTEGER => "integer" | REAL => "real" | BOOLEAN => "boolean"
  | IF => "if" | THEN => "then" | ELSE => "else" | WHILE => "while"
  | DO => "do" | READ => "read" | WRITE => "write" | DIV => "div"
  | MOD => "mod" | ID => "id" | NUM => "num" | PLUS => "+" | MINUS => "-"
  | MULTIPLY => "*" | DIVIDE => "/" | ASSIGN => ":=" | EQUAL => "="
  | NOT_EQUAL => "<>" | LESS => "<" | GREATER => ">" | LESS_EQUAL => "<="
  | GREATER_EQUAL => ">=" | LPAREN => "(" | RPAREN => ")"
  | SEMICOLON => ";" | COLON => ":" | COMMA => "," | DOT => "."
  | EOF => "$"
  end.

Definition mem (s : string) (l : list string) : bool :=
  existsb (String.eqb s) l.

Definition is_terminal (symbol : string) : bool :=
  mem symbol TERMINALS || String.eqb symbol EPSILON.

Definition is_nonterminal (symbol : string) : bool :=
  mem symbol NONTERMINALS.

Definition get_production (nonterminal terminal : string)
    : option (list string) :=
  match assoc nonterminal PARSE_TABLE with
  | Some r => assoc terminal r
  | None => None
  end.

End grammar.

(** ** parse_tree.py *)

Module parse_tree.

Record ParseTreeNode : Type := mkNode
  { symbol : string; value : string; children : list nat }.

(** The object store: node [i] is the [i]-th element. *)
Abbreviation store := (list ParseTreeNode).

Definition new_node (sym val : string) (st : store) : store * nat :=
  (st ++ [mkNode sym val []], length st).

Definition add_child (parent child : nat) (st : store) : store :=
  alter (fun n => mkNode (symbol n) (value n) (children n ++ [child]))
        parent st.

Definition set_value (node : nat) (val : string) (st : store) : store :=
  alter (fun n => mkNode (symbol n) val (children n)) node st.

Definition is_terminal (n : ParseTreeNode) : bool :=
  (length (children n) =? 0) && negb (String.eqb (symbol n) "ε").

Definition is_epsilon (n : ParseTreeNode) : bool :=
  String.eqb (symbol n) "ε".

Record ParseTree : Type := mkTree { nodes : store; root : option nat }.

Fixpoint indent (depth : nat) : string :=
  match depth with
  | 0 => EmptyString
  | S d => "  " +:+ indent d
  end.

Definition node_str (depth : nat) (n : ParseTreeNode) : string :=
  if negb (String.eqb (value n) EmptyString)
     && negb (String.eqb (value n) (symbol n))
  then indent depth +:+ symbol n +:+ " (" +:+ value n +:+ ")"
  else indent depth +:+ symbol n.

(** [_preorder_helper] appends to the list [result] it is given; here it
    returns what it appends.  The fuel bounds the depth of the recursion. *)
Fixpoint preorder_helper (fuel : nat) (st : store) (node : option nat)
    (depth : nat) (include_epsilon : bool) : list string :=
  match fuel with
  | 0 => []
  | S fuel' =>
      match node with
      | None => []
      | Some i =>
          match st !! i with
          | None => []
          | Some n =>
              if is_epsilon n && negb include_epsilon then []
              else
                node_str depth n ::
                flat_map
                  (fun child =>
                     preorder_helper fuel' st (Some child) (S depth)
                                     include_epsilon)
                  (children n)
          end
      end
  end.

(** In a store built by the parser a child is allocated after its parent,
    so no path is longer than the store. *)
Definition preorder_traversal (t : ParseTree) (include_epsilon : bool)
    : list string :=
  preorder_helper (S (length (nodes t))) (nodes t) (root t) 0
                  include_epsilon.

(** The nodes that [preorder_traversal] visits, in the order of the visit,
    each with its depth. *)
Fixpoint preorder_nodes (fuel : nat) (st : store) (node : option nat)
    (depth : nat) (include_epsilon : bool) : list (nat * ParseTreeNode) :=
  match fuel with
  | 0 => []
  | S fuel' =>
      match node with
      | None => []
      | Some i =>
          match st !! i with
          | None => []
          | Some n =>
              if is_epsilon n && negb include_epsilon then []
              else
                (depth, n) ::
                flat_map
                  (fun child =>
                     preorder_nodes fuel' st (Some child) (S depth)
                                    include_epsilon)
                  (children n)
          end
      end
  end.

(** The terminal leaves of the traversal that ignores epsilon, in order:
    each with its symbol and its recorded value. *)
Definition terminal_leaves (t : ParseTree) : list (string * string) :=
  map (fun dn => (symbol (snd dn), value (snd dn)))
      (filter (fun dn => is_terminal (snd dn) = true)
              (preorder_nodes (S (length (nodes t))) (nodes t) (root t) 0
                              false)).

End parse_tree.

(** ** parser.py *)

Module parser.

Import grammar parse_tree.

Inductive ParserErrorKind : Type :=
| Mismatch (expected found : string)            (* line 73 *)
| NoProduction (nonterminal terminal : string)  (* line 82 *)
| UnexpectedEnd.                                (* line 100 *)

Definition message (k : ParserErrorKind) : string :=
  match k with
  | Mismatch expected found =>
      "Expected '" +:+ expected +:+ "' but found '" +:+ found +:+ "'"
  | NoProduction nonterminal terminal =>
      "No production for [" +:+ nonterminal +:+ ", " +:+ terminal +:+ "]"
  | UnexpectedEnd => "Unexpected end of parsing"
  end.

(** What [parse] can raise: a [ParserError] with its token, or the
    [IndexError] of [tokens[-1]] on an empty token list. *)
Inductive exn : Type :=
| ParserError (kind : ParserErrorKind) (token : option lexer.Token)
| IndexError.

Record LL1Parser : Type := mkParser
  { tokens : list lexer.Token;
    pos : nat;
    stack : list (string * option nat);   (* the head is the top *)
    heap : store }.

Definition current_token (p : LL1Parser) : option lexer.Token :=
  if pos p <? length (tokens p) then tokens p !! pos p
  else last (tokens p).

Definition get_terminal (token : lexer.Token) : string :=
  TOKEN_TO_TERMINAL (lexer.type token).

Definition advance (p : LL1Parser) : LL1Parser :=
  if pos p <? length (tokens p) - 1
  then mkParser (tokens p) (S (pos p)) (stack p) (heap p)
  else p.

(** [if top_node: top_node.add_child(ParseTreeNode(sym))]; a node object is
    always true. *)
Definition attach (top_node : option nat) (child : nat) (st : store)
    : store :=
  match top_node with
  | Some parent => add_child parent child st
  | None => st
  end.

Definition attach_epsilon (top_node : option nat) (st : store) : store :=
  match top_node with
  | Some parent =>
      let '(st1, child) := new_node EPSILON EmptyString st in
      add_child parent child st1
  | None => st
  end.

(** The first [for] loop of an expansion: one new node per symbol of the
    production, each attached to [top_node]. *)
Fixpoint make_children (production : list string) (top_node : option nat)
    (st : store) : store * list nat :=
  match production with
  | [] => (st, [])
  | sym :: production' =>
      let '(st1, child) := new_node sym EmptyString st in
      let st2 := attach top_node child st1 in
      let '(st3, child_nodes) := make_children production' top_node st2 in
      (st3, child :: child_nodes)
  end.

(** The second [for] loop pushes from the last symbol to the first, which
    leaves the first symbol on top. *)
Definition push_all (production : list string) (child_nodes : list nat)
    (stk : list (string * option nat)) : list (string * option nat) :=
  zip production (map Some child_nodes) ++ stk.

Inductive step_result : Type :=
| Continue (p : LL1Parser)
| Return (accepted : bool) (tree : ParseTree)
| Raise (e : exn).

(** One iteration of the [while] loop of [parse]: the top of the stack is
    popped and handled; [tree_root] is the root node created before the
    loop, which the returned tree holds. *)
Definition step (tree_root : nat) (p : LL1Parser) : step_result :=
  match stack p with
  | [] => Raise (ParserError UnexpectedEnd None)
  | (top_symbol, top_node) :: stack' =>
      match current_token p with
      | None => Raise IndexError
      | Some current =>
          let current_terminal := get_terminal current in
          if String.eqb top_symbol "$" && String.eqb current_terminal "$"
          then Return true (mkTree (heap p) (Some tree_root))
          else if grammar.is_terminal top_symbol
                  && negb (String.eqb top_symbol EPSILON)
          then
            if String.eqb top_symbol current_terminal
            then
              let st :=
                match top_node with
                | Some n => set_value n (lexer.value current) (heap p)
                | None => heap p
                end in
              Continue (advance (mkParser (tokens p) (pos p) stack' st))
            else
              Raise (ParserError
                       (Mismatch top_symbol (lexer.value current))
                       (Some current))
          else if String.eqb top_symbol EPSILON
          then
            Continue (mkParser (tokens p) (pos p) stack'
                               (attach_epsilon top_node (heap p)))
          else if is_nonterminal top_symbol
          then
            match get_production top_symbol current_terminal with
            | None =>
                Raise (ParserError
                         (NoProduction top_symbol current_terminal)
                         (Some current))
            | Some production =>
                if list_string_eqb production [EPSILON]
                then
                  Continue (mkParser (tokens p) (pos p) stack'
                                     (attach_epsilon top_node (heap p)))
                else
                  let '(st, child_nodes) :=
                    make_children production top_node (heap p) in
                  Continue (mkParser (tokens p) (pos p)
                                     (push_all production child_nodes stack')
                                     st)
            end
          else Continue (mkParser (tokens p) (pos p) stack' (heap p))
      end
  end.

Fixpoint parse_loop (fuel : nat) (tree_root : nat) (p : LL1Parser)
    : option (exn + bool * option ParseTree) :=
  match fuel with
  | 0 => None
  | S fuel' =>
      match step tree_root p with
      | Continue p' => parse_loop fuel' tree_root p'
      | Return accepted tree => Some (inr (accepted, Some tree))
      | Raise e => Some (inl e)
      end
  end.

(** [LL1Parser(tokens)] *)
Definition new (toks : list lexer.Token) : LL1Parser :=
  mkParser toks 0 [] [].

(** [parse] starts from a new root node and the stack [$ Program]. *)
Definition start (p : LL1Parser) : LL1Parser :=
  let '(st, root) := new_node "Program" EmptyString [] in
  mkParser (tokens p) (pos p) [("Program", Some root); ("$", None)] st.

Definition parse (fuel : nat) (p : LL1Parser)
    : option (exn + bool * option ParseTree) :=
  parse_loop fuel 0 (start p).

(** [parse_string]: any exception of the lexer and a [ParserError] of the
    parser are caught and turned into [(False, None)]. *)
Definition parse_string (fuel : nat) (source : string)
    : option (exn + bool * option ParseTree) :=
  match lexer.tokenize source with
  | None => None
  | Some (inl _) => Some (inr (false, None))
  | Some (inr toks) =>
      match parse fuel (new toks) with
      | None => None
      | Some (inr r) => Some (inr r)
      | Some (inl (ParserError _ _)) => Some (inr (false, None))
      | Some (inl IndexError) => Some (inl IndexError)
      end
  end.

End parser.


(** ** The LL(1) table construction *)

Module ll1.

Import grammar.

(** Modelled from the spec: [grammar.py] stores [PARSE_TABLE] already
    computed and has no code that builds it.  The construction is the one
    the specification describes: FIRST sets over the productions, with
    propagation through symbols that derive epsilon; FOLLOW sets as a fixed
    point over the productions; then, for each production [A -> alpha] and
    each terminal [t] in FIRST(alpha), or in FOLLOW(A) when [alpha] can
    derive epsilon, the entry [table[A][t] = alpha].  Sets are lists
    without repetition. *)
Definition add (x : string) (s : list string) : list string :=
  if mem x s then s else s ++ [x].

Definition union (s1 s2 : list string) : list string :=
  fold_left (fun acc x => add x acc) s2 s1.

Definition without (x : string) (s : list string) : list string :=
  filter (fun y => String.eqb x y = false) s.

Definition set_of (A : string) (m : list (string * list string))
    : list string :=
  default [] (assoc A m).

Definition update (A : string) (f : list string -> list string)
    (m : list (string * list string)) : list (string * list string) :=
  map (fun kv => if String.eqb A (fst kv) then (fst kv, f (snd kv)) else kv)
      m.

(** Modelled from the spec: FIRST of a sequence of symbols, given FIRST of
    the nonterminals; [EPSILON] is in the result when every symbol of the
    sequence can derive epsilon. *)
Fixpoint first_of_seq (F : list (string * list string))
    (alpha : list string) : list string :=
  match alpha with
  | [] => [EPSILON]
  | X :: rest =>
      if String.eqb X EPSILON then first_of_seq F rest
      else if is_nonterminal X then
        let fx := set_of X F in
        union (without EPSILON fx)
              (if mem EPSILON fx then first_of_seq F rest else [])
      else [X]
  end.

Definition empty_sets : list (string * list string) :=
  map (fun A => (A, [])) NONTERMINALS.

(** Modelled from the spec: one round of the FIRST computation. *)
Definition first_step (F : list (string * list string))
    : list (string * list string) :=
  fold_left
    (fun acc '(A, prods) =>
       fold_left
         (fun acc alpha =>
            update A (fun s => union s (first_of_seq acc alpha)) acc)
         prods acc)
    PRODUCTIONS F.

Definition FIRST_sets : list (string * list string) :=
  Nat.iter 8 first_step empty_sets.

(** Modelled from the spec: one round of the FOLLOW computation.  For a
    production [A -> X1 ... Xn] and a nonterminal [Xi], FOLLOW(Xi) receives
    FIRST(Xi+1 ... Xn) without epsilon and, when that sequence can derive
    epsilon, FOLLOW(A). *)
Fixpoint follow_production (A : string) (alpha : list string)
    (Fo : list (string * list string)) : list (string * list string) :=
  match alpha with
  | [] => Fo
  | X :: rest =>
      let Fo1 :=
        if is_nonterminal X then
          let fr := first_of_seq FIRST_sets rest in
          update X
            (fun s =>
               union (union s (without EPSILON fr))
                     (if mem EPSILON fr then set_of A Fo else []))
            Fo
        else Fo in
      follow_production A rest Fo1
  end.

Definition follow_step (Fo : list (string * list string))
    : list (string * list string) :=
  fold_left
    (fun acc '(A, prods) =>
       fold_left (fun acc alpha => follow_production A alpha acc) prods acc)
    PRODUCTIONS Fo.

Definition FOLLOW_sets : list (string * list string) :=
  Nat.iter 8 follow_step (update "Program" (add "$") empty_sets).



(** The entries stored in [PARSE_TABLE]. *)
Definition stored : list (string * string * list string) :=
  flat_map (fun '(A, r) => map (fun '(t, alpha) => (A, t, alpha)) r)
           PARSE_TABLE.






End ll1.

(** ** Measures and predicates used by the statements about the parser *)

Module measure.

Import grammar.

(** [rank_seq r l] adds the ranks of the symbols of [l] up to and including
    the first one whose flag is set. *)
Fixpoint rank_seq (r : string -> nat * bool) (l : list string)
    : nat * bool :=
  match l with
  | [] => (0, false)
  | X :: l' =>
      let '(n, b) := r X in
      if b then (n, true)
      else let '(m, b') := rank_seq r l' in (n + m, b')
  end.

(** [rank fuel t X]: with [X] on top of the stack and the lookahead [t],
    the number of iterations of the parser before [X] and what it expands
    to are gone from the stack without a token consumed (flag [false]), or
    before the loop ends or consumes [t] (flag [true]). *)
Fixpoint rank (fuel : nat) (t X : string) : nat * bool :=
  match fuel with
  | 0 => (1, true)
  | S fuel' =>
      if is_terminal X && negb (String.eqb X EPSILON) then (1, true)
      else if String.eqb X EPSILON then (1, false)
      else if is_nonterminal X then
        match get_production X t with
        | None => (1, true)
        | Some production =>
            if list_string_eqb production [EPSILON] then (1, false)
            else
              let '(n, b) := rank_seq (rank fuel' t) production in (S n, b)
        end
      else (1, false)
  end.

Definition depth : nat := 30.

Definition potential (p : parser.LL1Parser) : nat :=
  match parser.current_token p with
  | Some current =>
      fst (rank_seq (rank depth (parser.get_terminal current))
                    (map fst (parser.stack p)))
  | None => 0
  end.

End measure.

(** A token list as the lexer produces it ends with an [EOF] token. *)
Definition eof_terminated (toks : list lexer.Token) : Prop :=
  exists eof, last toks = Some eof /\ lexer.type eof = lexer.EOF.

(** The three ways in which a run of [parse] can end: it accepts, or it
    raises one of its two errors inside the loop. *)
Definition accepted (r : parser.exn + bool * option parse_tree.ParseTree)
    : Prop :=
  exists tree, r = inr (true, Some tree).

Definition raised_mismatch
    (r : parser.exn + bool * option parse_tree.ParseTree) : Prop :=
  exists expected found token,
    r = inl (parser.ParserError (parser.Mismatch expected found) token).

Definition raised_no_production
    (r : parser.exn + bool * option parse_tree.ParseTree) : Prop :=
  exists nonterminal terminal token,
    r = inl (parser.ParserError (parser.NoProduction nonterminal terminal)
                                token).

Definition raised_unexpected_end
    (r : parser.exn + bool * option parse_tree.ParseTree) : Prop :=
  exists token, r = inl (parser.ParserError parser.UnexpectedEnd token).

(** ** The control part of a parser state *)

Module control.

Import grammar parser.

Definition symbols (p : LL1Parser) : list string := map fst (stack p).

(** What a continuing step does to the cursor and to the symbols on the
    stack. *)
Inductive step_kind (p p' : LL1Parser) : Prop :=
| step_match top current :
    symbols p = top :: symbols p' ->
    current_token p = Some current ->
    top = get_terminal current -> top <> "$" ->
    tokens p' = tokens p -> pos p' = S (pos p) ->
    S (pos p) < length (tokens p) ->
    step_kind p p'
| step_drop top current :
    symbols p = top :: symbols p' ->
    current_token p = Some current ->
    top <> "$" ->
    (top = EPSILON
     \/ (is_nonterminal top = true
         /\ get_production top (get_terminal current) = Some [EPSILON])
     \/ (grammar.is_terminal top = false /\ is_nonterminal top = false)) ->
    tokens p' = tokens p -> pos p' = pos p ->
    step_kind p p'
| step_expand top current production rest :
    symbols p = top :: rest ->
    symbols p' = production ++ rest ->
    current_token p = Some current ->
    is_nonterminal top = true ->
    get_production top (get_terminal current) = Some production ->
    list_string_eqb production [EPSILON] = false ->
    tokens p' = tokens p -> pos p' = pos p ->
    step_kind p p'.

(** How far a run is from the closing [end .] of the program: the stack
    still ends with [Program], with [Block .] or with [end .] above the end
    marker; or [end] has just been consumed; or [end .] has. *)
Inductive closing (p : LL1Parser) : Prop :=
| closing_open S tail :
    symbols p = S ++ tail ++ ["$"] -> ~ In "$" S ->
    tail = ["Program"] \/ tail = ["Block"; "."] \/ tail = ["end"; "."] ->
    closing p
| closing_dot e :
    symbols p = ["."; "$"] -> 1 <= pos p ->
    tokens p !! (pos p - 1) = Some e -> get_terminal e = "end" ->
    closing p
| closing_done e d :
    symbols p = ["$"] -> 2 <= pos p ->
    tokens p !! (pos p - 2) = Some e -> tokens p !! (pos p - 1) = Some d ->
    get_terminal e = "end" -> get_terminal d = "." ->
    closing p.

End control.

(** The last two tokens before the end of input are [end] and [.]. *)
Definition ends_with_end_dot (body : list lexer.Token) : Prop :=
  exists pre e d,
    body = pre ++ [e; d]
    /\ lexer.type e = lexer.END /\ lexer.type d = lexer.DOT.

(** The tokens of [program t; begin x := end.] *)
Definition missing_rhs_tokens : list lexer.Token :=
  [ lexer.mkToken lexer.PROGRAM "program" 1 1;
    lexer.mkToken lexer.ID "t" 1 9;
    lexer.mkToken lexer.SEMICOLON ";" 1 10;
    lexer.mkToken lexer.BEGIN "begin" 1 12;
    lexer.mkToken lexer.ID "x" 1 18;
    lexer.mkToken lexer.ASSIGN ":=" 1 20;
    lexer.mkToken lexer.END "end" 1 23;
    lexer.mkToken lexer.DOT "." 1 26;
    lexer.mkToken lexer.EOF "$" 1 27 ].

(** The tokens of [program t; begin x := 1], a program without its closing
    [end .] *)
Definition no_end_dot_body : list lexer.Token :=
  [ lexer.mkToken lexer.PROGRAM "program" 1 1;
    lexer.mkToken lexer.ID "t" 1 9;
    lexer.mkToken lexer.SEMICOLON ";" 1 10;
    lexer.mkToken lexer.BEGIN "begin" 1 12;
    lexer.mkToken lexer.ID "x" 1 18;
    lexer.mkToken lexer.ASSIGN ":=" 1 20;
    lexer.mkToken lexer.NUM "1" 1 23 ].

Definition no_end_dot_tokens : list lexer.Token :=
  no_end_dot_body ++ [lexer.mkToken lexer.EOF "$" 1 24].

(** The tokens of [program t; begin x := 1 .], a program without its
    closing [end] *)
Definition no_end_body : list lexer.Token :=
  no_end_dot_body ++ [lexer.mkToken lexer.DOT "." 1 25].

Definition no_end_tokens : list lexer.Token :=
  no_end_body ++ [lexer.mkToken lexer.EOF "$" 1 26].

Definition raises_mismatch_or_end (toks : list lexer.Token) : Prop :=
  exists fuel r,
    parser.parse fuel (parser.new toks) = Some r
    /\ (raised_mismatch r \/ raised_unexpected_end r).

(** The claim that every program without the closing [end .] is rejected
    with a terminal mismatch or with the error of the exhausted stack (the
    error raised after the loop, for a premature end of the parse). *)
Definition rejected_by_mismatch_or_end : Prop :=
  forall body eof,
    lexer.type eof = lexer.EOF ->
    Forall (fun tok => lexer.type tok <> lexer.EOF) body ->
    ~ ends_with_end_dot body ->
    raises_mismatch_or_end (body ++ [eof]).

(** ** Lexer states *)

Module scan.

Import lexer.

(** [later lx lx']: the same source and tokens, at a position not before. *)
Definition later (lx lx' : Lexer) : Prop :=
  source lx' = source lx /\ tokens lx' = tokens lx /\ pos lx <= pos lx'.

(** [at_text lx pre suf]: the lexer has read [pre] and faces [suf]. *)
Definition at_text (lx : Lexer) (pre suf : string) : Prop :=
  source lx = pre +:+ suf /\ pos lx = String.length pre.

(** [moved lx n]: [lx] after [n] characters of one line. *)
Definition moved (lx : Lexer) (n : nat) : Lexer :=
  {| source := source lx; pos := pos lx + n; cur_line := cur_line lx;
     cur_column := cur_column lx + n; tokens := tokens lx |}.

Fixpoint string_forall (p : ascii -> bool) (s : string) : bool :=
  match s with
  | EmptyString => true
  | String c s' => p c && string_forall p s'
  end.

Definition starts_with (p : ascii -> bool) (s : string) : bool :=
  holds p (String.get 0 s).

(** A nonempty run of digits. *)
Definition digits (s : string) : bool :=
  negb (String.eqb s EmptyString) && string_forall isdigit s.

(** A word: a letter or an underscore, then letters, digits and
    underscores. *)
Definition is_word (s : string) : bool :=
  match s with
  | EmptyString => false
  | String c s' =>
      (isalpha c || Ascii.eqb c "_")
      && string_forall (fun c => isalnum c || Ascii.eqb c "_") s'
  end.

Definition keyword_or_ID (w : string) : TokenType :=
  match assoc (lower w) KEYWORDS with
  | Some kw => kw
  | None => ID
  end.

(** The states of the lexer at the head of the main loop of [tokenize]. *)
Inductive loop_head (src : string) : Lexer -> Prop :=
| loop_head_init : loop_head src (init src)
| loop_head_next lx c lx' :
    loop_head src lx -> current_char lx = Some c ->
    tokenize_body c lx = inr lx' -> loop_head src lx'.

(** The lexer faces a [{] and no [}] follows. *)
Definition unterminated_brace (lx : Lexer) : Prop :=
  current_char lx = Some "{"%char
  /\ forall i, pos lx < i -> String.get i (source lx) <> Some "}"%char.

(** The lexer faces [(*] and no [*)] follows. *)
Definition unterminated_star (lx : Lexer) : Prop :=
  current_char lx = Some "("%char /\ peek lx = Some "*"%char
  /\ forall i, pos lx + 2 <= i ->
       ~ (String.get i (source lx) = Some "*"%char
          /\ String.get (S i) (source lx) = Some ")"%char).

End scan.

(** ** The store of tree nodes during a parse *)

Module leaves.

Import grammar parse_tree parser.

(** The terminal leaves below node [i], as references, in the order of the
    preorder traversal that ignores epsilon. *)
Fixpoint leaf_ids (fuel : nat) (st : store) (i : nat) : list nat :=
  match fuel with
  | 0 => []
  | S fuel' =>
      match st !! i with
      | None => []
      | Some n =>
          if is_epsilon n then []
          else if length (children n) =? 0 then [i]
          else flat_map (leaf_ids fuel' st) (children n)
      end
  end.

Definition node_info (st : store) (i : nat) : string * string :=
  match st !! i with
  | Some n => (symbol n, value n)
  | None => (EmptyString, EmptyString)
  end.

Definition token_leaf (tok : lexer.Token) : string * string :=
  (get_terminal tok, lexer.value tok).

(** A node as [ParseTreeNode(sym)] creates it. *)
Definition fresh (sym : string) : ParseTreeNode := mkNode sym EmptyString [].

(** [graft i new st]: the nodes [new] are allocated and become, in order,
    the last children of node [i]. *)
Definition graft (i : nat) (new : list ParseTreeNode) (st : store) : store :=
  alter (fun n => mkNode (symbol n) (value n)
                         (children n ++ seq (length st) (length new)))
        i (st ++ new).

(** Children are allocated after their parent. *)
Definition store_wf (st : store) : Prop :=
  forall i n, st !! i = Some n ->
              Forall (fun c => i < c < length st) (children n).

(** The terminal leaves among newly allocated nodes, the first of which is
    node [base]. *)
Fixpoint new_leaf_ids (base : nat) (new : list ParseTreeNode) : list nat :=
  match new with
  | [] => []
  | x :: new' =>
      (if is_epsilon x then [] else [base]) ++ new_leaf_ids (S base) new'
  end.

Definition subst_leaf (i : nat) (L : list nat) (x : nat) : list nat :=
  if x =? i then L else [x].

Definition stack_of (pend : list (string * nat))
    : list (string * option nat) :=
  map (fun sn => (fst sn, Some (snd sn))) pend ++ [("$", None)].

Definition pending_ok (st : store) (sn : string * nat) : Prop :=
  st !! snd sn = Some (fresh (fst sn))
  /\ fst sn <> EPSILON /\ fst sn <> "$"
  /\ grammar.is_terminal (fst sn) || is_nonterminal (fst sn) = true.

(** The invariant of the loop of [parse]: the terminal leaves of the tree
    under construction are the nodes [done], which hold the tokens consumed
    so far, followed by the nodes [pend] that wait on the stack. *)
Record run_inv (toks : list lexer.Token) (p : LL1Parser)
    (done : list nat) (pend : list (string * nat)) : Prop := mkInv
  { inv_tokens : tokens p = toks;
    inv_pos : pos p < length toks;
    inv_stack : stack p = stack_of pend;
    inv_wf : store_wf (heap p);
    inv_root : 0 < length (heap p);
    inv_leaves :
      forall fuel, length (heap p) <= fuel ->
                   leaf_ids fuel (heap p) 0 = done ++ map snd pend;
    inv_nodup : NoDup (done ++ map snd pend);
    inv_pending : Forall (pending_ok (heap p)) pend;
    inv_done_range : Forall (fun i => i < length (heap p)) done;
    inv_done :
      map (node_info (heap p)) done = map token_leaf (take (pos p) toks) }.

End leaves.

(** The tokens of [program t; begin end.] and the tree that [parse]
    returns for them. *)
Definition empty_program_body : list lexer.Token :=
  [ lexer.mkToken lexer.PROGRAM "program" 1 1;
    lexer.mkToken lexer.ID "t" 1 9;
    lexer.mkToken lexer.SEMICOLON ";" 1 10;
    lexer.mkToken lexer.BEGIN "begin" 1 12;
    lexer.mkToken lexer.END "end" 1 18;
    lexer.mkToken lexer.DOT "." 1 21 ].

Definition empty_program_eof : lexer.Token :=
  lexer.mkToken lexer.EOF "$" 1 22.

Definition empty_program_tree : parse_tree.ParseTree :=
  match parser.parse 20 (parser.new (empty_program_body
                                       ++ [empty_program_eof])) with
  | Some (inr (_, Some tree)) => tree
  | _ => parse_tree.mkTree [] None
  end.

(** ** Positions and lexemes in the source text *)

Module layout.

Import lexer scan.

(** [line_col s off line col]: the line and column reached from
    [(line, col)] after the first [off] characters of [s], counted as
    [advance] counts them. *)
Fixpoint line_col (s : string) (off line col : nat) {struct off}
    : nat * nat :=
  match off with
  | 0 => (line, col)
  | S off' =>
      match s with
      | String c s' =>
          if Ascii.eqb c newline then line_col s' off' (S line) 1
          else line_col s' off' line (S col)
      | EmptyString => (line, col)
      end
  end.

(** The 1-based line and column of the character at offset [off]. *)
Definition position (src : string) (off : nat) : nat * nat :=
  line_col src off 1 1.

(** The lexer is inside its source and its line and column are those of
    its offset. *)
Definition tracked (lx : Lexer) : Prop :=
  pos lx <= String.length (source lx)
  /\ (cur_line lx, cur_column lx) = position (source lx) (pos lx).

(** The token [t] is the text of the source at offset [off]. *)
Definition located (src : string) (off : nat) (t : Token) : Prop :=
  position src off = (line t, column t)
  /\ substring off (String.length (value t)) src = value t
  /\ 0 < String.length (value t).

(** The tokens lie in the source in order, without overlap, between the
    offsets [from] and [upto]. *)
Fixpoint laid_out (src : string) (from : nat) (toks : list Token)
    (upto : nat) : Prop :=
  match toks with
  | [] => from <= upto
  | t :: toks' =>
      exists off,
        from <= off /\ located src off t
        /\ laid_out src (off + String.length (value t)) toks' upto
  end.

(** The lexeme of a number: a digit run, or two digit runs around a dot. *)
Definition num_lexeme (s : string) : Prop :=
  exists d1, digits d1 = true
    /\ (s = d1 \/ exists d2, digits d2 = true /\ s = d1 +:+ "." +:+ d2).

(** What the lexer guarantees of a token, by its type: a number, a word
    that is not a keyword, the [EOF] marker, or a keyword or operator whose
    terminal is its lowercased lexeme. *)
Definition token_ok (t : Token) : Prop :=
  match type t with
  | NUM => num_lexeme (value t)
  | ID => is_word (value t) = true /\ assoc (lower (value t)) KEYWORDS = None
  | EOF => value t = "$"
  | ty =>
      grammar.TOKEN_TO_TERMINAL ty = lower (value t)
      /\ (is_word (value t) = true
          -> assoc (lower (value t)) KEYWORDS = Some ty)
  end.

(** The characters that the main loop of [tokenize] accepts at the head of
    an iteration. *)
Definition token_start (c : ascii) : bool :=
  isspace c || Ascii.eqb c "{" || isdigit c || isalpha c || Ascii.eqb c "_"
  || match single_char_token c with Some _ => true | None => false end.

End layout.

(** ** The language of the productions *)

Module language.

Import grammar.

(** [derives X w]: the grammar symbol [X] derives the sequence of terminals
    [w] by the productions of [PRODUCTIONS]; the epsilon marker derives the
    empty sequence. *)
Inductive derives : string -> list string -> Prop :=
| derives_terminal t : In t TERMINALS -> derives t [t]
| derives_epsilon : derives EPSILON []
| derives_production A prods alpha w :
    assoc A PRODUCTIONS = Some prods -> In alpha prods ->
    derives_seq alpha w -> derives A w
with derives_seq : list string -> list string -> Prop :=
| derives_nil : derives_seq [] []
| derives_cons X alpha w1 w2 :
    derives X w1 -> derives_seq alpha w2 ->
    derives_seq (X :: alpha) (w1 ++ w2).

End language.

(** ** The nodes of a parse tree under construction *)

Module tree_shape.

Import grammar parse_tree parser leaves.

Definition node_symbol (st : store) (i : nat) : string :=
  match st !! i with
  | Some n => symbol n
  | None => EmptyString
  end.

(** A finished node: an epsilon leaf, a terminal leaf, or a node whose
    children spell, in order, one of the productions of its symbol. *)
Definition derivation_node (st : store) (n : ParseTreeNode) : Prop :=
  match children n with
  | [] => symbol n = EPSILON \/ In (symbol n) TERMINALS
  | cs =>
      exists prods,
        assoc (symbol n) PRODUCTIONS = Some prods
        /\ In (map (node_symbol st) cs) prods
  end.

(** Every node is finished, or waits on the stack. *)
Definition nodes_ok (st : store) (pend : list (string * nat)) : Prop :=
  forall i n, st !! i = Some n ->
              In i (map snd pend) \/ derivation_node st n.

(** The tree is a derivation tree of the grammar: its root is a [Program]
    node, children are allocated after their parent, and every node is
    finished. *)
Definition derivation_tree (t : ParseTree) : Prop :=
  root t = Some 0
  /\ node_symbol (nodes t) 0 = "Program"
  /\ store_wf (nodes t)
  /\ forall i n, nodes t !! i = Some n -> derivation_node (nodes t) n.

End tree_shape.

(** ** lexer.py: [tokenize_input] *)

Module lexer_input.

Import lexer scan.

Definition simple_tokens : list (string * TokenType) :=
  [ ("id", ID); ("num", NUM); ("+", PLUS); ("-", MINUS); ("*", MULTIPLY);
    ("/", DIVIDE); ("=", EQUAL); (":=", ASSIGN); (";", SEMICOLON);
    (":", COLON); (",", COMMA); (".", DOT); ("(", LPAREN); (")", RPAREN);
    ("<", LESS); (">", GREATER); ("<=", LESS_EQUAL); (">=", GREATER_EQUAL);
    ("<>", NOT_EQUAL); ("program", PROGRAM); ("var", VAR); ("begin", BEGIN);
    ("end", END); ("integer", INTEGER); ("real", REAL);
    ("boolean", BOOLEAN); ("if", IF); ("then", THEN); ("else", ELSE);
    ("while", WHILE); ("do", DO); ("read", READ); ("write", WRITE);
    ("div", DIV); ("mod", MOD) ].

(** Python's [str.strip()], [str.split()], [str.replace('.', '')],
    [str.count('.')] and [str.isidentifier()] on the code points
    0..255. *)
Fixpoint lstrip (s : string) : string :=
  match s with
  | EmptyString => EmptyString
  | String c s' => if isspace c then lstrip s' else s
  end.

Fixpoint rstrip (s : string) : string :=
  match s with
  | EmptyString => EmptyString
  | String c s' =>
      match rstrip s' with
      | EmptyString => if isspace c then EmptyString else String c EmptyString
      | r => String c r
      end
  end.

Definition strip (s : string) : string := rstrip (lstrip s).

(** [split_from word s]: the words of [s], the first of them after the
    characters [word] read so far. *)
Fixpoint split_from (word : string) (s : string) : list string :=
  match s with
  | EmptyString =>
      if String.eqb word EmptyString then [] else [word]
  | String c s' =>
      if isspace c
      then if String.eqb word EmptyString then split_from EmptyString s'
           else word :: split_from EmptyString s'
      else split_from (word +:+ String c EmptyString) s'
  end.

Definition split (s : string) : list string := split_from EmptyString s.

Fixpoint remove_dots (s : string) : string :=
  match s with
  | EmptyString => EmptyString
  | String c s' =>
      if Ascii.eqb c "." then remove_dots s' else String c (remove_dots s')
  end.

Fixpoint count_dots (s : string) : nat :=
  match s with
  | EmptyString => 0
  | String c s' =>
      if Ascii.eqb c "." then S (count_dots s') else count_dots s'
  end.

Definition xid_continue (c : ascii) : bool :=
  isalpha c || Ascii.eqb c "_" || between 48 57 (code c)
  || (code c =? 183).

Definition isidentifier (s : string) : bool :=
  match s with
  | EmptyString => false
  | String c s' =>
      (isalpha c || Ascii.eqb c "_") && string_forall xid_continue s'
  end.

(** The branches of the loop body: the type of the token that a part
    gives, if any. *)
Definition part_type (part : string) : option TokenType :=
  match assoc (lower part) simple_tokens with
  | Some ty => Some ty
  | None =>
      if digits part
         || (digits (remove_dots part) && (count_dots part <=? 1))
      then Some NUM
      else if isidentifier part then Some ID
      else None
  end.

(** The loop over [enumerate(parts)], from the index [i] on. *)
Fixpoint input_loop (i : nat) (parts : list string)
    : LexerError + list Token :=
  match parts with
  | [] => inr []
  | part :: parts' =>
      match part_type part with
      | Some ty =>
          match input_loop (S i) parts' with
          | inl e => inl e
          | inr toks => inr (mkToken ty part 1 (i + 1) :: toks)
          end
      | None => inl (mkLexerError ("Unknown token: " +:+ part) 1 (i + 1))
      end
  end.

Definition tokenize_input (input_string : string)
    : LexerError + list Token :=
  let parts := split (strip input_string) in
  match input_loop 0 parts with
  | inl e => inl e
  | inr toks => inr (toks ++ [mkToken EOF "$" 1 (length parts + 1)])
  end.

(** The tokens with the positions that [tokenize_input] gives them: line
    1, and for column the index of the token, from [i + 1] on. *)
Fixpoint renumbered (i : nat) (toks : list Token) : list Token :=
  match toks with
  | [] => []
  | t :: toks' => mkToken (type t) (value t) 1 (i + 1) :: renumbered (S i) toks'
  end.

(** The operator and punctuation tokens of [tokenize] with their lexemes. *)
Definition operators : list (TokenType * string) :=
  [ (PLUS, "+"); (MINUS, "-"); (MULTIPLY, "*"); (DIVIDE, "/");
    (ASSIGN, ":="); (EQUAL, "="); (NOT_EQUAL, "<>"); (LESS, "<");
    (GREATER, ">"); (LESS_EQUAL, "<="); (GREATER_EQUAL, ">=");
    (LPAREN, "("); (RPAREN, ")"); (SEMICOLON, ";"); (COLON, ":");
    (COMMA, ","); (DOT, ".") ].

(** A nonempty string without whitespace. *)
Definition solid (v : string) : Prop :=
  v <> EmptyString /\ string_forall (fun c => negb (isspace c)) v = true.

End lexer_input.

(** ** Lexemes written out again *)

Module respelling.

Import lexer scan.

(** Nothing, or a space, follows. *)
Definition delimited (s : string) : Prop :=
  s = EmptyString \/ exists r, s = String " " r.

(** The lexemes of the tokens, with one space between them. *)
Definition respell (toks : list Token) : string :=
  String.concat " " (map value toks).

(** One iteration of the main loop of [tokenize] reads the lexeme [v] as a
    token of type [ty]. *)
Definition reads (lx : Lexer) (ty : TokenType) (v : string) : Prop :=
  exists c,
    current_char lx = Some c /\ isspace c = false
    /\ tokenize_body c lx
       = inr (push (mkToken ty v (cur_line lx) (cur_column lx))
                   (moved lx (String.length v))).

End respelling.

(** ** parse_tree.py: the graphical view and the sample tree *)

Module tree_output.

Import parse_tree.

(** [non_epsilon_children]: the children that are not epsilon nodes. *)
Definition non_epsilon (st : store) (c : nat) : bool :=
  match st !! c with
  | Some n => negb (is_epsilon n)
  | None => true
  end.

Definition graphical_line (prefix : string) (is_last : bool)
    (n : ParseTreeNode) : string :=
  let connector := if is_last then "+-- " else "|-- " in
  let sym := if String.eqb (symbol n) "ε" then "eps" else symbol n in
  if negb (String.eqb (value n) EmptyString)
     && negb (String.eqb (value n) (symbol n))
  then prefix +:+ connector +:+ sym +:+ " (" +:+ value n +:+ ")"
  else prefix +:+ connector +:+ sym.

(** [_print_graphical_helper]: the lines it prints, in order.  The fuel
    bounds the depth of the recursion. *)
Fixpoint print_graphical_helper (fuel : nat) (st : store)
    (node : option nat) (prefix : string) (is_last : bool) : list string :=
  match fuel with
  | 0 => []
  | S fuel' =>
      match node with
      | None => []
      | Some i =>
          match st !! i with
          | None => []
          | Some n =>
              if is_epsilon n then []
              else
                let child_prefix :=
                  prefix +:+ (if is_last then "    " else "|   ") in
                let non_epsilon_children :=
                  List.filter (non_epsilon st) (children n) in
                graphical_line prefix is_last n ::
                concat
                  (imap
                     (fun i child =>
                        print_graphical_helper fuel' st (Some child)
                          child_prefix
                          (i =? length non_epsilon_children - 1))
                     non_epsilon_children)
          end
      end
  end.

(** The lines that [print_graphical] prints between its header and its
    footer. *)
Definition graphical_lines (t : ParseTree) : list string :=
  print_graphical_helper (S (length (nodes t))) (nodes t) (root t)
                         EmptyString true.

(** A line of the graphical view and a line of the traversal show the same
    node: the same label, after four columns of drawing per level in the
    one and after the indentation of the depth in the other. *)
Definition same_node (g l : string) : Prop :=
  exists depth n drawing,
    l = node_str depth n
    /\ g = drawing +:+ node_str 0 n
    /\ String.length drawing = 4 * S depth.

(** No epsilon node has children. *)
Definition epsilon_leaves (st : store) : bool :=
  forallb (fun n => implb (is_epsilon n) (length (children n) =? 0)) st.

(** [ParseTreeNode(sym, val)] added as the last child of [parent]. *)
Definition add_new (parent : nat) (sym val : string) (st : store)
    : store * nat :=
  let '(st1, child) := new_node sym val st in
  (add_child parent child st1, child).

(** [build_sample_tree], statement by statement. *)
Definition build_sample_tree : ParseTree :=
  let '(st, root) := new_node "Program" EmptyString [] in
  let '(st, _) := add_new root "program" "program" st in
  let '(st, _) := add_new root "id" "test" st in
  let '(st, _) := add_new root ";" ";" st in
  let '(st, block) := add_new root "Block" EmptyString st in
  let '(st, decl) := new_node "Declarations" EmptyString st in
  let '(st, _) := add_new decl "ε" EmptyString st in
  let st := add_child block decl st in
  let '(st, _) := add_new block "begin" "begin" st in
  let '(st, stmt_list) := add_new block "StmtList" EmptyString st in
  let '(st, stmt) := add_new stmt_list "Statement" EmptyString st in
  let '(st, _) := add_new stmt "id" "x" st in
  let '(st, _) := add_new stmt ":=" ":=" st in
  let '(st, expr) := add_new stmt "Expression" EmptyString st in
  let '(st, term) := add_new expr "Term" EmptyString st in
  let '(st, factor) := add_new term "Factor" EmptyString st in
  let '(st, _) := add_new factor "num" "5" st in
  let '(st, termp) := new_node "TermP" EmptyString st in
  let '(st, _) := add_new termp "ε" EmptyString st in
  let st := add_child term termp st in
  let '(st, exprp) := new_node "ExpressionP" EmptyString st in
  let '(st, _) := add_new exprp "ε" EmptyString st in
  let st := add_child expr exprp st in
  let '(st, stmtlistp) := new_node "StmtListP" EmptyString st in
  let '(st, _) := add_new stmtlistp "ε" EmptyString st in
  let st := add_child stmt_list stmtlistp st in
  let '(st, _) := add_new block "end" "end" st in
  let '(st, _) := add_new root "." "." st in
  mkTree st (Some root).

End tree_output.

(** ** Tokens that differ in lexemes or positions *)

Module lexeme_independence.

Import grammar parse_tree parser.

(** The shape of a node: its symbol and its children, without the lexeme
    it records. *)
Definition shape (n : ParseTreeNode) : string * list nat :=
  (symbol n, children n).

Definition same_shape (t1 t2 : ParseTree) : Prop :=
  root t1 = root t2 /\ map shape (nodes t1) = map shape (nodes t2).

Definition same_type (a b : option lexer.Token) : Prop :=
  option_map lexer.type a = option_map lexer.type b.

(** Two errors of [parse] that differ in the lexemes and positions they
    report only. *)
Definition same_error (e1 e2 : exn) : Prop :=
  match e1, e2 with
  | ParserError (Mismatch x1 _) t1, ParserError (Mismatch x2 _) t2 =>
      x1 = x2 /\ same_type t1 t2
  | ParserError (NoProduction A1 a1) t1, ParserError (NoProduction A2 a2) t2 =>
      A1 = A2 /\ a1 = a2 /\ same_type t1 t2
  | ParserError UnexpectedEnd t1, ParserError UnexpectedEnd t2 =>
      same_type t1 t2
  | IndexError, IndexError => True
  | _, _ => False
  end.

Definition same_outcome (r1 r2 : option (exn + bool * option ParseTree))
    : Prop :=
  match r1, r2 with
  | None, None => True
  | Some (inl e1), Some (inl e2) => same_error e1 e2
  | Some (inr (b1, Some t1)), Some (inr (b2, Some t2)) =>
      b1 = b2 /\ same_shape t1 t2
  | Some (inr (b1, None)), Some (inr (b2, None)) => b1 = b2
  | _, _ => False
  end.

(** Two states of the parser that differ in lexemes and positions only. *)
Definition same_state (p q : LL1Parser) : Prop :=
  map lexer.type (tokens p) = map lexer.type (tokens q)
  /\ pos p = pos q /\ stack p = stack q
  /\ map shape (heap p) = map shape (heap q).

(** Two states of the parser that differ in the positions of the tokens
    only. *)
Definition lexeme (t : lexer.Token) : lexer.TokenType * string :=
  (lexer.type t, lexer.value t).

Definition same_lexemes (p q : LL1Parser) : Prop :=
  map lexeme (tokens p) = map lexeme (tokens q)
  /\ pos p = pos q /\ stack p = stack q /\ heap p = heap q.

Definition same_result (a b : step_result) : Prop :=
  match a, b with
  | Continue p, Continue q => same_lexemes p q
  | Return b1 t1, Return b2 t2 => b1 = b2 /\ t1 = t2
  | Raise (ParserError _ _), Raise (ParserError _ _) => True
  | Raise IndexError, Raise IndexError => True
  | _, _ => False
  end.

(** Two results of one iteration of the loop that differ in lexemes and
    positions only. *)
Definition same_step (a b : step_result) : Prop :=
  match a, b with
  | Continue p, Continue q => same_state p q
  | Return b1 t1, Return b2 t2 => b1 = b2 /\ same_shape t1 t2
  | Raise e1, Raise e2 => same_error e1 e2
  | _, _ => False
  end.

End lexeme_independence.

(** ** A semicolon right after [begin] *)

Module block_start.

Import grammar parser.

(** Every [begin] in a sequence of grammar symbols is directly followed by
    [StmtList]. *)
Fixpoint begin_guarded (l : list string) : bool :=
  match l with
  | [] => true
  | x :: l' =>
      (if String.eqb x "begin"
       then match l' with
            | y :: _ => String.eqb y "StmtList"
            | [] => false
            end
       else true)
      && begin_guarded l'
  end.

(** When the token before the cursor is [begin] and the current token is
    [;], the top of the stack is [StmtList]. *)
Definition after_begin (p : LL1Parser) : Prop :=
  forall k b c,
    pos p = S k -> tokens p !! k = Some b -> get_terminal b = "begin" ->
    current_token p = Some c -> get_terminal c = ";" ->
    exists rest, control.symbols p = "StmtList" :: rest.

End block_start.

(** ** A token list without [EOF] *)

Module runaway.

Import grammar parser.

(** The cursor is on the last token, which is a [(], and the symbols on top
    of the stack are among those that the parser goes through on a [(]. *)
Definition at_open_paren (p : LL1Parser) : Prop :=
  (exists tok, current_token p = Some tok /\ get_terminal tok = "(")
  /\ length (tokens p) - 1 <= pos p
  /\ exists rest,
      control.symbols p = "Expression" :: rest
      \/ control.symbols p = "Term" :: rest
      \/ control.symbols p = "Factor" :: rest
      \/ control.symbols p = "(" :: "Expression" :: rest.

(** [k] iterations of the loop of [parse], none of which returns or
    raises. *)
Fixpoint iterations (k : nat) (tree_root : nat) (p : LL1Parser)
    : option LL1Parser :=
  match k with
  | 0 => Some p
  | S k' =>
      match step tree_root p with
      | Continue p' => iterations k' tree_root p'
      | _ => None
      end
  end.

End runaway.

(** The tokens of [program t; begin ; end.], which the productions derive
    (the first statement of the block is empty). *)
Definition empty_statement_body : list lexer.Token :=
  [ lexer.mkToken lexer.PROGRAM "program" 1 1;
    lexer.mkToken lexer.ID "t" 1 9;
    lexer.mkToken lexer.SEMICOLON ";" 1 10;
    lexer.mkToken lexer.BEGIN "begin" 1 12;
    lexer.mkToken lexer.SEMICOLON ";" 1 18;
    lexer.mkToken lexer.END "end" 1 20;
    lexer.mkToken lexer.DOT "." 1 23 ].

(** The tokens of [program t; begin x := (], without an [EOF] token. *)
Definition open_paren_tokens : list lexer.Token :=
  [ lexer.mkToken lexer.PROGRAM "program" 1 1;
    lexer.mkToken lexer.ID "t" 1 9;
    lexer.mkToken lexer.SEMICOLON ";" 1 10;
    lexer.mkToken lexer.BEGIN "begin" 1 12;
    lexer.mkToken lexer.ID "x" 1 18;
    lexer.mkToken lexer.ASSIGN ":=" 1 20;
    lexer.mkToken lexer.LPAREN "(" 1 23 ].

(** * Properties *)

(** ** Helper lemmas on strings and association lists *)

Lemma list_string_eqb_eq (a b : list string) :
  list_string_eqb a b = true <-> a = b.
Proof.
  revert b; induction a as [|x a IH]; intros [|y b]; simpl;
    try (split; [discriminate | congruence]); [tauto|].
  rewrite andb_true_iff, String.eqb_eq, IH.
  split; [intros [-> ->]; reflexivity | intros [= -> ->]; auto].
Qed.

Lemma assoc_In {A : Type} (k : string) (l : list (string * A)) (v : A) :
  assoc k l = Some v -> In (k, v) l.
Proof.
  unfold assoc. induction l as [|[k' v'] l IH]; simpl; [discriminate|].
  destruct (String.eqb k k') eqn:E; simpl.
  - apply String.eqb_eq in E. intros [= ->]. left; congruence.
  - intros H; right; auto.
Qed.

Lemma mem_In (s : string) (l : list string) : grammar.mem s l = true <-> In s l.
Proof.
  unfold grammar.mem. rewrite existsb_exists. split.
  - intros (x & Hx & E). apply String.eqb_eq in E. congruence.
  - intros H. exists s. split; [assumption | apply String.eqb_refl].
Qed.

(** ** The stored table against the LL(1) construction *)

Section Construction.

Import grammar ll1.



(** The sets used by the construction are fixed points of the rounds that
    compute them (and are reached from the empty sets, so they are the
    least ones). *)
Lemma FIRST_sets_fixed : first_step FIRST_sets = FIRST_sets.
Proof. vm_compute. reflexivity. Qed.

Lemma FOLLOW_sets_fixed : follow_step FOLLOW_sets = FOLLOW_sets.
Proof. vm_compute. reflexivity. Qed.



Lemma stored_get_production A t alpha :
  get_production A t = Some alpha -> In (A, t, alpha) stored.
Proof.
  unfold get_production, stored. intros H.
  destruct (assoc A PARSE_TABLE) as [r|] eqn:E; [|discriminate].
  apply assoc_In in E. apply assoc_In in H.
  apply in_flat_map. exists (A, r). split; [assumption|].
  apply in_map_iff. exists (t, alpha). auto.
Qed.









End Construction.

(** ** The parser: first facts *)

Section ParserFacts.

Import grammar parse_tree parser.

Lemma is_nonterminal_In s : is_nonterminal s = true <-> In s NONTERMINALS.
Proof. apply mem_In. Qed.

(** No nonterminal is a terminal, the end marker or epsilon. *)
Lemma nonterminal_not_terminal s :
  is_nonterminal s = true ->
  grammar.is_terminal s = false /\ String.eqb s "$" = false
  /\ String.eqb s EPSILON = false.
Proof.
  intros H. apply is_nonterminal_In in H.
  assert (Hall : forallb
            (fun s => negb (grammar.is_terminal s) && negb (String.eqb s "$")
                      && negb (String.eqb s EPSILON)) NONTERMINALS = true)
    by (vm_compute; reflexivity).
  rewrite forallb_forall in Hall. specialize (Hall s H).
  rewrite !andb_true_iff, !negb_true_iff in Hall. tauto.
Qed.

Lemma get_terminal_In tok : In (get_terminal tok) TERMINALS.
Proof.
  unfold get_terminal. apply mem_In. destruct (lexer.type tok); reflexivity.
Qed.

Lemma get_terminal_EOF tok :
  get_terminal tok = "$" <-> lexer.type tok = lexer.EOF.
Proof.
  unfold get_terminal.
  destruct (lexer.type tok); simpl; split; intros H; try reflexivity;
    discriminate H.
Qed.

(** More fuel does not change a result. *)
Lemma parse_loop_mono fuel fuel' root p r :
  parse_loop fuel root p = Some r -> fuel <= fuel' ->
  parse_loop fuel' root p = Some r.
Proof.
  revert fuel' p. induction fuel as [|fuel IH]; intros fuel' p H Hle;
    [discriminate|].
  destruct fuel' as [|fuel']; [lia|]. simpl in *.
  destruct (step root p); auto. apply IH; [assumption | lia].
Qed.

Lemma parse_loop_det fuel fuel' root p r r' :
  parse_loop fuel root p = Some r -> parse_loop fuel' root p = Some r' ->
  r = r'.
Proof.
  intros H H'. destruct (Nat.le_ge_cases fuel fuel') as [Hle|Hle].
  - eapply parse_loop_mono in H; [|exact Hle]. congruence.
  - eapply parse_loop_mono in H'; [|exact Hle]. congruence.
Qed.

Lemma parse_det fuel fuel' p r r' :
  parse fuel p = Some r -> parse fuel' p = Some r' -> r = r'.
Proof. apply parse_loop_det. Qed.

(** [parse] returns only with [accepted = True]. *)
Lemma parse_loop_returns_true fuel root p b t :
  parse_loop fuel root p = Some (inr (b, t)) -> b = true /\ t <> None.
Proof.
  revert p. induction fuel as [|fuel IH]; intros p H; [discriminate|].
  simpl in H. destruct (step root p) as [p'|acc tree|e] eqn:E.
  - eauto.
  - injection H as <- <-. split; [|discriminate].
    unfold step in E.
    destruct (stack p) as [|[top_symbol top_node] stack']; [discriminate|].
    destruct (current_token p); [|discriminate].
    repeat match type of E with
           | (if ?c then _ else _) = _ => destruct c
           | match ?c with _ => _ end = _ => destruct c
           end; congruence.
  - discriminate.
Qed.

End ParserFacts.

(** ** The scenario with a missing right-hand side *)

Section Scenario.

Import grammar parse_tree parser.

(** C9: the source [program t; begin x := end.] lexes to nine tokens, the
    table has no entry for (Expression, end), and the parser raises its
    no-production error for [Expression] under the lookahead [end], at
    the token [end]; no amount of fuel gives another result, and
    [parse_string] reports the failure. *)
Theorem C9_missing_rhs_no_production :
  lexer.tokenize "program t; begin x := end." = Some (inr missing_rhs_tokens)
  /\ get_production "Expression" "end" = None
  /\ parse 13 (new missing_rhs_tokens)
     = Some (inl (ParserError (NoProduction "Expression" "end")
                              (Some (lexer.mkToken lexer.END "end" 1 23))))
  /\ (forall fuel,
        parse fuel (new missing_rhs_tokens) = None
        \/ parse fuel (new missing_rhs_tokens)
           = Some (inl (ParserError (NoProduction "Expression" "end")
                          (Some (lexer.mkToken lexer.END "end" 1 23)))))
  /\ message (NoProduction "Expression" "end")
     = "No production for [Expression, end]"
  /\ parse_string 13 "program t; begin x := end." = Some (inr (false, None)).
Proof.
  assert (H13 : parse 13 (new missing_rhs_tokens)
     = Some (inl (ParserError (NoProduction "Expression" "end")
                              (Some (lexer.mkToken lexer.END "end" 1 23)))))
    by (vm_compute; reflexivity).
  split; [vm_compute; reflexivity|].
  split; [reflexivity|]. split; [exact H13|].
  split; [|split; vm_compute; reflexivity].
  intros fuel. destruct (parse fuel (new missing_rhs_tokens)) as [r|] eqn:E;
    [right | left; reflexivity].
  f_equal. eapply parse_det; eassumption.
Qed.

End Scenario.

(** ** Epsilon steps *)

Section Epsilon.

Import grammar parse_tree parser.

(** C5: a step that pops the epsilon marker, or that expands a nonterminal
    by its epsilon production, continues with the same tokens and the same
    cursor, hence the same lookahead token, and with the rest of the stack:
    the next stack symbol is processed against that token. *)
Theorem C5_epsilon_step_keeps_lookahead
    (root : nat) (p : LL1Parser) (top_symbol : string)
    (top_node : option nat) (stack' : list (string * option nat))
    (current : lexer.Token) :
  stack p = (top_symbol, top_node) :: stack' ->
  current_token p = Some current ->
  top_symbol = EPSILON
  \/ (is_nonterminal top_symbol = true
      /\ get_production top_symbol (get_terminal current) = Some [EPSILON]) ->
  exists p',
    step root p = Continue p'
    /\ tokens p' = tokens p /\ pos p' = pos p
    /\ current_token p' = Some current
    /\ stack p' = stack'.
Proof.
  intros Hs Hc Hcase. unfold step. rewrite Hs, Hc.
  destruct Hcase as [-> | [Hnt Hprod]].
  - change (String.eqb EPSILON "$") with false.
    change (grammar.is_terminal EPSILON && negb (String.eqb EPSILON EPSILON))
      with false.
    change (String.eqb EPSILON EPSILON) with true. cbn iota. simpl andb.
    cbn iota. eexists. split; [reflexivity|]. simpl. auto.
  - destruct (nonterminal_not_terminal _ Hnt) as (Ht & Hd & He).
    rewrite Ht, Hd, He, Hnt, Hprod. simpl.
    eexists. split; [reflexivity|]. simpl. auto.
Qed.

Lemma C5_epsilon_step_keeps_lookahead_witness :
  exists p',
    step 0 (mkParser [lexer.mkToken lexer.END "end" 1 1;
                      lexer.mkToken lexer.EOF "$" 1 4] 0
                     [("StmtListP", Some 0); ("end", None)]
                     [mkNode "StmtListP" "" []]) = Continue p'
    /\ tokens p' = [lexer.mkToken lexer.END "end" 1 1;
                    lexer.mkToken lexer.EOF "$" 1 4]
    /\ pos p' = 0
    /\ current_token p' = Some (lexer.mkToken lexer.END "end" 1 1)
    /\ stack p' = [("end", None)].
Proof.
  exact (C5_epsilon_step_keeps_lookahead 0
           (mkParser [lexer.mkToken lexer.END "end" 1 1;
                      lexer.mkToken lexer.EOF "$" 1 4] 0
                     [("StmtListP", Some 0); ("end", None)]
                     [mkNode "StmtListP" "" []])
           "StmtListP" (Some 0) [("end", None)]
           (lexer.mkToken lexer.END "end" 1 1)
           eq_refl eq_refl (or_intror (conj eq_refl eq_refl))).
Defined.

End Epsilon.

(** ** Termination of the parser *)

Section Termination.

Import grammar parse_tree parser measure control.

Lemma rank_seq_app r l1 l2 :
  rank_seq r (l1 ++ l2) =
  let '(n, b) := rank_seq r l1 in
  if b then (n, true)
  else let '(m, b') := rank_seq r l2 in (n + m, b').
Proof.
  induction l1 as [|X l1 IH]; simpl.
  - destruct (rank_seq r l2); reflexivity.
  - destruct (r X) as [n [|]]; [reflexivity|].
    rewrite IH. destruct (rank_seq r l1) as [m [|]]; [reflexivity|].
    destruct (rank_seq r l2) as [k b]. f_equal. lia.
Qed.

(** At [depth] the rank no longer depends on the fuel. *)
Lemma rank_stable t X :
  In t TERMINALS -> In X NONTERMINALS ->
  rank (S depth) t X = rank depth t X.
Proof.
  intros Ht HX.
  assert (Hall : forallb (fun t => forallb (fun X =>
      let '(n, b) := rank (S depth) t X in
      let '(m, c) := rank depth t X in
      (n =? m) && Bool.eqb b c) NONTERMINALS) TERMINALS = true)
    by (vm_compute; reflexivity).
  rewrite forallb_forall in Hall. specialize (Hall t Ht).
  rewrite forallb_forall in Hall. specialize (Hall X HX).
  destruct (rank (S depth) t X) as [n b], (rank depth t X) as [m c].
  apply andb_true_iff in Hall as [Hn Hb].
  apply Nat.eqb_eq in Hn. apply Bool.eqb_prop in Hb. congruence.
Qed.

Lemma rank_expand t X production :
  In t TERMINALS -> is_nonterminal X = true ->
  get_production X t = Some production ->
  list_string_eqb production [EPSILON] = false ->
  rank depth t X =
  let '(n, b) := rank_seq (rank depth t) production in (S n, b).
Proof.
  intros Ht HX Hp He. rewrite <- rank_stable;
    [|assumption|apply is_nonterminal_In; assumption].
  destruct (nonterminal_not_terminal _ HX) as (H1 & _ & H3).
  simpl. rewrite H1, H3, HX, Hp, He. reflexivity.
Qed.

Lemma last_lookup (toks : list lexer.Token) i tok :
  toks !! i = Some tok -> ~ i < length toks - 1 -> last toks = Some tok.
Proof.
  intros H Hn. pose proof (lookup_lt_Some _ _ _ H) as Hlt.
  rewrite last_lookup. replace (Nat.pred (length toks)) with i by lia.
  assumption.
Qed.

(** The current token is the last one when the cursor cannot advance. *)
Lemma current_token_last p tok :
  current_token p = Some tok -> ~ pos p < length (tokens p) - 1 ->
  last (tokens p) = Some tok.
Proof.
  unfold current_token. intros H Hn.
  destruct (pos p <? length (tokens p)) eqn:E; [|assumption].
  eapply last_lookup; eassumption.
Qed.

Lemma current_token_some p :
  eof_terminated (tokens p) -> exists tok, current_token p = Some tok.
Proof.
  intros (eof & Hl & _). unfold current_token.
  destruct (pos p <? length (tokens p)) eqn:E; [|eauto].
  apply Nat.ltb_lt in E. apply lookup_lt_is_Some_2 in E as [tok Htok]. eauto.
Qed.

Lemma advance_moves p tok :
  eof_terminated (tokens p) -> current_token p = Some tok ->
  get_terminal tok <> "$" ->
  advance p = mkParser (tokens p) (S (pos p)) (stack p) (heap p)
  /\ S (pos p) < length (tokens p).
Proof.
  intros (eof & Hl & He) Hc Hne. unfold advance.
  destruct (pos p <? length (tokens p) - 1) eqn:E.
  - apply Nat.ltb_lt in E. split; [reflexivity | lia].
  - apply Nat.ltb_ge in E. exfalso. apply Hne.
    apply get_terminal_EOF.
    assert (last (tokens p) = Some tok)
      by (apply current_token_last; [assumption | lia]).
    congruence.
Qed.

Lemma current_token_same_pos p p' :
  tokens p' = tokens p -> pos p' = pos p ->
  current_token p' = current_token p.
Proof. unfold current_token. intros -> ->. reflexivity. Qed.

Lemma push_all_symbols production child_nodes stk :
  length child_nodes = length production ->
  map fst (push_all production child_nodes stk) = production ++ map fst stk.
Proof.
  intros Hlen. unfold push_all. rewrite map_app. f_equal.
  rewrite fst_zip; [reflexivity|]. rewrite length_map. lia.
Qed.

Lemma make_children_length production top_node st :
  length (make_children production top_node st).2 = length production.
Proof.
  revert st. induction production as [|sym production IH]; intros st;
    simpl; [reflexivity|].
  destruct (make_children production top_node _) as [st3 cs] eqn:E.
  simpl. specialize (IH (attach top_node (length st)
                                (st ++ [mkNode sym "" []]))).
  rewrite E in IH. simpl in IH. lia.
Qed.

Lemma step_continue root p p' :
  eof_terminated (tokens p) ->
  step root p = Continue p' -> step_kind p p'.
Proof.
  intros Heof Hstep. unfold step in Hstep.
  destruct (stack p) as [|[top top_node] stack'] eqn:Hs; [discriminate|].
  destruct (current_token p) as [current|] eqn:Hc; [|discriminate].
  cbn [heap tokens pos stack] in Hstep.
  destruct (String.eqb top "$" && String.eqb (get_terminal current) "$")
    eqn:Hacc; [discriminate|].
  destruct (grammar.is_terminal top && negb (String.eqb top EPSILON))
    eqn:Hterm.
  - destruct (String.eqb top (get_terminal current)) eqn:Hm; [|discriminate].
    apply String.eqb_eq in Hm.
    assert (Hne : top <> "$").
    { intros ->. rewrite <- Hm in Hacc. discriminate Hacc. }
    injection Hstep as <-.
    set (q := mkParser _ _ _ _).
    assert (Hq : current_token q = Some current)
      by (rewrite <- Hc; apply current_token_same_pos; reflexivity).
    destruct (advance_moves q current Heof Hq) as [Ha Hlt];
      [congruence|].
    rewrite Ha. subst q. simpl in *.
    eapply step_match with (top := top) (current := current); simpl; auto.
    unfold symbols. rewrite Hs. reflexivity.
  - destruct (String.eqb top EPSILON) eqn:He.
    + injection Hstep as <-. apply String.eqb_eq in He.
      apply step_drop with (top := top) (current := current); simpl; auto.
      * unfold symbols. rewrite Hs. reflexivity.
      * subst top. discriminate.
    + destruct (is_nonterminal top) eqn:Hnt.
      * destruct (nonterminal_not_terminal _ Hnt) as (_ & Hd & _).
        assert (Hne : top <> "$")
          by (intros ->; discriminate Hd).
        destruct (get_production top (get_terminal current))
          as [production|] eqn:Hp; [|discriminate].
        destruct (list_string_eqb production [EPSILON]) eqn:Hpe.
        -- injection Hstep as <-. apply list_string_eqb_eq in Hpe.
           subst production.
           apply step_drop with (top := top) (current := current); simpl; auto.
           ++ unfold symbols. rewrite Hs. reflexivity.
        -- destruct (make_children production top_node (heap p))
             as [st child_nodes] eqn:Hmk.
           injection Hstep as <-.
           eapply step_expand with (top := top) (current := current)
                                   (production := production)
                                   (rest := map fst stack'); simpl; auto.
           ++ unfold symbols. rewrite Hs. reflexivity.
           ++ unfold symbols. simpl. apply push_all_symbols.
              pose proof (make_children_length production top_node (heap p))
                as Hl. rewrite Hmk in Hl. exact Hl.
      * injection Hstep as <-.
        assert (Ht : grammar.is_terminal top = false).
        { unfold grammar.is_terminal in *. rewrite He in *.
          rewrite orb_false_r in *. simpl in Hterm.
          rewrite andb_true_r in Hterm. exact Hterm. }
        apply step_drop with (top := top) (current := current); simpl; auto.
        -- unfold symbols. rewrite Hs. reflexivity.
        -- intros ->. discriminate Ht.
Qed.

Lemma rank_dropped t top :
  top = EPSILON
  \/ (is_nonterminal top = true /\ get_production top t = Some [EPSILON])
  \/ (grammar.is_terminal top = false /\ is_nonterminal top = false) ->
  rank depth t top = (1, false).
Proof.
  intros [-> | [[Hnt Hp] | [Ht Hnt]]].
  - reflexivity.
  - destruct (nonterminal_not_terminal _ Hnt) as (H1 & _ & H3).
    simpl. rewrite H1, H3, Hnt, Hp. reflexivity.
  - assert (He : String.eqb top EPSILON = false).
    { unfold grammar.is_terminal in Ht. apply orb_false_iff in Ht. tauto. }
    simpl. rewrite Ht, He, Hnt. reflexivity.
Qed.

Lemma rank_seq_cons r X l :
  rank_seq r (X :: l) =
  let '(n, b) := r X in
  if b then (n, true) else let '(m, b') := rank_seq r l in (n + m, b').
Proof. reflexivity. Qed.

(** Every continuing step consumes a token or lowers the potential. *)
Lemma step_kind_decreases p p' :
  step_kind p p' ->
  (pos p < pos p' /\ pos p' < length (tokens p'))
  \/ (pos p' = pos p /\ potential p' < potential p).
Proof.
  intros [top current Hs Hc Ht Hne Htok Hpos Hlt
         | top current Hs Hc Hne Hcase Htok Hpos
         | top current production rest Hs Hs' Hc Hnt Hp Hpe Htok Hpos].
  - left. rewrite Htok, Hpos. lia.
  - right. split; [assumption|]. unfold potential.
    rewrite (current_token_same_pos p p' Htok Hpos), Hc.
    fold (symbols p). fold (symbols p'). rewrite Hs, rank_seq_cons.
    rewrite (rank_dropped _ _ Hcase).
    destruct (rank_seq _ (symbols p')). simpl. lia.
  - right. split; [assumption|]. unfold potential.
    rewrite (current_token_same_pos p p' Htok Hpos), Hc.
    fold (symbols p). fold (symbols p'). rewrite Hs, Hs', rank_seq_cons.
    rewrite (rank_expand _ _ _ (get_terminal_In current) Hnt Hp Hpe).
    rewrite rank_seq_app.
    destruct (rank_seq _ production) as [n [|]]; simpl; [lia|].
    destruct (rank_seq _ rest). simpl. lia.
Qed.

Lemma step_kind_keeps_end_marker p p' :
  step_kind p p' -> In "$" (symbols p) -> In "$" (symbols p').
Proof.
  intros [top current Hs Hc Ht Hne Htok Hpos Hlt
         | top current Hs Hc Hne Hcase Htok Hpos
         | top current production rest Hs Hs' Hc Hnt Hp Hpe Htok Hpos];
    rewrite Hs; intros [E|H]; try congruence.
  - destruct (nonterminal_not_terminal _ Hnt) as (_ & Hd & _).
    subst top. discriminate Hd.
  - rewrite Hs'. apply in_or_app. auto.
Qed.

(** A step that raises, raises a mismatch or a missing production, as long
    as the end marker is on the stack. *)
Lemma step_raise root p e :
  eof_terminated (tokens p) -> In "$" (symbols p) ->
  step root p = Raise e ->
  raised_mismatch (inl e) \/ raised_no_production (inl e).
Proof.
  intros Heof Hin Hstep. unfold step in Hstep. unfold symbols in Hin.
  destruct (stack p) as [|[top top_node] stack'] eqn:Hs; [destruct Hin|].
  destruct (current_token_some p Heof) as [current Hc]. rewrite Hc in Hstep.
  cbn [heap tokens pos stack] in Hstep.
  repeat match type of Hstep with
         | (if ?c then _ else _) = _ => destruct c
         | match ?c with _ => _ end = _ => destruct c
         end; try discriminate; injection Hstep as <-.
  - left. do 3 eexists. reflexivity.
  - right. do 3 eexists. reflexivity.
Qed.

Lemma parse_loop_terminates root n :
  forall m p,
    length (tokens p) - pos p <= n -> potential p <= m ->
    eof_terminated (tokens p) -> In "$" (symbols p) ->
    exists fuel r,
      parse_loop fuel root p = Some r
      /\ (accepted r \/ raised_mismatch r \/ raised_no_production r).
Proof.
  induction n as [n IHn] using lt_wf_ind.
  induction m as [m IHm] using lt_wf_ind.
  intros p Hn Hm Heof Hin.
  destruct (step root p) as [p'|acc tree|e] eqn:Hstep.
  - pose proof (step_continue root p p' Heof Hstep) as Hk.
    assert (Htok : tokens p' = tokens p) by (destruct Hk; assumption).
    assert (Heof' : eof_terminated (tokens p')) by (rewrite Htok; exact Heof).
    pose proof (step_kind_keeps_end_marker _ _ Hk Hin) as Hin'.
    destruct (step_kind_decreases _ _ Hk) as [[Hlt Hlen] | [Hpos Hpot]].
    + destruct (IHn (length (tokens p') - pos p')
                    ltac:(rewrite Htok in *; lia)
                    (potential p') p' (Nat.le_refl _) (Nat.le_refl _)
                    Heof' Hin')
        as (fuel & r & Hr & Hgood).
      exists (S fuel), r. simpl. rewrite Hstep. auto.
    + destruct (IHm (potential p') ltac:(lia) p'
                    ltac:(rewrite Htok, Hpos; lia) (Nat.le_refl _)
                    Heof' Hin')
        as (fuel & r & Hr & Hgood).
      exists (S fuel), r. simpl. rewrite Hstep. auto.
  - exists 1, (inr (acc, Some tree)). simpl. rewrite Hstep.
    split; [reflexivity|]. left.
    assert (Hl : parse_loop 1 root p = Some (inr (acc, Some tree)))
      by (simpl; rewrite Hstep; reflexivity).
    apply parse_loop_returns_true in Hl as [-> _]. eexists. reflexivity.
  - exists 1, (inl e). simpl. rewrite Hstep. split; [reflexivity|].
    right. eapply step_raise; eassumption.
Qed.

Lemma parse_terminates toks :
  eof_terminated toks ->
  exists fuel r,
    parse fuel (new toks) = Some r
    /\ (accepted r \/ raised_mismatch r \/ raised_no_production r).
Proof.
  intros Heof. unfold parse.
  eapply parse_loop_terminates; try reflexivity; try exact Heof.
  simpl. auto.
Qed.

(** C4: on a token sequence that ends with an [EOF] token the loop of
    [parse] ends, after finitely many iterations, by accepting or by
    raising the mismatch or the no-production error; it never leaves the
    loop with an empty stack (the error raised after the loop), and more
    fuel gives the same result. *)
Theorem C4_parse_terminates (toks : list lexer.Token) :
  eof_terminated toks ->
  exists fuel r,
    (forall fuel', fuel <= fuel' -> parse fuel' (new toks) = Some r)
    /\ (accepted r \/ raised_mismatch r \/ raised_no_production r)
    /\ ~ raised_unexpected_end r.
Proof.
  intros Heof. destruct (parse_terminates toks Heof) as (fuel & r & Hr & Hg).
  exists fuel, r. split; [|split; [exact Hg|]].
  - intros fuel' Hle. eapply parse_loop_mono; eassumption.
  - intros [tok ->].
    destruct Hg as [[t E] | [(a & b & c & E) | (a & b & c & E)]];
      discriminate E.
Qed.

Lemma C4_parse_terminates_witness :
  exists fuel r,
    (forall fuel', fuel <= fuel' ->
                   parse fuel' (new missing_rhs_tokens) = Some r)
    /\ (accepted r \/ raised_mismatch r \/ raised_no_production r)
    /\ ~ raised_unexpected_end r.
Proof.
  apply (C4_parse_terminates missing_rhs_tokens).
  eexists. split; reflexivity.
Defined.

End Termination.

(** ** Programs without the closing [end .] *)

Section Closing.

Import grammar parse_tree parser measure control.

Lemma table_forall (P : string * string * list string -> bool) A t alpha :
  forallb P ll1.stored = true ->
  get_production A t = Some alpha -> P (A, t, alpha) = true.
Proof.
  intros Hall H. rewrite forallb_forall in Hall.
  apply Hall, stored_get_production, H.
Qed.

Lemma production_no_end_marker A t alpha :
  get_production A t = Some alpha -> ~ In "$" alpha.
Proof.
  intros H Hin.
  pose proof (table_forall (fun e => negb (mem "$" e.2)) A t alpha
                ltac:(vm_compute; reflexivity) H) as Hn.
  simpl in Hn. apply negb_true_iff in Hn.
  apply mem_In in Hin. congruence.
Qed.

Lemma production_Program t alpha :
  get_production "Program" t = Some alpha ->
  alpha = ["program"; "id"; ";"; "Block"; "."].
Proof.
  intros H.
  pose proof (table_forall
    (fun e => negb (String.eqb e.1.1 "Program")
              || list_string_eqb e.2 ["program"; "id"; ";"; "Block"; "."])
    _ _ _ ltac:(vm_compute; reflexivity) H) as Hc.
  simpl in Hc. apply list_string_eqb_eq in Hc. exact Hc.
Qed.

Lemma production_Block t alpha :
  get_production "Block" t = Some alpha ->
  alpha = ["Declarations"; "begin"; "StmtList"; "end"].
Proof.
  intros H.
  pose proof (table_forall
    (fun e => negb (String.eqb e.1.1 "Block")
              || list_string_eqb e.2
                   ["Declarations"; "begin"; "StmtList"; "end"])
    _ _ _ ltac:(vm_compute; reflexivity) H) as Hc.
  simpl in Hc. apply list_string_eqb_eq in Hc. exact Hc.
Qed.

Lemma current_token_lookup p tok :
  current_token p = Some tok -> pos p < length (tokens p) ->
  tokens p !! pos p = Some tok.
Proof.
  unfold current_token. intros H Hlt.
  apply Nat.ltb_lt in Hlt. rewrite Hlt in H. exact H.
Qed.

(** The cases in which the top of the stack is a given symbol [X] that is
    a terminal, or a nonterminal with known productions. *)
Ltac not_this_symbol :=
  match goal with
  | H : ?X = get_terminal ?c |- _ =>
      pose proof (get_terminal_In c) as Hin; rewrite <- H in Hin;
      apply mem_In in Hin; discriminate Hin
  | H : is_nonterminal _ = true |- _ => discriminate H
  | H : is_nonterminal _ = false |- _ => discriminate H
  | H : grammar.is_terminal _ = false |- _ => discriminate H
  | H : _ = EPSILON |- _ => discriminate H
  end.

Lemma closing_step p p' :
  step_kind p p' -> closing p -> closing p'.
Proof.
  intros Hk Hc.
  destruct Hc as [S tail Hs HS Htail | e Hs Hpos He Hte
                 | e d Hs Hpos He Hd Hte Htd].
  - destruct S as [|X S].
    + simpl in Hs.
      destruct Htail as [-> | [-> | ->]]; simpl in Hs;
      destruct Hk as [top current Hs' Hc Ht Hne Htok Hpos' Hlt
             | top current Hs' Hc Hne Hcase Htok Hpos'
             | top current production rest Hs' Hs'' Hc Hnt Hp Hpe Htok Hpos'];
        rewrite Hs in Hs'; injection Hs' as <- Hrest.
      * not_this_symbol.
      * destruct Hcase as [H | [[_ H] | [_ H]]]; try not_this_symbol.
        apply production_Program in H. discriminate H.
      * apply production_Program in Hp. subst production.
        rewrite <- Hrest in Hs''.
        apply closing_open with (S := ["program"; "id"; ";"])
                                (tail := ["Block"; "."]); auto.
        simpl. intros H. repeat destruct H as [H|H]; discriminate H || auto.
      * not_this_symbol.
      * destruct Hcase as [H | [[_ H] | [_ H]]]; try not_this_symbol.
        apply production_Block in H. discriminate H.
      * apply production_Block in Hp. subst production.
        rewrite <- Hrest in Hs''.
        apply closing_open with (S := ["Declarations"; "begin"; "StmtList"])
                                (tail := ["end"; "."]); auto.
        simpl. intros H. repeat destruct H as [H|H]; discriminate H || auto.
      * apply closing_dot with (e := current); auto.
        -- lia.
        -- rewrite Htok, Hpos'. simpl. rewrite Nat.sub_0_r.
           apply current_token_lookup; [assumption | lia].
      * destruct Hcase as [H | [[H _] | [H _]]]; not_this_symbol.
      * not_this_symbol.
    + simpl in Hs.
      assert (HS' : ~ In "$" S) by (intros H; apply HS; right; exact H).
      destruct Hk as [top current Hs' Hc Ht Hne Htok Hpos' Hlt
             | top current Hs' Hc Hne Hcase Htok Hpos'
             | top current production rest Hs' Hs'' Hc Hnt Hp Hpe Htok Hpos'];
        rewrite Hs in Hs'; injection Hs' as <- Hrest.
      * apply closing_open with (S := S) (tail := tail); auto.
      * apply closing_open with (S := S) (tail := tail); auto.
      * apply closing_open with (S := production ++ S) (tail := tail); auto.
        -- rewrite Hs'', <- Hrest, <- app_assoc. reflexivity.
        -- intros H. apply in_app_or in H as [H|H]; [|auto].
           eapply production_no_end_marker; eassumption.
  - destruct Hk as [top current Hs' Hc Ht Hne Htok Hpos' Hlt
           | top current Hs' Hc Hne Hcase Htok Hpos'
           | top current production rest Hs' Hs'' Hc Hnt Hp Hpe Htok Hpos'];
      rewrite Hs in Hs'; injection Hs' as <- Hrest.
    + apply closing_done with (e := e) (d := current); auto.
      * lia.
      * rewrite Htok, Hpos'. replace (S (pos p) - 2) with (pos p - 1) by lia.
        assumption.
      * rewrite Htok, Hpos'. simpl. rewrite Nat.sub_0_r.
        apply current_token_lookup; [assumption | lia].
    + destruct Hcase as [H | [[H _] | [H _]]]; not_this_symbol.
    + not_this_symbol.
  - destruct Hk as [top current Hs' Hc Ht Hne Htok Hpos' Hlt
           | top current Hs' Hc Hne Hcase Htok Hpos'
           | top current production rest Hs' Hs'' Hc Hnt Hp Hpe Htok Hpos'];
      rewrite Hs in Hs'; injection Hs' as <- Hrest; try congruence.
    not_this_symbol.
Qed.

Lemma step_return root p acc tree :
  step root p = Return acc tree ->
  exists current rest,
    symbols p = "$" :: rest /\ current_token p = Some current
    /\ get_terminal current = "$"
    /\ acc = true /\ tree = mkTree (heap p) (Some root).
Proof.
  unfold step, symbols. intros H.
  destruct (stack p) as [|[top top_node] stack'] eqn:Hs; [discriminate|].
  destruct (current_token p) as [current|] eqn:Hc; [|discriminate].
  cbn [heap tokens pos stack] in H.
  destruct (String.eqb top "$" && String.eqb (get_terminal current) "$")
    eqn:Hacc.
  - apply andb_true_iff in Hacc as [H1 H2].
    apply String.eqb_eq in H1, H2. injection H as <- <-. subst top.
    exists current, (map fst stack'). auto.
  - repeat match type of H with
           | (if ?c then _ else _) = _ => destruct c
           | match ?c with _ => _ end = _ => destruct c
           end; discriminate.
Qed.

Lemma accept_after_end_dot root fuel :
  forall p b t,
    eof_terminated (tokens p) -> closing p -> pos p < length (tokens p) ->
    parse_loop fuel root p = Some (inr (b, t)) ->
    exists i e d z,
      tokens p !! i = Some e /\ tokens p !! S i = Some d
      /\ tokens p !! S (S i) = Some z
      /\ get_terminal e = "end" /\ get_terminal d = "."
      /\ get_terminal z = "$".
Proof.
  induction fuel as [|fuel IH]; intros p b t Heof Hc Hlt H; [discriminate|].
  simpl in H. destruct (step root p) as [p'|acc tree|e] eqn:Hstep.
  - pose proof (step_continue root p p' Heof Hstep) as Hk.
    assert (Htok : tokens p' = tokens p) by (destruct Hk; assumption).
    rewrite <- Htok. eapply IH; [| |  |exact H].
    + rewrite Htok; exact Heof.
    + eapply closing_step; eassumption.
    + rewrite Htok. destruct Hk; lia.
  - apply step_return in Hstep
      as (current & rest & Hs & Hcur & Ht & _ & _).
    destruct Hc as [S tail Hs' HS Htail | e Hs' Hpos He Hte
                   | e d Hs' Hpos He Hd Hte Htd]; rewrite Hs in Hs'.
    + destruct S as [|X S].
      * destruct Htail as [-> | [-> | ->]]; discriminate Hs'.
      * injection Hs' as <- _. exfalso. apply HS. left; reflexivity.
    + discriminate Hs'.
    + exists (pos p - 2), e, d, current.
      replace (S (pos p - 2)) with (pos p - 1) by lia.
      replace (S (pos p - 1)) with (pos p) by lia.
      repeat split; auto. apply current_token_lookup; assumption.
  - discriminate.
Qed.

Lemma split_last_two {A : Type} (l : list A) i e d :
  l !! i = Some e -> l !! S i = Some d -> length l = S (S i) ->
  l = take i l ++ [e; d].
Proof.
  intros He Hd Hlen. rewrite <- (take_drop i l) at 1. f_equal.
  apply list_eq. intros j. rewrite lookup_drop.
  destruct j as [|[|j]]; simpl.
  - rewrite Nat.add_0_r. exact He.
  - replace (i + 1) with (S i) by lia. exact Hd.
  - apply lookup_ge_None. lia.
Qed.

Lemma eof_terminated_app body eof :
  lexer.type eof = lexer.EOF -> eof_terminated (body ++ [eof]).
Proof. intros H. exists eof. rewrite last_snoc. auto. Qed.

(** An accepted token sequence ends with [end . EOF]. *)
Lemma accepted_ends_with_end_dot body eof fuel b t :
  lexer.type eof = lexer.EOF ->
  Forall (fun tok => lexer.type tok <> lexer.EOF) body ->
  parse fuel (new (body ++ [eof])) = Some (inr (b, t)) ->
  ends_with_end_dot body.
Proof.
  intros Heof Hbody H. unfold parse in H.
  apply accept_after_end_dot in H
    as (i & e & d & z & He & Hd & Hz & Hte & Htd & Htz).
  - simpl in He, Hd, Hz. apply get_terminal_EOF in Htz.
    assert (Hi : S (S i) = length body).
    { destruct (Nat.lt_ge_cases (S (S i)) (length body)) as [Hlt|Hge].
      - rewrite lookup_app_l in Hz by assumption.
        rewrite Forall_forall in Hbody. exfalso.
        apply (Hbody z); [|assumption].
        apply list_elem_of_lookup. eauto.
      - apply lookup_lt_Some in Hz. rewrite length_app in Hz. simpl in Hz.
        lia. }
    rewrite lookup_app_l in He, Hd by lia.
    exists (take i body), e, d. split; [|split].
    + apply split_last_two; auto.
    + unfold get_terminal in Hte. destruct (lexer.type e); try discriminate.
      reflexivity.
    + unfold get_terminal in Htd. destruct (lexer.type d); try discriminate.
      reflexivity.
  - simpl. apply eof_terminated_app, Heof.
  - apply closing_open with (S := []) (tail := ["Program"]); auto.
  - simpl. rewrite length_app. simpl. lia.
Qed.

Lemma no_end_dot_raises :
  lexer.tokenize "program t; begin x := 1" = Some (inr no_end_dot_tokens)
  /\ parse 30 (new no_end_dot_tokens)
     = Some (inl (ParserError (NoProduction "TermP" "$")
                    (Some (lexer.mkToken lexer.EOF "$" 1 24)))).
Proof. split; vm_compute; reflexivity. Qed.

Lemma no_end_raises :
  lexer.tokenize "program t; begin x := 1 ." = Some (inr no_end_tokens)
  /\ parse 30 (new no_end_tokens)
     = Some (inl (ParserError (NoProduction "TermP" ".")
                    (Some (lexer.mkToken lexer.DOT "." 1 25)))).
Proof. split; vm_compute; reflexivity. Qed.

Lemma no_end_body_open : ~ ends_with_end_dot no_end_body.
Proof.
  intros (pre & e & d & Hb & He & Hd).
  assert (Hl : no_end_body !! 6 = Some e).
  { assert (Hlen : length pre = 6).
    { apply (f_equal length) in Hb. rewrite length_app in Hb.
      simpl in Hb. lia. }
    rewrite Hb, lookup_app_r by lia. rewrite Hlen. reflexivity. }
  injection Hl as <-. discriminate He.
Qed.

(** C3, as stated, fails at the tokens of [program t; begin x := 1 .],
    which lacks the closing [end]: the parser raises the no-production
    error for (TermP, .), which is neither a terminal mismatch nor the
    error raised after the loop.  (For [program t; begin x := 1], without
    [end] and without the dot, it raises the no-production error for
    (TermP, $): lemma [no_end_dot_raises].) *)
Lemma C3_missing_end_raises_no_production : ~ rejected_by_mismatch_or_end.
Proof.
  intros Hclaim.
  destruct (Hclaim no_end_body (lexer.mkToken lexer.EOF "$" 1 26))
    as (fuel & r & Hr & Hkind).
  - reflexivity.
  - repeat constructor; discriminate.
  - exact no_end_body_open.
  - pose proof (parse_det _ _ _ _ _ Hr (proj2 no_end_raises)) as ->.
    destruct Hkind as [(a & b & c & E) | (c & E)]; discriminate E.
Qed.

(** C3, amended: on a token sequence of non-[EOF] tokens followed by one
    [EOF] token, whose last two tokens before [EOF] are not [end] and [.],
    [parse] never returns accepted = true: it ends by raising a terminal
    mismatch or a no-production error. *)
Theorem C3_missing_end_dot_rejected
    (body : list lexer.Token) (eof : lexer.Token) :
  lexer.type eof = lexer.EOF ->
  Forall (fun tok => lexer.type tok <> lexer.EOF) body ->
  ~ ends_with_end_dot body ->
  exists fuel r,
    (forall fuel', fuel <= fuel' ->
                   parse fuel' (new (body ++ [eof])) = Some r)
    /\ (raised_mismatch r \/ raised_no_production r)
    /\ ~ accepted r.
Proof.
  intros Heof Hbody Hend.
  destruct (parse_terminates (body ++ [eof]) (eof_terminated_app _ _ Heof))
    as (fuel & r & Hr & Hg).
  assert (Hna : ~ accepted r).
  { intros [tree ->]. apply Hend.
    eapply accepted_ends_with_end_dot; eassumption. }
  exists fuel, r. split; [|split; [tauto | exact Hna]].
  intros fuel' Hle. eapply parse_loop_mono; eassumption.
Qed.

Lemma C3_missing_end_dot_rejected_witness :
  exists fuel r,
    (forall fuel', fuel <= fuel' ->
                   parse fuel' (new no_end_dot_tokens) = Some r)
    /\ (raised_mismatch r \/ raised_no_production r)
    /\ ~ accepted r.
Proof.
  apply (C3_missing_end_dot_rejected no_end_dot_body
           (lexer.mkToken lexer.EOF "$" 1 24)).
  - reflexivity.
  - repeat constructor; discriminate.
  - intros (pre & e & d & Hb & He & Hd).
    assert (Hl : last no_end_dot_body = Some d)
      by (rewrite Hb; change [e; d] with ([e] ++ [d]);
          rewrite app_assoc, last_snoc; reflexivity).
    injection Hl as <-. discriminate Hd.
Defined.

End Closing.

(** ** The lexer: positions, loops and progress *)

Section LexerFacts.

Import lexer scan.

Local Arguments Ascii.eqb : simpl never.

Lemma get_ge s i : String.length s <= i -> String.get i s = None.
Proof.
  revert i. induction s as [|c s IH]; intros i H; simpl; [reflexivity|].
  destruct i as [|i]; simpl in H; [lia|]. apply IH. lia.
Qed.

Lemma get_lt s i : i < String.length s -> exists c, String.get i s = Some c.
Proof.
  revert i. induction s as [|c s IH]; intros i H; simpl in *; [lia|].
  destruct i as [|i]; [eauto|]. apply IH. lia.
Qed.

Lemma get_Some_lt s i c : String.get i s = Some c -> i < String.length s.
Proof.
  intros H. destruct (Nat.lt_ge_cases i (String.length s)) as [Hlt|Hge];
    [assumption|]. rewrite get_ge in H by assumption. discriminate.
Qed.

Lemma append_cons c s t : String c s +:+ t = String c (s +:+ t).
Proof. reflexivity. Qed.

Lemma append_nil_l s : EmptyString +:+ s = s.
Proof. reflexivity. Qed.

Lemma length_append s1 s2 :
  String.length (s1 +:+ s2) = String.length s1 + String.length s2.
Proof.
  induction s1 as [|c s1 IH]; [reflexivity|].
  rewrite append_cons. simpl. f_equal. exact IH.
Qed.

Lemma append_assoc s1 s2 s3 : (s1 +:+ s2) +:+ s3 = s1 +:+ (s2 +:+ s3).
Proof.
  induction s1 as [|c s1 IH]; [reflexivity|].
  rewrite !append_cons. f_equal. exact IH.
Qed.

Lemma append_nil_r s : s +:+ EmptyString = s.
Proof.
  induction s as [|c s IH]; [reflexivity|].
  rewrite append_cons. f_equal. exact IH.
Qed.

Lemma get_append_r s1 s2 i :
  String.get (String.length s1 + i) (s1 +:+ s2) = String.get i s2.
Proof. rewrite Nat.add_comm. symmetry. apply append_correct2. Qed.

Lemma is_char_Some a c : is_char a (Some c) = Ascii.eqb c a.
Proof. apply Ascii.eqb_sym. Qed.

Lemma current_char_remaining lx c :
  current_char lx = Some c -> 0 < remaining lx.
Proof. unfold current_char, remaining. intros H. apply get_Some_lt in H. lia. Qed.

Lemma current_char_end lx : remaining lx = 0 -> current_char lx = None.
Proof. unfold current_char, remaining. intros H. apply get_ge. lia. Qed.

Lemma advance_source lx : source (advance lx) = source lx.
Proof.
  unfold advance. destruct (current_char lx) as [c|];
    [destruct (Ascii.eqb c newline)|]; reflexivity.
Qed.

Lemma advance_pos lx : pos (advance lx) = S (pos lx).
Proof.
  unfold advance. destruct (current_char lx) as [c|];
    [destruct (Ascii.eqb c newline)|]; reflexivity.
Qed.

Lemma advance_tokens lx : tokens (advance lx) = tokens lx.
Proof.
  unfold advance. destruct (current_char lx) as [c|];
    [destruct (Ascii.eqb c newline)|]; reflexivity.
Qed.

Lemma later_refl lx : later lx lx.
Proof. unfold later. auto. Qed.

Lemma later_trans a b c : later a b -> later b c -> later a c.
Proof. unfold later. intros (?&?&?) (?&?&?). repeat split; try congruence. lia. Qed.

Lemma later_advance lx : later lx (advance lx).
Proof.
  unfold later. rewrite advance_source, advance_tokens, advance_pos. auto.
Qed.

Lemma skip_while_later p fuel lx : later lx (skip_while p fuel lx).
Proof.
  revert lx. induction fuel as [|fuel IH]; intros lx; simpl;
    [apply later_refl|].
  destruct (holds p (current_char lx)); [|apply later_refl].
  eapply later_trans; [apply later_advance | apply IH].
Qed.

Lemma skip_star_comment_later fuel lx : later lx (skip_star_comment fuel lx).
Proof.
  revert lx. induction fuel as [|fuel IH]; intros lx; simpl;
    [apply later_refl|].
  destruct (current_char lx) as [c|]; [|apply later_refl].
  destruct (Ascii.eqb c "*" && is_char ")" (peek lx)).
  - eapply later_trans; apply later_advance.
  - eapply later_trans; [apply later_advance | apply IH].
Qed.

Lemma read_run_later p fuel lx r : later lx (read_run p fuel lx r).1.
Proof.
  revert lx r. induction fuel as [|fuel IH]; intros lx r; simpl;
    [apply later_refl|].
  destruct (current_char lx) as [c|]; [|apply later_refl].
  destruct (p c); [|apply later_refl].
  eapply later_trans; [apply later_advance | apply IH].
Qed.

(** A loop that starts on a character of its class takes it. *)
Lemma skip_while_first p lx c :
  current_char lx = Some c -> p c = true ->
  later (advance lx) (skip_while p (remaining lx) lx).
Proof.
  intros Hc Hp. pose proof (current_char_remaining _ _ Hc) as Hr.
  destruct (remaining lx) as [|fuel]; [lia|]. simpl. rewrite Hc. simpl.
  rewrite Hp. apply skip_while_later.
Qed.

Lemma read_run_first p lx c r :
  current_char lx = Some c -> p c = true ->
  later (advance lx) (read_run p (remaining lx) lx r).1.
Proof.
  intros Hc Hp. pose proof (current_char_remaining _ _ Hc) as Hr.
  destruct (remaining lx) as [|fuel]; [lia|]. simpl. rewrite Hc, Hp.
  apply read_run_later.
Qed.

Lemma skip_comment_first lx c :
  current_char lx = Some c ->
  Ascii.eqb c "{" || (Ascii.eqb c "(" && is_char "*" (peek lx)) = true ->
  later (advance lx) (skip_comment lx).
Proof.
  intros Hc H. unfold skip_comment. rewrite Hc, !is_char_Some.
  destruct (Ascii.eqb c "{") eqn:E1.
  - match goal with
    | |- later _ (if is_char _ (current_char ?l) then _ else _) =>
        assert (Hl : later (advance lx) l) by apply skip_while_later;
        destruct (is_char "}" (current_char l))
    end; [|exact Hl].
    eapply later_trans; [exact Hl | apply later_advance].
  - simpl in H. rewrite H.
    eapply later_trans; [apply later_advance | apply skip_star_comment_later].
Qed.

Lemma isalpha_isalnum c : isalpha c = true -> isalnum c = true.
Proof. unfold isalnum. intros ->. reflexivity. Qed.

Lemma keyword_not_EOF s kw : assoc s KEYWORDS = Some kw -> kw <> EOF.
Proof.
  intros H. apply assoc_In in H. simpl in H.
  repeat destruct H as [H|H]; try (injection H as _ <-; discriminate).
  destruct H.
Qed.

Lemma single_char_token_not_EOF c ty v :
  single_char_token c = Some (ty, v) -> ty <> EOF.
Proof.
  unfold single_char_token.
  repeat match goal with
         | |- (if ?b then _ else _) = _ -> _ => destruct b
         end; intros [= <- <-] || intros [=]; discriminate.
Qed.

(** One iteration of the main loop moves forward and appends at most one
    token, which is not [EOF]. *)
Lemma tokenize_body_progress c lx lx' :
  current_char lx = Some c -> tokenize_body c lx = inr lx' ->
  source lx' = source lx /\ pos lx < pos lx'
  /\ (tokens lx' = tokens lx
      \/ exists t, tokens lx' = tokens lx ++ [t] /\ type t <> EOF).
Proof.
  intros Hc. unfold tokenize_body.
  assert (Hadv : forall l, later (advance lx) l ->
            source l = source lx /\ pos lx < pos l /\ tokens l = tokens lx).
  { intros l (H1 & H2 & H3).
    rewrite advance_source in H1. rewrite advance_tokens in H2.
    rewrite advance_pos in H3. repeat split; auto. }
  assert (Hpush : forall l t, later (advance lx) l -> type t <> EOF ->
            source (push t l) = source lx /\ pos lx < pos (push t l)
            /\ (tokens (push t l) = tokens lx
                \/ exists t', tokens (push t l) = tokens lx ++ [t']
                              /\ type t' <> EOF)).
  { intros l t Hl Ht. destruct (Hadv l Hl) as (H1 & H2 & H3).
    simpl. repeat split; auto. right. exists t. rewrite H3. auto. }
  assert (Haa : later (advance lx) (advance (advance lx)))
    by apply later_advance.
  destruct (isspace c) eqn:Hsp.
  { intros [= <-]. destruct (Hadv _ (skip_while_first _ _ _ Hc Hsp))
      as (H1 & H2 & H3). auto. }
  destruct (Ascii.eqb c "{" || (Ascii.eqb c "(" && is_char "*" (peek lx)))
    eqn:Hcm.
  { intros [= <-]. destruct (Hadv _ (skip_comment_first _ _ Hc Hcm))
      as (H1 & H2 & H3). auto. }
  destruct (isdigit c) eqn:Hd.
  { unfold read_number.
    destruct (read_run isdigit (remaining lx) lx "") as [lx1 r1] eqn:E1.
    assert (H1 : later (advance lx) lx1).
    { pose proof (read_run_first isdigit lx c "" Hc Hd) as H.
      rewrite E1 in H. exact H. }
    destruct (is_char "." (current_char lx1) && holds isdigit (peek lx1)).
    - destruct (read_run isdigit _ (advance lx1) _) as [lx2 r2] eqn:E2.
      intros [= <-]. apply Hpush; [|discriminate].
      eapply later_trans; [exact H1|].
      eapply later_trans; [apply later_advance|].
      pose proof (read_run_later isdigit (remaining (advance lx1))
                    (advance lx1) (r1 +:+ ".")) as H.
      rewrite E2 in H. exact H.
    - intros [= <-]. apply Hpush; [exact H1 | discriminate]. }
  destruct (isalpha c || Ascii.eqb c "_") eqn:Ha.
  { unfold read_identifier.
    destruct (read_run _ (remaining lx) lx "") as [lx1 r1] eqn:E1.
    assert (H1 : later (advance lx) lx1).
    { pose proof (read_run_first (fun c => isalnum c || Ascii.eqb c "_")
                    lx c "" Hc) as H.
      rewrite E1 in H. apply H.
      apply orb_true_iff in Ha as [Ha|Ha];
        [rewrite (isalpha_isalnum _ Ha) | rewrite Ha, orb_true_r];
        reflexivity. }
    destruct (assoc (lower r1) KEYWORDS) as [kw|] eqn:Ek.
    - intros [= <-]. apply Hpush; [exact H1|]. simpl.
      eapply keyword_not_EOF; eassumption.
    - intros [= <-]. apply Hpush; [exact H1 | discriminate]. }
  repeat match goal with
         | |- (if ?b then _ else _) = _ -> _ => destruct b
         end;
    try (intros [= <-]; apply Hpush; [exact Haa | discriminate]).
  destruct (single_char_token c) as [[ty v]|] eqn:Es; [|discriminate].
  intros [= <-]. apply Hpush; [apply later_refl|]. simpl.
  eapply single_char_token_not_EOF; eassumption.
Qed.

(** [tokenize] never runs out of fuel. *)
Lemma tokenize_loop_total fuel lx :
  remaining lx <= fuel -> exists r, tokenize_loop fuel lx = Some r.
Proof.
  revert lx. induction fuel as [|fuel IH]; intros lx Hr.
  - simpl. rewrite current_char_end by lia. eauto.
  - simpl. destruct (current_char lx) as [c|] eqn:Hc; [|eauto].
    destruct (tokenize_body c lx) as [e|lx'] eqn:Hb; [eauto|].
    apply IH. destruct (tokenize_body_progress _ _ _ Hc Hb) as (H1 & H2 & _).
    unfold remaining in *. rewrite H1. lia.
Qed.

Lemma tokenize_total src : exists r, tokenize src = Some r.
Proof. apply tokenize_loop_total. unfold remaining. simpl. lia. Qed.

Lemma tokenize_loop_mono fuel fuel' lx r :
  tokenize_loop fuel lx = Some r -> fuel <= fuel' ->
  tokenize_loop fuel' lx = Some r.
Proof.
  revert fuel' lx. induction fuel as [|fuel IH]; intros fuel' lx H Hle.
  - simpl in H. destruct fuel'; simpl;
      destruct (current_char lx); congruence.
  - destruct fuel' as [|fuel']; [lia|]. simpl in *.
    destruct (current_char lx) as [c|]; [|assumption].
    destruct (tokenize_body c lx); [assumption|]. apply IH; [assumption|lia].
Qed.

(** The tokens that [tokenize] returns: tokens other than [EOF], then one
    [EOF] token. *)
Lemma tokenize_loop_shape fuel lx toks :
  Forall (fun t => type t <> EOF) (tokens lx) ->
  tokenize_loop fuel lx = Some (inr toks) ->
  exists body eof,
    toks = body ++ [eof] /\ type eof = EOF
    /\ Forall (fun t => type t <> EOF) body.
Proof.
  revert lx. induction fuel as [|fuel IH]; intros lx Hall H; simpl in H.
  - destruct (current_char lx); [discriminate|]. injection H as <-. eauto.
  - destruct (current_char lx) as [c|] eqn:Hc;
      [|injection H as <-; eauto].
    destruct (tokenize_body c lx) as [e|lx'] eqn:Hb; [discriminate|].
    apply (IH lx'); [|assumption].
    destruct (tokenize_body_progress _ _ _ Hc Hb)
      as (_ & _ & [-> | (t & -> & Ht)]); [assumption|].
    apply Forall_app. split; [assumption|]. constructor; [assumption|constructor].
Qed.

Lemma tokenize_shape src toks :
  tokenize src = Some (inr toks) ->
  exists body eof,
    toks = body ++ [eof] /\ type eof = EOF
    /\ Forall (fun t => type t <> EOF) body.
Proof. apply tokenize_loop_shape. constructor. Qed.

End LexerFacts.

(** ** The lexer: runs of characters *)

Section LexerRuns.

Import lexer scan.

Local Arguments Ascii.eqb : simpl never.

Lemma moved_0 lx : moved lx 0 = lx.
Proof. destruct lx. unfold moved. simpl. rewrite !Nat.add_0_r. reflexivity. Qed.

Lemma moved_moved lx n m : moved (moved lx n) m = moved lx (n + m).
Proof. unfold moved. simpl. f_equal; lia. Qed.

Lemma at_text_current lx pre suf :
  at_text lx pre suf -> current_char lx = String.get 0 suf.
Proof.
  intros [Hs Hp]. unfold current_char. rewrite Hs, Hp.
  rewrite <- (Nat.add_0_r (String.length pre)). apply get_append_r.
Qed.

Lemma at_text_peek lx pre suf :
  at_text lx pre suf -> peek lx = String.get 1 suf.
Proof.
  intros [Hs Hp]. unfold peek. rewrite Hs, Hp. apply get_append_r.
Qed.

Lemma advance_moved lx c :
  current_char lx = Some c -> c <> newline -> advance lx = moved lx 1.
Proof.
  intros Hc Hn. unfold advance, moved. rewrite Hc.
  apply Ascii.eqb_neq in Hn. rewrite Hn. f_equal; lia.
Qed.

Lemma at_text_moved lx pre c suf :
  at_text lx pre (String c suf) ->
  at_text (moved lx 1) (pre +:+ String c EmptyString) suf.
Proof.
  intros [Hs Hp]. split; simpl.
  - rewrite Hs, append_assoc. reflexivity.
  - rewrite Hp, length_append. reflexivity.
Qed.

Lemma at_text_moved_run lx pre run suf :
  at_text lx pre (run +:+ suf) ->
  at_text (moved lx (String.length run)) (pre +:+ run) suf.
Proof.
  intros [Hs Hp]. split; simpl.
  - rewrite Hs, append_assoc. reflexivity.
  - rewrite Hp, length_append. reflexivity.
Qed.

(** The loop [read_run p] reads a run of characters of the class [p] up to
    a character that is not of the class, or up to the end. *)
Lemma read_run_spec p run :
  p newline = false ->
  forall fuel lx pre suf r,
    string_forall p run = true -> starts_with p suf = false ->
    at_text lx pre (run +:+ suf) -> String.length run <= fuel ->
    read_run p fuel lx r = (moved lx (String.length run), r +:+ run).
Proof.
  intros Hnl. induction run as [|c run IH]; intros fuel lx pre suf r Hall Hsuf Hat Hf.
  - rewrite append_nil_r, moved_0. rewrite append_nil_l in Hat.
    destruct fuel as [|fuel]; [reflexivity|]. simpl.
    rewrite (at_text_current _ _ _ Hat).
    unfold starts_with, holds in Hsuf.
    destruct (String.get 0 suf) as [d|]; [rewrite Hsuf|]; reflexivity.
  - simpl in Hall. apply andb_true_iff in Hall as [Hc Hall].
    rewrite append_cons in Hat.
    pose proof (at_text_current _ _ _ Hat) as Hcur. simpl in Hcur.
    destruct fuel as [|fuel]; [simpl in Hf; lia|]. simpl. rewrite Hcur, Hc.
    assert (Hne : c <> newline) by (intros ->; congruence).
    rewrite (advance_moved _ _ Hcur Hne).
    rewrite (IH fuel (moved lx 1) (pre +:+ String c EmptyString) suf);
      auto.
    + rewrite moved_moved, append_assoc. reflexivity.
    + apply at_text_moved. exact Hat.
    + simpl in Hf. lia.
Qed.

Lemma at_text_remaining lx pre suf :
  at_text lx pre suf -> remaining lx = String.length suf.
Proof.
  intros [Hs Hp]. unfold remaining. rewrite Hs, Hp, length_append. lia.
Qed.

Lemma isdigit_newline : isdigit newline = false.
Proof. reflexivity. Qed.

Lemma isspace_isdigit c : isdigit c = true -> isspace c = false.
Proof. destruct c as [[] [] [] [] [] [] [] []]; vm_compute; congruence. Qed.

Lemma isspace_isalpha c :
  isalpha c || Ascii.eqb c "_" = true -> isspace c = false.
Proof. destruct c as [[] [] [] [] [] [] [] []]; vm_compute; congruence. Qed.

Lemma isdigit_isalpha c :
  isalpha c || Ascii.eqb c "_" = true -> isdigit c = false.
Proof. destruct c as [[] [] [] [] [] [] [] []]; vm_compute; congruence. Qed.

Lemma not_comment_isdigit c : isdigit c = true ->
  Ascii.eqb c "{" = false /\ Ascii.eqb c "(" = false.
Proof. destruct c as [[] [] [] [] [] [] [] []]; vm_compute; intuition congruence. Qed.

Lemma not_comment_isalpha c : isalpha c || Ascii.eqb c "_" = true ->
  Ascii.eqb c "{" = false /\ Ascii.eqb c "(" = false.
Proof. destruct c as [[] [] [] [] [] [] [] []]; vm_compute; intuition congruence. Qed.

Lemma string_forall_digits s : digits s = true -> string_forall isdigit s = true.
Proof. unfold digits. intros H. apply andb_true_iff in H. tauto. Qed.

Lemma digits_starts s t : digits s = true -> starts_with isdigit (s +:+ t) = true.
Proof.
  unfold digits. destruct s as [|c s]; [discriminate|].
  simpl. intros H. apply andb_true_iff in H. tauto.
Qed.

(** [read_number] on a digit run, a dot and a second digit run. *)
Lemma read_number_real lx pre d1 d2 rest :
  at_text lx pre (d1 +:+ "." +:+ d2 +:+ rest) ->
  string_forall isdigit d1 = true -> digits d2 = true ->
  starts_with isdigit rest = false ->
  read_number lx =
  (moved lx (String.length d1 + 1 + String.length d2),
   mkToken NUM (d1 +:+ "." +:+ d2) (cur_line lx) (cur_column lx)).
Proof.
  intros Hat H1 H2 Hr. unfold read_number.
  rewrite (read_run_spec isdigit d1 isdigit_newline _ lx pre
             ("." +:+ d2 +:+ rest) EmptyString H1 eq_refl Hat).
  2:{ rewrite (at_text_remaining _ _ _ Hat), length_append. lia. }
  rewrite append_nil_l.
  pose proof (at_text_moved_run _ _ _ _ Hat) as Hat1.
  set (lx1 := moved lx (String.length d1)) in *.
  rewrite (at_text_current _ _ _ Hat1), (at_text_peek _ _ _ Hat1).
  change (String.get 0 ("." +:+ d2 +:+ rest)) with (Some "."%char).
  change (String.get 1 ("." +:+ d2 +:+ rest))
    with (String.get 0 (d2 +:+ rest)).
  pose proof (digits_starts d2 rest H2) as Hst. unfold starts_with in Hst.
  rewrite Hst. change (is_char "." (Some "."%char) && true) with true.
  cbn iota.
  assert (Hadv : advance lx1 = moved lx1 1).
  { apply advance_moved with (c := "."%char);
      [apply (at_text_current _ _ _ Hat1) | discriminate]. }
  rewrite Hadv.
  assert (Hat2 : at_text (moved lx1 1) (pre +:+ d1 +:+ ".") (d2 +:+ rest)).
  { rewrite <- append_assoc. apply at_text_moved. exact Hat1. }
  rewrite (read_run_spec isdigit d2 isdigit_newline _ (moved lx1 1) _ rest
             (d1 +:+ ".") (string_forall_digits _ H2) Hr Hat2).
  2:{ rewrite (at_text_remaining _ _ _ Hat2), length_append. lia. }
  subst lx1. rewrite !moved_moved, append_assoc, Nat.add_assoc. reflexivity.
Qed.

(** [read_number] on a digit run that is not followed by a dot and a
    digit. *)
Lemma read_number_integer lx pre d1 suf :
  at_text lx pre (d1 +:+ suf) ->
  string_forall isdigit d1 = true -> starts_with isdigit suf = false ->
  is_char "." (String.get 0 suf) && holds isdigit (String.get 1 suf)
  = false ->
  read_number lx =
  (moved lx (String.length d1),
   mkToken NUM d1 (cur_line lx) (cur_column lx)).
Proof.
  intros Hat H1 Hs Hdot. unfold read_number.
  rewrite (read_run_spec isdigit d1 isdigit_newline _ lx pre suf
             EmptyString H1 Hs Hat).
  2:{ rewrite (at_text_remaining _ _ _ Hat), length_append. lia. }
  rewrite append_nil_l.
  pose proof (at_text_moved_run _ _ _ _ Hat) as Hat1.
  rewrite (at_text_current _ _ _ Hat1), (at_text_peek _ _ _ Hat1), Hdot.
  reflexivity.
Qed.

Lemma tokenize_body_digit c lx :
  isdigit c = true ->
  tokenize_body c lx = inr (push (read_number lx).2 (read_number lx).1).
Proof.
  intros Hd. unfold tokenize_body.
  rewrite (isspace_isdigit _ Hd).
  destruct (not_comment_isdigit _ Hd) as [-> ->]. simpl.
  rewrite Hd. destruct (read_number lx). reflexivity.
Qed.

Lemma tokenize_body_dot lx :
  current_char lx = Some "."%char ->
  tokenize_body "." lx =
  inr (push (mkToken DOT "." (cur_line lx) (cur_column lx)) (moved lx 1)).
Proof.
  intros Hc. rewrite <- (advance_moved lx "." Hc); [|discriminate].
  reflexivity.
Qed.

(** C6: [3.14] lexes to one [NUM] token with the lexeme [3.14], and [3.]
    to [NUM 3] and a separate [DOT]; in general, an iteration of the main
    loop that starts on a digit run followed by a dot and a second digit
    run appends one [NUM] token whose lexeme is both runs and the dot; an
    iteration that starts on a digit run followed by a dot that no digit
    follows appends a [NUM] token whose lexeme is the run alone, and the
    next iteration makes the dot a [DOT] token; and an iteration that
    starts on a digit run followed by anything but a dot and a digit (the
    end of the text, a space, an operator, a letter, a dot alone) appends a
    [NUM] token whose lexeme is the run alone and stops right after the
    run. *)
Theorem C6_numeric_literals :
  tokenize "3.14"
  = Some (inr [mkToken NUM "3.14" 1 1; mkToken EOF "$" 1 5])
  /\ tokenize "3."
     = Some (inr [mkToken NUM "3" 1 1; mkToken DOT "." 1 2;
                  mkToken EOF "$" 1 3])
  /\ (forall lx pre c d1 d2 rest,
        at_text lx pre (String c d1 +:+ "." +:+ d2 +:+ rest) ->
        digits (String c d1) = true -> digits d2 = true ->
        starts_with isdigit rest = false ->
        tokenize_body c lx
        = inr (push (mkToken NUM (String c d1 +:+ "." +:+ d2)
                             (cur_line lx) (cur_column lx))
                    (moved lx (String.length (String c d1) + 1
                               + String.length d2))))
  /\ (forall lx pre c d1 rest,
        at_text lx pre (String c d1 +:+ "." +:+ rest) ->
        digits (String c d1) = true ->
        starts_with isdigit rest = false ->
        let n := String.length (String c d1) in
        let lx' :=
          push (mkToken NUM (String c d1) (cur_line lx) (cur_column lx))
               (moved lx n) in
        tokenize_body c lx = inr lx'
        /\ current_char lx' = Some "."%char
        /\ tokenize_body "." lx'
           = inr (push (mkToken DOT "." (cur_line lx) (cur_column lx + n))
                       (moved lx' 1)))
  /\ (forall lx pre c d1 rest,
        at_text lx pre (String c d1 +:+ rest) ->
        digits (String c d1) = true ->
        starts_with isdigit rest = false ->
        is_char "." (String.get 0 rest) && holds isdigit (String.get 1 rest)
        = false ->
        tokenize_body c lx
        = inr (push (mkToken NUM (String c d1) (cur_line lx) (cur_column lx))
                    (moved lx (String.length (String c d1))))).
Proof.
  split; [vm_compute; reflexivity|]. split; [vm_compute; reflexivity|].
  split; [|split].
  - intros lx pre c d1 d2 rest Hat H1 H2 Hr.
    assert (Hc : isdigit c = true).
    { unfold digits in H1. simpl in H1. apply andb_true_iff in H1. tauto. }
    rewrite (tokenize_body_digit _ _ Hc).
    rewrite (read_number_real lx pre (String c d1) d2 rest Hat
               (string_forall_digits _ H1) H2 Hr). reflexivity.
  - intros lx pre c d1 rest Hat H1 Hr n lx'.
    assert (Hc : isdigit c = true).
    { unfold digits in H1. simpl in H1. apply andb_true_iff in H1. tauto. }
    assert (Hnum : tokenize_body c lx = inr lx').
    { rewrite (tokenize_body_digit _ _ Hc).
      rewrite (read_number_integer lx pre (String c d1) ("." +:+ rest) Hat
                 (string_forall_digits _ H1) eq_refl).
      - reflexivity.
      - change (String.get 1 ("." +:+ rest)) with (String.get 0 rest).
        unfold starts_with in Hr. rewrite Hr. apply andb_false_r. }
    assert (Hcur : current_char lx' = Some "."%char).
    { pose proof (at_text_moved_run _ _ _ _ Hat) as Hat1.
      apply at_text_current in Hat1. exact Hat1. }
    split; [exact Hnum|]. split; [exact Hcur|].
    apply tokenize_body_dot. exact Hcur.
  - intros lx pre c d1 rest Hat H1 Hr Hdot.
    assert (Hc : isdigit c = true).
    { unfold digits in H1. simpl in H1. apply andb_true_iff in H1. tauto. }
    rewrite (tokenize_body_digit _ _ Hc).
    rewrite (read_number_integer lx pre (String c d1) rest Hat
               (string_forall_digits _ H1) Hr Hdot). reflexivity.
Qed.

Lemma C6_numeric_literals_witness :
  tokenize_body "4" (init "42.x")
  = inr (push (mkToken NUM "42" 1 1) (moved (init "42.x") 2))
  /\ tokenize_body "1" (init "1.5+")
     = inr (push (mkToken NUM "1.5" 1 1) (moved (init "1.5+") 3))
  /\ tokenize_body "1" (init "12+3")
     = inr (push (mkToken NUM "12" 1 1) (moved (init "12+3") 2)).
Proof.
  split; [|split].
  - apply (proj1 (proj2 (proj2 (proj2 C6_numeric_literals)))
             (init "42.x") EmptyString "4"%char "2" "x").
    + split; reflexivity.
    + reflexivity.
    + reflexivity.
  - apply (proj1 (proj2 (proj2 C6_numeric_literals))
             (init "1.5+") EmptyString "1"%char EmptyString "5" "+").
    + split; reflexivity.
    + reflexivity.
    + reflexivity.
    + reflexivity.
  - apply (proj2 (proj2 (proj2 (proj2 C6_numeric_literals)))
             (init "12+3") EmptyString "1"%char "2" "+3").
    + split; reflexivity.
    + reflexivity.
    + reflexivity.
    + reflexivity.
Defined.

End LexerRuns.

(** ** The lexer: words and keywords *)

Section LexerWords.

Import lexer scan.

Local Arguments Ascii.eqb : simpl never.

Lemma word_class_newline :
  (fun c => isalnum c || Ascii.eqb c "_") newline = false.
Proof. reflexivity. Qed.

Lemma is_word_forall w :
  is_word w = true ->
  string_forall (fun c => isalnum c || Ascii.eqb c "_") w = true.
Proof.
  destruct w as [|c w]; [discriminate|]. simpl. intros H.
  apply andb_true_iff in H as [Hc Hw]. rewrite Hw, andb_true_r.
  apply orb_true_iff in Hc as [Hc|Hc].
  - rewrite (isalpha_isalnum _ Hc). reflexivity.
  - rewrite Hc. apply orb_true_r.
Qed.

Lemma read_identifier_word w :
  is_word w = true ->
  read_identifier (init w) =
  (moved (init w) (String.length w), mkToken (keyword_or_ID w) w 1 1).
Proof.
  intros Hw. unfold read_identifier.
  set (p := fun c => isalnum c || Ascii.eqb c "_").
  assert (Hat : at_text (init w) EmptyString (w +:+ EmptyString)).
  { split; [simpl; rewrite append_nil_r|]; reflexivity. }
  rewrite (read_run_spec p w word_class_newline _ (init w) EmptyString
             EmptyString EmptyString (is_word_forall _ Hw) eq_refl Hat).
  2:{ unfold remaining. simpl. lia. }
  rewrite append_nil_l. unfold keyword_or_ID.
  destruct (assoc (lower w) KEYWORDS); reflexivity.
Qed.

Lemma tokenize_body_word c lx :
  isalpha c || Ascii.eqb c "_" = true ->
  tokenize_body c lx
  = inr (push (read_identifier lx).2 (read_identifier lx).1).
Proof.
  intros Ha. unfold tokenize_body.
  rewrite (isspace_isalpha _ Ha), (isdigit_isalpha _ Ha), Ha.
  destruct (not_comment_isalpha _ Ha) as [-> ->]. simpl.
  destruct (read_identifier lx). reflexivity.
Qed.

(** A source text that is one word lexes to one token: the keyword that
    the lowercased word names, or [ID]; its lexeme is the word as
    written. *)
Lemma tokenize_word w :
  is_word w = true ->
  tokenize w
  = Some (inr [mkToken (keyword_or_ID w) w 1 1;
               mkToken EOF "$" 1 (S (String.length w))]).
Proof.
  intros Hw. unfold tokenize.
  destruct w as [|c w'] eqn:Ew; [discriminate|]. rewrite <- Ew in *.
  assert (Hc : isalpha c || Ascii.eqb c "_" = true).
  { rewrite Ew in Hw. simpl in Hw. apply andb_true_iff in Hw. tauto. }
  assert (Hcur : current_char (init w) = Some c) by (rewrite Ew; reflexivity).
  replace (String.length w) with (S (String.length w')) at 1
    by (rewrite Ew; reflexivity).
  cbn [tokenize_loop]. rewrite Hcur, (tokenize_body_word _ _ Hc).
  rewrite (read_identifier_word _ Hw). cbn [fst snd].
  assert (Hend : current_char
            (push (mkToken (keyword_or_ID w) w 1 1)
                  (moved (init w) (String.length w))) = None).
  { unfold current_char. simpl. apply get_ge. lia. }
  destruct (String.length w'); cbn [tokenize_loop]; rewrite Hend;
    reflexivity.
Qed.



End LexerWords.

(** ** The lexer: comments without an end *)

Section LexerComments.

Import lexer scan.

Local Arguments Ascii.eqb : simpl never.

Lemma remaining_advance lx : remaining (advance lx) = remaining lx - 1.
Proof. unfold remaining. rewrite advance_source, advance_pos. lia. Qed.

(** At a loop head, what is left of the run is the run of [tokenize]. *)
Lemma loop_head_tokenize src lx :
  loop_head src lx ->
  source lx = src /\ tokenize src = tokenize_loop (remaining lx) lx.
Proof.
  induction 1 as [|lx c lx' Hh [IHs IH] Hc Hb].
  - split; [reflexivity|]. unfold tokenize, remaining. simpl.
    rewrite Nat.sub_0_r. reflexivity.
  - destruct (tokenize_body_progress _ _ _ Hc Hb) as (Hs & Hp & _).
    split; [congruence|]. rewrite IH.
    pose proof (current_char_remaining _ _ Hc) as Hr.
    destruct (remaining lx) as [|k] eqn:Ek; [lia|].
    cbn [tokenize_loop]. rewrite Hc, Hb.
    destruct (tokenize_loop_total (remaining lx') lx' (Nat.le_refl _))
      as [r Hr'].
    rewrite Hr'. eapply tokenize_loop_mono; [exact Hr'|].
    unfold remaining in *. rewrite Hs. lia.
Qed.

Lemma skip_while_to_end p fuel :
  forall lx,
    (forall i c, pos lx <= i -> String.get i (source lx) = Some c ->
                 p c = true) ->
    remaining lx <= fuel ->
    current_char (skip_while p fuel lx) = None.
Proof.
  induction fuel as [|fuel IH]; intros lx Hall Hr; simpl.
  - apply current_char_end. lia.
  - destruct (current_char lx) as [c|] eqn:Hc; simpl; [|exact Hc].
    rewrite (Hall (pos lx) c (Nat.le_refl _) Hc).
    apply IH.
    + intros i d Hi. rewrite advance_source. rewrite advance_pos in Hi.
      apply Hall. lia.
    + rewrite remaining_advance. lia.
Qed.

Lemma skip_star_comment_to_end fuel :
  forall lx,
    (forall i, pos lx <= i ->
               ~ (String.get i (source lx) = Some "*"%char
                  /\ String.get (S i) (source lx) = Some ")"%char)) ->
    remaining lx <= fuel ->
    current_char (skip_star_comment fuel lx) = None.
Proof.
  induction fuel as [|fuel IH]; intros lx Hall Hr; simpl.
  - apply current_char_end. lia.
  - destruct (current_char lx) as [c|] eqn:Hc; [|exact Hc].
    destruct (Ascii.eqb c "*" && is_char ")" (peek lx)) eqn:E.
    + exfalso. apply andb_true_iff in E as [E1 E2].
      apply Ascii.eqb_eq in E1. subst c.
      apply (Hall (pos lx) (Nat.le_refl _)). split; [exact Hc|].
      unfold peek in E2. replace (S (pos lx)) with (pos lx + 1) by lia.
      destruct (String.get (pos lx + 1) (source lx)) as [d|];
        [|discriminate]. simpl in E2. apply Ascii.eqb_eq in E2. congruence.
    + apply IH.
      * intros i Hi. rewrite advance_source. rewrite advance_pos in Hi.
        apply Hall. lia.
      * rewrite remaining_advance. lia.
Qed.

Lemma tokenize_loop_at_end fuel lx :
  current_char lx = None ->
  tokenize_loop fuel lx
  = Some (inr (tokens lx ++ [mkToken EOF "$" (cur_line lx) (cur_column lx)])).
Proof. intros H. destruct fuel; simpl; rewrite H; reflexivity. Qed.

Lemma skip_comment_brace_to_end lx :
  unterminated_brace lx ->
  current_char (skip_comment lx) = None /\ later lx (skip_comment lx).
Proof.
  intros [Hc Hno]. unfold skip_comment. rewrite Hc.
  change (is_char "{" (Some "{"%char)) with true. cbn iota.
  set (lx2 := skip_while _ _ (advance lx)).
  assert (Hend : current_char lx2 = None).
  { apply skip_while_to_end; [|lia].
    intros i c Hi Hg. rewrite advance_source in Hg. rewrite advance_pos in Hi.
    apply negb_true_iff, Ascii.eqb_neq. intros ->.
    apply (Hno i); [lia | exact Hg]. }
  rewrite Hend. simpl. split; [exact Hend|].
  eapply later_trans; [apply later_advance | apply skip_while_later].
Qed.

Lemma skip_comment_star_to_end lx :
  unterminated_star lx ->
  current_char (skip_comment lx) = None /\ later lx (skip_comment lx).
Proof.
  intros (Hc & Hp & Hno). unfold skip_comment. rewrite Hc, Hp.
  change (is_char "{" (Some "("%char)) with false.
  change (is_char "(" (Some "("%char) && is_char "*" (Some "*"%char))
    with true. cbn iota.
  split.
  - apply skip_star_comment_to_end; [|lia].
    intros i Hi. rewrite !advance_source. rewrite !advance_pos in Hi.
    apply Hno. lia.
  - eapply later_trans; [apply later_advance|].
    eapply later_trans; [apply later_advance|].
    apply skip_star_comment_later.
Qed.

(** C8: when the main loop of [tokenize] comes to a [{] that no [}]
    follows, or to a [(*] that no [*)] follows, [tokenize] raises no
    error: the comment scanner runs to the end of the input, and the
    result is the tokens produced before the comment followed by the
    [EOF] token. *)
Theorem C8_unterminated_comment (src : string) (lx : Lexer) :
  loop_head src lx ->
  unterminated_brace lx \/ unterminated_star lx ->
  exists l c,
    tokenize src = Some (inr (tokens lx ++ [mkToken EOF "$" l c])).
Proof.
  intros Hh Hun. destruct (loop_head_tokenize _ _ Hh) as [_ ->].
  assert (Hbody : exists c, current_char lx = Some c
                            /\ tokenize_body c lx = inr (skip_comment lx)).
  { destruct Hun as [[Hc _] | (Hc & Hp & _)].
    - exists "{"%char. split; [exact Hc | reflexivity].
    - exists "("%char. split; [exact Hc|]. unfold tokenize_body.
      rewrite Hp. reflexivity. }
  destruct Hbody as (c & Hc & Hb).
  assert (Hend : current_char (skip_comment lx) = None
                 /\ later lx (skip_comment lx)).
  { destruct Hun as [H|H];
      [apply skip_comment_brace_to_end | apply skip_comment_star_to_end];
      exact H. }
  destruct Hend as [Hend (_ & Htok & _)].
  pose proof (current_char_remaining _ _ Hc) as Hr.
  destruct (remaining lx) as [|k]; [lia|].
  cbn [tokenize_loop]. rewrite Hc, Hb, (tokenize_loop_at_end _ _ Hend), Htok.
  eauto.
Qed.

Lemma C8_unterminated_comment_witness :
  exists l c,
    tokenize "x {y"
    = Some (inr ([mkToken ID "x" 1 1] ++ [mkToken EOF "$" l c])).
Proof.
  apply (C8_unterminated_comment "x {y"
           (mkLexer "x {y" 2 1 3 [mkToken ID "x" 1 1])).
  - apply loop_head_next
      with (lx := mkLexer "x {y" 1 1 2 [mkToken ID "x" 1 1]) (c := " "%char).
    + apply loop_head_next with (lx := init "x {y") (c := "x"%char).
      * apply loop_head_init.
      * reflexivity.
      * vm_compute. reflexivity.
    + reflexivity.
    + vm_compute. reflexivity.
  - left. split; [reflexivity|]. simpl. intros i Hi.
    destruct i as [|[|[|[|i]]]]; try lia; simpl; discriminate.
Defined.

End LexerComments.

(** ** The entry point [parse_string] *)

Section EntryPoint.

Import grammar parse_tree parser.

Lemma parse_string_total source :
  exists fuel r,
    forall fuel', fuel <= fuel' -> parse_string fuel' source = Some (inr r).
Proof.
  unfold parse_string.
  destruct (tokenize_total source) as [[e|toks] Et]; rewrite Et.
  - exists 0, (false, None). reflexivity.
  - destruct (tokenize_shape _ _ Et) as (body & eof & -> & Heof & _).
    destruct (parse_terminates _ (eof_terminated_app body eof Heof))
      as (fuel & r & Hr & Hg).
    destruct Hg as [[tree ->] | [(a & b & c & ->) | (a & b & c & ->)]].
    + exists fuel, (true, Some tree). intros fuel' Hle. unfold parse in *.
      rewrite (parse_loop_mono _ _ _ _ _ Hr Hle). reflexivity.
    + exists fuel, (false, None). intros fuel' Hle. unfold parse in *.
      rewrite (parse_loop_mono _ _ _ _ _ Hr Hle). reflexivity.
    + exists fuel, (false, None). intros fuel' Hle. unfold parse in *.
      rewrite (parse_loop_mono _ _ _ _ _ Hr Hle). reflexivity.
Qed.

(** C10: when the lexer raises, or the parser raises a [ParserError],
    [parse_string] returns exactly [(False, None)]; a tree is returned only
    together with accepted = true; and [parse_string] always returns such a
    pair, no exception leaves it. *)
Theorem C10_parse_string_failure (source : string) :
  (forall fuel,
      (exists e, lexer.tokenize source = Some (inl e))
      \/ (exists toks kind token,
            lexer.tokenize source = Some (inr toks)
            /\ parse fuel (new toks)
               = Some (inl (ParserError kind token))) ->
      parse_string fuel source = Some (inr (false, None)))
  /\ (forall fuel b tree,
        parse_string fuel source = Some (inr (b, Some tree)) -> b = true)
  /\ (exists fuel r,
        forall fuel', fuel <= fuel' ->
                      parse_string fuel' source = Some (inr r)).
Proof.
  split; [|split].
  - intros fuel [[e He] | (toks & kind & token & Ht & Hp)];
      unfold parse_string.
    + rewrite He. reflexivity.
    + rewrite Ht, Hp. reflexivity.
  - intros fuel b tree. unfold parse_string.
    destruct (lexer.tokenize source) as [[e|toks]|]; try discriminate.
    destruct (parse fuel (new toks)) as [[[kind token|]|[b' t']]|] eqn:Ep;
      try discriminate.
    intros [= <- ->]. apply parse_loop_returns_true in Ep. tauto.
  - apply parse_string_total.
Qed.

Lemma C10_parse_string_failure_witness :
  parse_string 13 "program t; begin x := end." = Some (inr (false, None))
  /\ parse_string 5 "x # y" = Some (inr (false, None)).
Proof.
  split.
  - apply (proj1 (C10_parse_string_failure "program t; begin x := end.") 13).
    right. exists missing_rhs_tokens. do 2 eexists.
    split; vm_compute; reflexivity.
  - apply (proj1 (C10_parse_string_failure "x # y") 5).
    left. eexists. vm_compute. reflexivity.
Defined.

End EntryPoint.

(** ** The parse tree of an accepted run *)

Section TreeStore.

Import grammar parse_tree parser leaves.

Lemma flat_map_ext_in {A B : Type} (f g : A -> list B) l :
  (forall x, In x l -> f x = g x) -> flat_map f l = flat_map g l.
Proof.
  induction l as [|x l IH]; intros H; simpl; [reflexivity|].
  rewrite (H x (or_introl eq_refl)), IH; [reflexivity|].
  intros y Hy. apply H. right. exact Hy.
Qed.

Lemma flat_map_flat_map {A B C : Type} (f : A -> list B) (g : B -> list C) l :
  flat_map g (flat_map f l) = flat_map (fun x => flat_map g (f x)) l.
Proof.
  induction l as [|x l IH]; simpl; [reflexivity|].
  rewrite flat_map_app, IH. reflexivity.
Qed.

(** The strings of [preorder_traversal] are the visited nodes, formatted. *)
Lemma preorder_helper_nodes fuel st :
  forall node depth include_epsilon,
    preorder_helper fuel st node depth include_epsilon
    = map (fun dn => node_str (fst dn) (snd dn))
          (preorder_nodes fuel st node depth include_epsilon).
Proof.
  induction fuel as [|fuel IH]; intros node depth inc; simpl; [reflexivity|].
  destruct node as [i|]; [|reflexivity].
  destruct (st !! i) as [n|]; [|reflexivity].
  destruct (is_epsilon n && negb inc); [reflexivity|]. simpl. f_equal.
  induction (children n) as [|c cs IHc]; simpl; [reflexivity|].
  rewrite map_app, IH, IHc. reflexivity.
Qed.

(** The terminal leaves of the traversal are the nodes of [leaf_ids]. *)
Lemma terminal_leaves_ids fuel st :
  forall i depth,
    map (fun dn => (symbol (snd dn), value (snd dn)))
        (filter (fun dn => parse_tree.is_terminal (snd dn) = true)
                (preorder_nodes fuel st (Some i) depth false))
    = map (node_info st) (leaf_ids fuel st i).
Proof.
  induction fuel as [|fuel IH]; intros i depth; [reflexivity|].
  assert (Hcs : forall cs,
    map (fun dn : nat * ParseTreeNode => (symbol (snd dn), value (snd dn)))
        (filter (fun dn => parse_tree.is_terminal (snd dn) = true)
                (flat_map (fun child =>
                             preorder_nodes fuel st (Some child) (S depth)
                                            false) cs))
    = map (node_info st) (flat_map (leaf_ids fuel st) cs)).
  { induction cs as [|c cs IHc]; [reflexivity|]. cbn [flat_map].
    rewrite filter_app, !map_app, IH, IHc. reflexivity. }
  cbn [preorder_nodes leaf_ids].
  destruct (st !! i) as [n|] eqn:Hn; [|reflexivity].
  destruct (is_epsilon n) eqn:He; [reflexivity|].
  change (false && negb false) with false. cbn iota.
  rewrite filter_cons.
  destruct (decide (parse_tree.is_terminal (snd (depth, n)) = true))
    as [Ht|Ht]; cbn [snd] in Ht; unfold parse_tree.is_terminal in Ht;
    fold (is_epsilon n) in Ht; rewrite He in Ht;
    destruct (length (children n) =? 0) eqn:El;
    try discriminate Ht; try (exfalso; apply Ht; reflexivity).
  - destruct (children n); [|discriminate El]. cbn [flat_map].
    rewrite filter_nil. simpl. unfold node_info. rewrite Hn. reflexivity.
  - apply Hcs.
Qed.

Lemma leaf_ids_set_value fuel st j v :
  forall i, leaf_ids fuel (set_value j v st) i = leaf_ids fuel st i.
Proof.
  induction fuel as [|fuel IH]; intros i; [reflexivity|].
  cbn [leaf_ids].
  assert (Hl : set_value j v st !! i
               = (fun n => mkNode (symbol n)
                                  (if decide (j = i) then v else value n)
                                  (children n)) <$> st !! i).
  { unfold set_value. destruct (decide (j = i)) as [->|Hne].
    - rewrite list_lookup_alter_eq. reflexivity.
    - rewrite list_lookup_alter_ne by assumption.
      destruct (st !! i) as [[s w cs]|]; reflexivity. }
  rewrite Hl. destruct (st !! i) as [n|]; [|reflexivity].
  cbn [fmap option_fmap option_map]. unfold is_epsilon. cbn [symbol children].
  destruct (String.eqb (symbol n) "ε"); [reflexivity|].
  destruct (length (children n) =? 0); [reflexivity|].
  apply flat_map_ext_in. intros; apply IH.
Qed.

Lemma attach_epsilon_graft i st :
  attach_epsilon (Some i) st = graft i [fresh EPSILON] st.
Proof. reflexivity. Qed.

Lemma make_children_graft production i :
  forall st,
    i < length st ->
    make_children production (Some i) st
    = (graft i (map fresh production) st,
       seq (length st) (length production)).
Proof.
  induction production as [|sym production IH]; intros st Hi.
  - simpl. unfold graft. simpl. rewrite app_nil_r. f_equal.
    symmetry. apply list_alter_id. intros [s v cs]. simpl.
    rewrite app_nil_r. reflexivity.
  - cbn [make_children new_node attach]. unfold add_child.
    rewrite IH by (rewrite length_alter, length_app; lia).
    rewrite length_alter, length_app. cbn [length].
    replace (length st + 1) with (S (length st)) by lia.
    f_equal. unfold graft.
    rewrite length_alter, length_app. cbn [length map].
    replace (length st + 1) with (S (length st)) by lia.
    rewrite <- alter_app_l by (rewrite length_app; lia).
    rewrite list_alter_alter_eq, <- app_assoc. cbn [app].
    apply list_alter_ext; [|reflexivity].
    intros [s v cs] _. simpl. rewrite <- app_assoc. reflexivity.
Qed.

Lemma leaf_ids_S fuel st i :
  leaf_ids (S fuel) st i
  = match st !! i with
    | None => []
    | Some n =>
        if is_epsilon n then []
        else if length (children n) =? 0 then [i]
        else flat_map (leaf_ids fuel st) (children n)
    end.
Proof. reflexivity. Qed.

Lemma graft_length i new st : length (graft i new st) = length st + length new.
Proof. unfold graft. rewrite length_alter, length_app. reflexivity. Qed.

Lemma graft_lookup_old i new st j :
  j < length st -> j <> i -> graft i new st !! j = st !! j.
Proof.
  intros Hj Hne. unfold graft.
  rewrite list_lookup_alter_ne by congruence. apply lookup_app_l. exact Hj.
Qed.

Lemma graft_lookup_parent i new st n :
  st !! i = Some n ->
  graft i new st !! i
  = Some (mkNode (symbol n) (value n)
                 (children n ++ seq (length st) (length new))).
Proof.
  intros Hn. unfold graft. rewrite list_lookup_alter_eq.
  rewrite lookup_app_l by (eapply lookup_lt_Some; exact Hn).
  rewrite Hn. reflexivity.
Qed.

Lemma graft_lookup_new i new st k x :
  i < length st -> new !! k = Some x ->
  graft i new st !! (length st + k) = Some x.
Proof.
  intros Hi Hk. unfold graft. rewrite list_lookup_alter_ne by lia.
  rewrite lookup_app_r by lia.
  replace (length st + k - length st) with k by lia. exact Hk.
Qed.

Lemma new_leaf_ids_flat_map (F : nat -> list nat) new :
  forall base,
    (forall k x, new !! k = Some x ->
                 F (base + k) = if is_epsilon x then [] else [base + k]) ->
    flat_map F (seq base (length new)) = new_leaf_ids base new.
Proof.
  induction new as [|x new IH]; intros base H; [reflexivity|].
  cbn [length seq flat_map new_leaf_ids]. f_equal.
  - specialize (H 0 x eq_refl). rewrite Nat.add_0_r in H. exact H.
  - apply IH. intros k y Hk. specialize (H (S k) y Hk).
    replace (S base + k) with (base + S k) by lia. exact H.
Qed.

Lemma new_leaf_ids_range base new x :
  In x (new_leaf_ids base new) -> base <= x < base + length new.
Proof.
  revert base. induction new as [|y new IH]; intros base H; [destruct H|].
  cbn [new_leaf_ids length] in *. apply in_app_or in H as [H|H].
  - destruct (is_epsilon y); [destruct H|]. destruct H as [<-|[]]. lia.
  - apply IH in H. lia.
Qed.

Lemma new_leaf_ids_NoDup base new : NoDup (new_leaf_ids base new).
Proof.
  revert base. induction new as [|y new IH]; intros base;
    cbn [new_leaf_ids]; [constructor|].
  destruct (is_epsilon y); [apply IH|]. cbn [app]. constructor; [|apply IH].
  intros H. apply list_elem_of_In, new_leaf_ids_range in H. lia.
Qed.

(** Grafting new childless nodes under a leaf [i] replaces [i], in the
    list of terminal leaves, by the new nodes that are not epsilon. *)
Lemma graft_leaf_ids st i s v new :
  store_wf st -> st !! i = Some (mkNode s v []) ->
  String.eqb s "ε" = false -> new <> [] ->
  Forall (fun x => children x = []) new ->
  forall fuel j,
    j < length st -> length st - j <= fuel ->
    leaf_ids (S fuel) (graft i new st) j
    = flat_map (subst_leaf i (new_leaf_ids (length st) new))
               (leaf_ids fuel st j).
Proof.
  intros Hwf Hi Hs Hnew Hch.
  assert (Hilt : i < length st) by (eapply lookup_lt_Some; exact Hi).
  assert (Hfresh : forall fuel,
            flat_map (leaf_ids (S fuel) (graft i new st))
                     (seq (length st) (length new))
            = new_leaf_ids (length st) new).
  { intros fuel. apply new_leaf_ids_flat_map. intros k x Hk.
    cbn [leaf_ids]. rewrite (graft_lookup_new _ _ _ _ _ Hilt Hk).
    destruct (is_epsilon x); [reflexivity|].
    rewrite Forall_forall in Hch.
    rewrite (Hch x) by (apply list_elem_of_lookup; eauto). reflexivity. }
  induction fuel as [|fuel IH]; intros j Hj Hf; [lia|].
  rewrite (leaf_ids_S (S fuel)), (leaf_ids_S fuel).
  destruct (decide (j = i)) as [->|Hne].
  - rewrite (graft_lookup_parent _ _ _ _ Hi), Hi.
    unfold is_epsilon. cbn [symbol children app]. rewrite Hs.
    cbn [length Nat.eqb flat_map app].
    rewrite length_seq.
    destruct (length new) as [|k] eqn:El;
      [destruct new; [congruence | discriminate El]|].
    cbn [Nat.eqb]. rewrite Hfresh.
    unfold subst_leaf. rewrite Nat.eqb_refl, app_nil_r. reflexivity.
  - rewrite (graft_lookup_old _ _ _ _ Hj Hne).
    destruct (st !! j) as [n|] eqn:Hn; [|reflexivity].
    destruct (is_epsilon n); [reflexivity|].
    destruct (length (children n) =? 0) eqn:El.
    + cbn [flat_map]. unfold subst_leaf.
      apply Nat.eqb_neq in Hne. rewrite Hne. reflexivity.
    + rewrite flat_map_flat_map. apply flat_map_ext_in. intros c Hc.
      specialize (Hwf j n Hn). rewrite Forall_forall in Hwf.
      specialize (Hwf c (proj2 (list_elem_of_In _ _) Hc)).
      apply IH; lia.
Qed.

Lemma graft_wf st i n new :
  store_wf st -> st !! i = Some n ->
  Forall (fun x => children x = []) new ->
  store_wf (graft i new st).
Proof.
  intros Hwf Hi Hch j m Hm.
  assert (Hilt : i < length st) by (eapply lookup_lt_Some; exact Hi).
  rewrite graft_length.
  destruct (decide (j = i)) as [->|Hne].
  - rewrite (graft_lookup_parent _ _ _ _ Hi) in Hm. injection Hm as <-.
    cbn [children]. apply Forall_app. split.
    + eapply Forall_impl; [apply (Hwf i n Hi)|]. simpl. intros; lia.
    + apply Forall_forall. intros c Hc.
      apply list_elem_of_In, in_seq in Hc. lia.
  - destruct (Nat.lt_ge_cases j (length st)) as [Hj|Hj].
    + rewrite (graft_lookup_old _ _ _ _ Hj Hne) in Hm.
      eapply Forall_impl; [apply (Hwf j m Hm)|]. simpl. intros; lia.
    + assert (Hk : new !! (j - length st) = Some m).
      { pose proof (lookup_lt_Some _ _ _ Hm) as Hlt.
        rewrite graft_length in Hlt.
        destruct (lookup_lt_is_Some_2 new (j - length st) ltac:(lia))
          as [x Hx].
        pose proof (graft_lookup_new i new st _ x Hilt Hx) as Hg.
        replace (length st + (j - length st)) with j in Hg by lia.
        congruence. }
      rewrite Forall_forall in Hch.
      rewrite (Hch m) by (apply list_elem_of_lookup; eauto). constructor.
Qed.

Lemma graft_node_info st i new j :
  j < length st -> j <> i ->
  node_info (graft i new st) j = node_info st j.
Proof.
  intros Hj Hne. unfold node_info.
  rewrite graft_lookup_old by assumption. reflexivity.
Qed.

End TreeStore.

(** ** The invariant of the parsing loop *)

Section RunInvariant.

Import grammar parse_tree parser leaves.

Lemma stack_of_app a b :
  stack_of (a ++ b) = map (fun sn => (fst sn, Some (snd sn))) a ++ stack_of b.
Proof. unfold stack_of. rewrite map_app, app_assoc. reflexivity. Qed.

Lemma stack_of_app' s i pend :
  stack_of ((s, i) :: pend) = (s, Some i) :: stack_of pend.
Proof. reflexivity. Qed.

Lemma zip_map_Some (l : list string) ids :
  zip l (map Some ids)
  = map (fun sn : string * nat => (fst sn, Some (snd sn))) (zip l ids).
Proof.
  revert ids. induction l as [|x l IH]; intros [|i ids]; simpl;
    try reflexivity. f_equal. apply IH.
Qed.

Lemma flat_map_subst_other i L l :
  ~ In i l -> flat_map (subst_leaf i L) l = l.
Proof.
  induction l as [|x l IH]; intros H; simpl; [reflexivity|].
  unfold subst_leaf at 1.
  destruct (x =? i) eqn:E.
  - apply Nat.eqb_eq in E. exfalso. apply H. left. exact E.
  - simpl. f_equal. apply IH. intros Hin. apply H. right. exact Hin.
Qed.

Lemma new_leaf_ids_fresh base production :
  Forall (fun s => s <> EPSILON) production ->
  new_leaf_ids base (map fresh production)
  = seq base (length production).
Proof.
  revert base. induction production as [|s l IH]; intros base H;
    [reflexivity|].
  apply Forall_cons in H as [Hs Hl]. cbn [map new_leaf_ids length seq].
  unfold is_epsilon, fresh at 1. cbn [symbol].
  apply String.eqb_neq in Hs. unfold EPSILON in Hs. rewrite Hs.
  cbn [app]. f_equal. apply IH. exact Hl.
Qed.

Lemma pending_lt st sn : pending_ok st sn -> snd sn < length st.
Proof. intros (H & _). eapply lookup_lt_Some. exact H. Qed.

(** The right-hand sides of the table: the epsilon production, or a
    nonempty sequence of grammar symbols without epsilon and without the
    end marker. *)
Lemma production_symbols A t production :
  get_production A t = Some production ->
  list_string_eqb production [EPSILON] = false ->
  production <> []
  /\ Forall (fun s => s <> EPSILON /\ s <> "$"
                      /\ grammar.is_terminal s || is_nonterminal s = true)
            production.
Proof.
  intros H He.
  pose proof (table_forall
    (fun e => list_string_eqb e.2 [EPSILON]
              || (negb (length e.2 =? 0)
                  && forallb (fun s => negb (String.eqb s EPSILON)
                                       && negb (String.eqb s "$")
                                       && (grammar.is_terminal s
                                           || is_nonterminal s)) e.2))
    _ _ _ ltac:(vm_compute; reflexivity) H) as Hc.
  cbn [snd] in Hc. rewrite He in Hc. cbn [orb] in Hc.
  apply andb_true_iff in Hc as [Hn Hall]. split.
  - intros ->. discriminate Hn.
  - apply List.Forall_forall. intros s Hs.
    rewrite forallb_forall in Hall. specialize (Hall s Hs).
    rewrite !andb_true_iff, !negb_true_iff in Hall.
    destruct Hall as [[H1 H2] H3].
    apply String.eqb_neq in H1, H2. auto.
Qed.

Lemma inv_match toks p done s i pend current :
  run_inv toks p done ((s, i) :: pend) ->
  toks !! pos p = Some current -> get_terminal current = s ->
  S (pos p) < length toks ->
  run_inv toks
    (mkParser toks (S (pos p)) (stack_of pend)
              (set_value i (lexer.value current) (heap p)))
    (done ++ [i]) pend.
Proof.
  intros [Ht Hp Hs Hwf Hroot Hl Hnd Hpend Hdr Hd] Hcur Hterm Hlt.
  apply Forall_cons in Hpend as [(Hi & Hne & Hnd' & Hgs) Hpend].
  cbn [fst snd] in *.
  assert (Hilt : i < length (heap p)) by (eapply lookup_lt_Some; exact Hi).
  assert (Hnd2 : NoDup ((done ++ [i]) ++ map snd pend))
    by (rewrite <- app_assoc; exact Hnd).
  assert (Hlen : length (set_value i (lexer.value current) (heap p))
                 = length (heap p)) by apply length_alter.
  constructor; cbn [tokens pos stack heap]; auto.
  - intros j n Hj. rewrite Hlen. unfold set_value in Hj.
    destruct (decide (i = j)) as [->|Hij].
    + rewrite list_lookup_alter_eq, Hi in Hj. injection Hj as <-. constructor.
    + rewrite list_lookup_alter_ne in Hj by assumption. eapply Hwf; eauto.
  - rewrite Hlen. exact Hroot.
  - intros fuel Hf. rewrite Hlen in Hf. rewrite leaf_ids_set_value.
    rewrite Hl by assumption. cbn [map snd]. rewrite <- app_assoc.
    reflexivity.
  - apply Forall_forall. intros [s' j] Hj.
    rewrite Forall_forall in Hpend. specialize (Hpend _ Hj).
    destruct Hpend as (Hj' & rest). split; [|exact rest]. cbn [fst snd] in *.
    unfold set_value. rewrite list_lookup_alter_ne; [exact Hj'|].
    intros ->. apply NoDup_app in Hnd as (_ & _ & Hnd).
    cbn [map snd] in Hnd. apply NoDup_cons in Hnd as [Hnot _].
    apply Hnot. apply list_elem_of_fmap. exists (s', j). auto.
  - rewrite Hlen. apply Forall_app. split; [exact Hdr|].
    constructor; [exact Hilt | constructor].
  - rewrite (take_S_r _ _ _ Hcur), !map_app. f_equal.
    + rewrite <- Hd. apply map_ext_in. intros x Hx.
      unfold node_info, set_value. rewrite list_lookup_alter_ne; [reflexivity|].
      intros ->. apply NoDup_app in Hnd as (_ & Hnot & _).
      apply (Hnot x); [apply list_elem_of_In; exact Hx|]. left.
    + cbn [map]. unfold node_info, set_value, token_leaf.
      rewrite list_lookup_alter_eq, Hi. cbn. rewrite Hterm. reflexivity.
Qed.

Lemma inv_graft toks p done s i pend new newpend :
  run_inv toks p done ((s, i) :: pend) ->
  new <> [] -> Forall (fun x => children x = []) new ->
  map snd newpend = new_leaf_ids (length (heap p)) new ->
  Forall (pending_ok (graft i new (heap p))) newpend ->
  run_inv toks
    (mkParser toks (pos p) (stack_of (newpend ++ pend))
              (graft i new (heap p)))
    done (newpend ++ pend).
Proof.
  intros [Ht Hp Hs Hwf Hroot Hl Hnd Hpend Hdr Hd] Hnew Hch HL Hnp.
  apply Forall_cons in Hpend as [(Hi & Hne & Hnd' & Hgs) Hpend].
  cbn [fst snd] in *.
  assert (Hilt : i < length (heap p)) by (eapply lookup_lt_Some; exact Hi).
  apply NoDup_app in Hnd as (Hnd1 & Hnd2 & Hnd3).
  cbn [map snd] in Hnd2, Hnd3. apply NoDup_cons in Hnd3 as [Hnd3 Hnd4].
  assert (Hid : ~ In i done).
  { intros H. apply (Hnd2 i); [apply list_elem_of_In; exact H | left]. }
  assert (Hip : ~ In i (map snd pend)).
  { intros H. apply Hnd3. apply list_elem_of_In. exact H. }
  assert (Hplt : forall x, In x (map snd pend) -> x < length (heap p)).
  { intros x Hx. apply in_map_iff in Hx as (sn & <- & Hsn).
    rewrite Forall_forall in Hpend. apply pending_lt.
    apply Hpend, list_elem_of_In, Hsn. }
  constructor; cbn [tokens pos stack heap]; auto.
  - eapply graft_wf; eauto.
  - rewrite graft_length. lia.
  - intros fuel Hf. rewrite graft_length in Hf.
    assert (Hnl : 0 < length new) by (destruct new; [congruence|simpl; lia]).
    destruct fuel as [|fuel]; [lia|].
    rewrite (graft_leaf_ids _ _ s EmptyString new Hwf Hi) ; auto; try lia.
    + rewrite Hl by lia. cbn [map snd].
      rewrite flat_map_app. cbn [flat_map].
      rewrite !flat_map_subst_other by assumption.
      unfold subst_leaf. rewrite Nat.eqb_refl, map_app, HL. reflexivity.
    + apply String.eqb_neq. exact Hne.
  - rewrite map_app, HL. apply NoDup_app. split; [exact Hnd1|]. split.
    + intros x Hx Hin. apply elem_of_app in Hin as [Hin|Hin].
      * apply list_elem_of_In, new_leaf_ids_range in Hin.
        rewrite Forall_forall in Hdr. specialize (Hdr x Hx). lia.
      * apply (Hnd2 x Hx). right. exact Hin.
    + apply NoDup_app. split; [apply new_leaf_ids_NoDup|]. split; [|exact Hnd4].
      intros x Hx Hin. apply list_elem_of_In, new_leaf_ids_range in Hx.
      apply list_elem_of_In, Hplt in Hin. lia.
  - apply Forall_app. split; [exact Hnp|].
    apply Forall_forall. intros [s' j] Hj.
    rewrite Forall_forall in Hpend. specialize (Hpend _ Hj).
    destruct Hpend as (Hj' & rest). split; [|exact rest]. cbn [fst snd] in *.
    rewrite graft_lookup_old; [exact Hj'| |].
    + eapply lookup_lt_Some. exact Hj'.
    + intros ->. apply Hip. apply in_map_iff. exists (s', i).
      split; [reflexivity | apply list_elem_of_In; exact Hj].
  - eapply Forall_impl; [exact Hdr|]. simpl. intros x Hx.
    rewrite graft_length. lia.
  - rewrite <- Hd. apply map_ext_in. intros x Hx.
    apply graft_node_info.
    + rewrite Forall_forall in Hdr. apply Hdr, list_elem_of_In, Hx.
    + intros ->. contradiction.
Qed.

Lemma run_inv_step toks p done pend p' :
  eof_terminated toks -> run_inv toks p done pend ->
  step 0 p = Continue p' ->
  exists done' pend', run_inv toks p' done' pend'.
Proof.
  intros Heof Hinv Hstep.
  pose proof (inv_tokens _ _ _ _ Hinv) as Htok.
  pose proof (inv_stack _ _ _ _ Hinv) as Hstack.
  pose proof (inv_pos _ _ _ _ Hinv) as Hpos.
  assert (Heofp : eof_terminated (tokens p)) by (rewrite Htok; exact Heof).
  destruct (current_token_some p Heofp) as [current Hc].
  assert (Hlook : toks !! pos p = Some current).
  { rewrite <- Htok. apply current_token_lookup; [exact Hc|].
    rewrite Htok. exact Hpos. }
  unfold step in Hstep. rewrite Hstack, Hc in Hstep.
  destruct pend as [|[s i] pend].
  - exfalso. cbn [stack_of map app] in Hstep.
    cbn [heap tokens pos stack] in Hstep.
    change (String.eqb "$" "$") with true in Hstep. cbn [andb] in Hstep.
    destruct (String.eqb (get_terminal current) "$") eqn:E; [discriminate|].
    change (grammar.is_terminal "$" && negb (String.eqb "$" EPSILON))
      with true in Hstep. cbn iota in Hstep.
    rewrite String.eqb_sym, E in Hstep. discriminate.
  - pose proof (inv_pending _ _ _ _ Hinv) as Hpend.
    apply Forall_cons in Hpend as [(Hi & Hne & Hnd & Hgs) _].
    cbn [fst snd] in Hi, Hne, Hnd, Hgs.
    rewrite stack_of_app' in Hstep.
    cbn [heap tokens pos stack] in Hstep.
    apply String.eqb_neq in Hnd as Hnd'. rewrite Hnd' in Hstep.
    cbn [andb] in Hstep.
    apply String.eqb_neq in Hne as Hne'. rewrite Hne' in Hstep.
    cbn [negb] in Hstep. rewrite andb_true_r in Hstep.
    destruct (grammar.is_terminal s) eqn:Hterm.
    + destruct (String.eqb s (get_terminal current)) eqn:Hm; [|discriminate].
      apply String.eqb_eq in Hm. injection Hstep as <-.
      set (q := mkParser _ _ _ _).
      assert (Hq : current_token q = Some current)
        by (rewrite <- Hc; apply current_token_same_pos; reflexivity).
      destruct (advance_moves q current Heofp Hq) as [Ha Hlt];
        [congruence|].
      rewrite Ha. subst q. cbn [tokens pos stack heap] in *.
      exists (done ++ [i]), pend. rewrite Htok in *.
      apply inv_match with (s := s); auto.
    + cbn [orb] in Hgs. rewrite Hgs in Hstep.
      destruct (get_production s (get_terminal current))
        as [production|] eqn:Hp; [|discriminate].
      destruct (list_string_eqb production [EPSILON]) eqn:Hpe.
      * injection Hstep as <-.
        change (add_child i (length (heap p)) _)
          with (graft i [fresh EPSILON] (heap p)).
        rewrite Htok.
        exists done, pend.
        apply (inv_graft toks p done s i pend [fresh EPSILON] []); auto;
          try discriminate; repeat constructor.
      * destruct (production_symbols _ _ _ Hp Hpe) as [Hnn Hsyms].
        assert (Hilt : i < length (heap p))
          by (eapply lookup_lt_Some; exact Hi).
        rewrite (make_children_graft production i (heap p) Hilt) in Hstep.
        injection Hstep as <-. unfold push_all.
        rewrite zip_map_Some, <- stack_of_app, Htok.
        exists done, (zip production (seq (length (heap p))
                                          (length production)) ++ pend).
        assert (Hne_eps : Forall (fun s => s <> EPSILON) production).
        { eapply List.Forall_impl; [|exact Hsyms]. simpl. tauto. }
        apply (inv_graft toks p done s i pend (map fresh production)); auto.
        -- intros E. apply Hnn. destruct production; [reflexivity|].
           discriminate E.
        -- apply Forall_forall. intros x Hx.
           apply list_elem_of_fmap in Hx as (y & -> & _). reflexivity.
        -- rewrite (new_leaf_ids_fresh _ _ Hne_eps).
           apply snd_zip. rewrite length_seq. lia.
        -- apply Forall_forall. intros [s' j] Hj.
           apply list_elem_of_lookup in Hj as [k Hk].
           apply lookup_zip_with_Some in Hk
             as (x & y & [= <- <-] & Hx & Hy).
           apply lookup_seq in Hy as [-> Hklt].
           rewrite List.Forall_forall in Hsyms.
           specialize (Hsyms s' ltac:(apply list_elem_of_In,
                                       list_elem_of_lookup; eauto)).
           split; [|exact Hsyms]. cbn [fst snd].
           apply graft_lookup_new; [exact Hilt|].
           rewrite list_lookup_fmap, Hx. reflexivity.
Qed.

Lemma run_inv_start toks :
  0 < length toks -> run_inv toks (start (new toks)) [] [("Program", 0)].
Proof.
  intros Hlen. constructor; cbn; auto.
  - intros [|i] n Hn; [|discriminate]. injection Hn as <-. constructor.
  - intros [|fuel] Hf; [lia | reflexivity].
  - repeat constructor. intros H. apply elem_of_nil in H. exact H.
  - repeat constructor; discriminate.
Qed.

Lemma run_inv_accept toks p done pend acc tree :
  run_inv toks p done pend -> step 0 p = Return acc tree ->
  exists current,
    toks !! pos p = Some current /\ get_terminal current = "$"
    /\ terminal_leaves tree = map token_leaf (take (pos p) toks).
Proof.
  intros Hinv Hstep.
  apply step_return in Hstep as (current & rest & Hs & Hc & Ht & _ & ->).
  pose proof (inv_tokens _ _ _ _ Hinv) as Htok.
  pose proof (inv_pos _ _ _ _ Hinv) as Hpos.
  exists current. split; [|split; [exact Ht|]].
  - rewrite <- Htok. apply current_token_lookup; [exact Hc|].
    rewrite Htok. exact Hpos.
  - unfold control.symbols in Hs. rewrite (inv_stack _ _ _ _ Hinv) in Hs.
    destruct pend as [|[s i] pend].
    + unfold terminal_leaves. cbn [nodes root].
      rewrite terminal_leaves_ids.
      rewrite (inv_leaves _ _ _ _ Hinv) by lia.
      cbn [map]. rewrite app_nil_r. apply (inv_done _ _ _ _ Hinv).
    + exfalso. pose proof (inv_pending _ _ _ _ Hinv) as Hpend.
      apply Forall_cons in Hpend as [(_ & _ & Hnd & _) _].
      cbn in Hs. injection Hs as E _. apply Hnd. exact E.
Qed.

Lemma parse_loop_leaves toks fuel :
  eof_terminated toks ->
  forall p done pend b tree,
    run_inv toks p done pend ->
    parse_loop fuel 0 p = Some (inr (b, Some tree)) ->
    exists n current,
      toks !! n = Some current /\ get_terminal current = "$"
      /\ terminal_leaves tree = map token_leaf (take n toks).
Proof.
  intros Heof. induction fuel as [|fuel IH];
    intros p done pend b tree Hinv H; [discriminate|].
  simpl in H. destruct (step 0 p) as [p'|acc tree'|e] eqn:Hstep.
  - destruct (run_inv_step _ _ _ _ _ Heof Hinv Hstep)
      as (done' & pend' & Hinv').
    eapply IH; eassumption.
  - injection H as <- <-.
    destruct (run_inv_accept _ _ _ _ _ _ Hinv Hstep) as (c & H1 & H2 & H3).
    eauto.
  - discriminate.
Qed.

(** The leaves of the tree of an accepted token sequence are its tokens
    before [EOF]: symbol for terminal, value for lexeme. *)
Lemma accepted_leaves body eof fuel tree :
  lexer.type eof = lexer.EOF ->
  Forall (fun tok => lexer.type tok <> lexer.EOF) body ->
  parse fuel (new (body ++ [eof])) = Some (inr (true, Some tree)) ->
  terminal_leaves tree = map token_leaf body.
Proof.
  intros Heof Hbody H. unfold parse in H.
  apply (parse_loop_leaves (body ++ [eof])) with (done := [])
    (pend := [("Program", 0)]) in H
    as (n & current & Hn & Ht & Hl).
  - assert (En : n = length body).
    { apply get_terminal_EOF in Ht.
      destruct (Nat.lt_ge_cases n (length body)) as [Hlt|Hge].
      - rewrite lookup_app_l in Hn by assumption.
        rewrite Forall_forall in Hbody. exfalso.
        apply (Hbody current); [|assumption].
        apply list_elem_of_lookup. eauto.
      - apply lookup_lt_Some in Hn. rewrite length_app in Hn. simpl in Hn.
        lia. }
    rewrite Hl, En, take_app_length. reflexivity.
  - apply eof_terminated_app, Heof.
  - apply run_inv_start. rewrite length_app. simpl. lia.
Qed.

(** Every source text gives [parse] a token sequence of that shape. *)
Lemma parse_string_leaves fuel source tree :
  parse_string fuel source = Some (inr (true, Some tree)) ->
  exists body eof,
    lexer.tokenize source = Some (inr (body ++ [eof]))
    /\ lexer.type eof = lexer.EOF
    /\ Forall (fun tok => lexer.type tok <> lexer.EOF) body
    /\ terminal_leaves tree = map token_leaf body.
Proof.
  unfold parse_string. intros H.
  destruct (lexer.tokenize source) as [[e|toks]|] eqn:Et; try discriminate.
  destruct (tokenize_shape _ _ Et) as (body & eof & -> & Heof & Hbody).
  destruct (parse fuel (new (body ++ [eof])))
    as [[[kind token|]|[b t]]|] eqn:Ep; try discriminate.
  injection H as -> ->. exists body, eof. repeat split; auto.
  eapply accepted_leaves; eassumption.
Qed.



(** The scenario of the specification: the tree of
    [program test; var x: integer; begin x := 5 end.] *)
Example scenario_preorder :
  match parse_string 60 "program test; var x: integer; begin x := 5 end."
  with
  | Some (inr (true, Some tree)) =>
      preorder_traversal tree false
      = [ "Program"; "  program"; "  id (test)"; "  ;"; "  Block";
          "    Declarations"; "      var"; "      DeclList"; "        Decl";
          "          IdList"; "            id (x)"; "            IdListP";
          "          :"; "          Type"; "            integer";
          "          ;"; "        DeclListP"; "    begin"; "    StmtList";
          "      Statement"; "        id (x)"; "        :=";
          "        Expression"; "          Term"; "            Factor";
          "              num (5)"; "            TermP";
          "          ExpressionP"; "      StmtListP"; "    end"; "  ." ]
      /\ map snd (terminal_leaves tree)
         = [ "program"; "test"; ";"; "var"; "x"; ":"; "integer"; ";";
             "begin"; "x"; ":="; "5"; "end"; "." ]
  | _ => False
  end.
Proof. vm_compute. split; reflexivity. Qed.

End RunInvariant.

(** * Further properties *)

(** ** The lexer: positions and lexemes *)

Section LexerLayout.

Import lexer scan layout.

Local Arguments Ascii.eqb : simpl never.

Lemma substring_0_r n s : substring n 0 s = EmptyString.
Proof.
  revert n. induction s as [|c s IH]; intros [|n]; simpl; auto.
Qed.

Lemma substring_snoc s :
  forall n m c,
    String.get (n + m) s = Some c ->
    substring n m s +:+ String c EmptyString = substring n (S m) s.
Proof.
  induction s as [|a s IH]; intros n m c H.
  - destruct (n + m); discriminate H.
  - destruct n as [|n].
    + destruct m as [|m].
      * simpl in H. injection H as ->. cbn [substring].
        rewrite substring_0_r. reflexivity.
      * simpl in H. cbn [substring]. rewrite append_cons. f_equal.
        apply (IH 0 m c). exact H.
    + simpl in H. cbn [substring]. apply IH. exact H.
Qed.

Lemma substring_snoc_l s :
  forall n m c,
    String.get n s = Some c ->
    String c (substring (S n) m s) = substring n (S m) s.
Proof.
  induction s as [|a s IH]; intros n m c H.
  - destruct n; discriminate H.
  - destruct n as [|n].
    + simpl in H. injection H as ->. reflexivity.
    + simpl in H. cbn [substring]. apply (IH n m c H).
Qed.

Lemma line_col_S s :
  forall off line col,
    line_col s (S off) line col =
    match String.get off s with
    | Some c =>
        if Ascii.eqb c newline
        then (S (fst (line_col s off line col)), 1)
        else (fst (line_col s off line col),
              S (snd (line_col s off line col)))
    | None => line_col s off line col
    end.
Proof.
  induction s as [|a s IH]; intros off line col.
  - destruct off; reflexivity.
  - destruct off as [|off].
    + cbn [line_col String.get]. destruct (Ascii.eqb a newline); reflexivity.
    + change (String.get (S off) (String a s)) with (String.get off s).
      cbn [line_col]. destruct (Ascii.eqb a newline); apply IH.
Qed.

Lemma tracked_advance lx c :
  current_char lx = Some c -> tracked lx -> tracked (advance lx).
Proof.
  intros Hc [Hle Hp]. unfold tracked.
  rewrite advance_source, advance_pos. split.
  - apply get_Some_lt in Hc. exact Hc.
  - unfold position in *. rewrite line_col_S. fold (current_char lx).
    rewrite Hc, <- Hp. unfold advance. rewrite Hc.
    destruct (Ascii.eqb c newline); reflexivity.
Qed.

Lemma current_char_advance lx : current_char (advance lx) = peek lx.
Proof.
  unfold current_char, peek. rewrite advance_source, advance_pos.
  f_equal. lia.
Qed.

Lemma tracked_advance2 lx c d :
  current_char lx = Some c -> peek lx = Some d -> tracked lx ->
  tracked (advance (advance lx)).
Proof.
  intros Hc Hp Ht. apply tracked_advance with (c := d).
  - rewrite current_char_advance. exact Hp.
  - eapply tracked_advance; eassumption.
Qed.

Lemma holds_Some p o : holds p o = true -> exists c, o = Some c /\ p c = true.
Proof. destruct o as [c|]; simpl; [eauto | discriminate]. Qed.

Lemma is_char_eq a o : is_char a o = true -> o = Some a.
Proof.
  destruct o as [c|]; simpl; [|discriminate].
  intros H. apply Ascii.eqb_eq in H. congruence.
Qed.

Lemma tracked_skip_while p fuel :
  forall lx, tracked lx -> tracked (skip_while p fuel lx).
Proof.
  induction fuel as [|fuel IH]; intros lx Ht; simpl; [exact Ht|].
  destruct (holds p (current_char lx)) eqn:E; [|exact Ht].
  apply holds_Some in E as (c & Hc & _).
  apply IH. eapply tracked_advance; eassumption.
Qed.

Lemma tracked_skip_star_comment fuel :
  forall lx, tracked lx -> tracked (skip_star_comment fuel lx).
Proof.
  induction fuel as [|fuel IH]; intros lx Ht; simpl; [exact Ht|].
  destruct (current_char lx) as [c|] eqn:Hc; [|exact Ht].
  destruct (Ascii.eqb c "*" && is_char ")" (peek lx)) eqn:E.
  - apply andb_true_iff in E as [_ E]. apply is_char_eq in E.
    eapply tracked_advance2; eassumption.
  - apply IH. eapply tracked_advance; eassumption.
Qed.

Lemma tracked_skip_comment lx : tracked lx -> tracked (skip_comment lx).
Proof.
  intros Ht. unfold skip_comment.
  destruct (is_char "{" (current_char lx)) eqn:E1.
  - apply is_char_eq in E1.
    pose proof (tracked_skip_while
                  (fun c => negb (Ascii.eqb c "}"))
                  (remaining (advance lx)) (advance lx)
                  (tracked_advance _ _ E1 Ht)) as H2.
    destruct (is_char "}" (current_char _)) eqn:E2; [|exact H2].
    apply is_char_eq in E2. eapply tracked_advance; eassumption.
  - destruct (is_char "(" (current_char lx) && is_char "*" (peek lx)) eqn:E2;
      [|exact Ht].
    apply andb_true_iff in E2 as [Ea Eb].
    apply is_char_eq in Ea, Eb.
    apply tracked_skip_star_comment. eapply tracked_advance2; eassumption.
Qed.

(** The loop [read_run p], in general: it extends the text read since
    [start] by characters of the class [p], on one line. *)
Lemma read_run_text p (Hnl : p newline = false) fuel :
  forall lx start r,
    tracked lx -> start <= pos lx ->
    r = substring start (pos lx - start) (source lx) ->
    let lx' := (read_run p fuel lx r).1 in
    let r' := (read_run p fuel lx r).2 in
    tracked lx' /\ later lx lx'
    /\ r' = substring start (pos lx' - start) (source lx)
    /\ cur_line lx' = cur_line lx
    /\ cur_column lx' = cur_column lx + (pos lx' - pos lx)
    /\ string_forall p (substring (pos lx) (pos lx' - pos lx) (source lx))
       = true.
Proof.
  induction fuel as [|fuel IH]; intros lx start r Ht Hs Hr; cbn zeta.
  - cbn [read_run fst snd]. rewrite Nat.sub_diag, substring_0_r.
    split; [exact Ht|]. split; [apply later_refl|].
        split; [exact Hr|]. split; [reflexivity|]. split; [lia | reflexivity].
  - cbn [read_run]. destruct (current_char lx) as [c|] eqn:Hc.
    2:{ cbn [fst snd]. rewrite Nat.sub_diag, substring_0_r.
        split; [exact Ht|]. split; [apply later_refl|].
        split; [exact Hr|]. split; [reflexivity|]. split; [lia | reflexivity]. }
    destruct (p c) eqn:Hp.
    2:{ cbn [fst snd]. rewrite Nat.sub_diag, substring_0_r.
        split; [exact Ht|]. split; [apply later_refl|].
        split; [exact Hr|]. split; [reflexivity|]. split; [lia | reflexivity]. }
    assert (Hne : Ascii.eqb c newline = false).
    { apply Ascii.eqb_neq. intros ->. congruence. }
    pose proof (tracked_advance _ _ Hc Ht) as Ht1.
    specialize (IH (advance lx) start (r +:+ String c EmptyString) Ht1).
    rewrite advance_pos, advance_source in IH.
    destruct IH as (H1 & H2 & H3 & H4 & H5 & H6).
    + lia.
    + rewrite Hr. replace (S (pos lx) - start) with (S (pos lx - start))
        by lia.
      apply substring_snoc.
      replace (start + (pos lx - start)) with (pos lx) by lia. exact Hc.
    + set (res := read_run p fuel (advance lx) _) in *.
      assert (Hlt : S (pos lx) <= pos res.1).
      { destruct H2 as (_ & _ & H2). rewrite advance_pos in H2. exact H2. }
      split; [exact H1|].
      split; [eapply later_trans; [apply later_advance | exact H2]|].
      split; [exact H3|].
      split; [rewrite H4; unfold advance; rewrite Hc, Hne; reflexivity|].
      split.
      * rewrite H5. unfold advance. rewrite Hc, Hne. simpl. lia.
      * replace (pos res.1 - pos lx) with (S (pos res.1 - S (pos lx)))
          by lia.
        rewrite <- (substring_snoc_l (source lx) (pos lx) _ c Hc).
        simpl. rewrite Hp, H6. reflexivity.
Qed.

Lemma substring_nil n m : substring n m EmptyString = EmptyString.
Proof. destruct n, m; reflexivity. Qed.

Lemma substring_split s :
  forall n a b,
    substring n (a + b) s = substring n a s +:+ substring (n + a) b s.
Proof.
  induction s as [|c s IH]; intros n a b.
  - rewrite !substring_nil. reflexivity.
  - destruct n as [|n].
    + destruct a as [|a].
      * rewrite substring_0_r. reflexivity.
      * cbn [Nat.add substring]. rewrite append_cons. f_equal.
        apply (IH 0 a b).
    + cbn [Nat.add substring]. apply IH.
Qed.

Lemma substring_one s n c :
  String.get n s = Some c -> substring n 1 s = String c EmptyString.
Proof.
  intros H. rewrite <- (substring_snoc_l s n 0 c H), substring_0_r.
  reflexivity.
Qed.

Lemma substring_two s n c d :
  String.get n s = Some c -> String.get (n + 1) s = Some d ->
  substring n 2 s = String c (String d EmptyString).
Proof.
  intros Hc Hd. rewrite <- (substring_snoc_l s n 1 c Hc). f_equal.
  apply substring_one. replace (S n) with (n + 1) by lia. exact Hd.
Qed.

Lemma substring_length_lt s n m :
  n + m <= String.length s -> String.length (substring n m s) = m.
Proof.
  revert n m. induction s as [|c s IH]; intros n m H; simpl in H.
  - assert (n = 0) by lia. assert (m = 0) by lia. subst. reflexivity.
  - destruct n as [|n].
    + destruct m as [|m]; [reflexivity|]. cbn [substring String.length].
      f_equal. apply IH. lia.
    + cbn [substring]. apply IH. lia.
Qed.

Lemma tracked_pos lx : tracked lx -> pos lx <= String.length (source lx).
Proof. intros [H _]. exact H. Qed.

Lemma read_run_state p fuel :
  forall lx r r', (read_run p fuel lx r).1 = (read_run p fuel lx r').1.
Proof.
  induction fuel as [|fuel IH]; intros lx r r'; [reflexivity|]. simpl.
  destruct (current_char lx) as [c|]; [|reflexivity].
  destruct (p c); [apply IH | reflexivity].
Qed.

(** What [read_number] returns. *)
Lemma read_number_text lx c :
  tracked lx -> current_char lx = Some c -> isdigit c = true ->
  let lx' := (read_number lx).1 in
  let t := (read_number lx).2 in
  tracked lx' /\ later (advance lx) lx'
  /\ t = mkToken NUM (substring (pos lx) (pos lx' - pos lx) (source lx))
                 (cur_line lx) (cur_column lx)
  /\ num_lexeme (value t).
Proof.
  intros Ht Hc Hd. cbn zeta. unfold read_number.
  pose proof (read_run_text isdigit isdigit_newline (remaining lx) lx
                (pos lx) EmptyString Ht (Nat.le_refl _)) as H1.
  rewrite Nat.sub_diag, substring_0_r in H1. specialize (H1 eq_refl).
  cbn zeta in H1.
  pose proof (read_run_first isdigit lx c EmptyString Hc Hd) as Hf.
  destruct (read_run isdigit (remaining lx) lx EmptyString) as [lx1 r1].
  cbn [fst snd] in H1, Hf.
  destruct H1 as (Ht1 & Hl1 & Hr1 & _ & _ & Hall1).
  assert (Hs1 : source lx1 = source lx) by apply Hl1.
  assert (Hp1 : S (pos lx) <= pos lx1).
  { destruct Hf as (_ & _ & Hf). rewrite advance_pos in Hf. exact Hf. }
  assert (Hd1 : digits r1 = true).
  { unfold digits. rewrite Hr1 at 2. rewrite Hall1, andb_true_r.
    rewrite Hr1.
    replace (pos lx1 - pos lx) with (S (pos lx1 - S (pos lx))) by lia.
    rewrite <- (substring_snoc_l (source lx) (pos lx) _ c Hc). reflexivity. }
  destruct (is_char "." (current_char lx1) && holds isdigit (peek lx1))
    eqn:Edot.
  - apply andb_true_iff in Edot as [Ea Eb]. apply is_char_eq in Ea.
    apply holds_Some in Eb as (d & Hpk & Hdd).
    pose proof (tracked_advance _ _ Ea Ht1) as Ht1'.
    assert (Hcur' : current_char (advance lx1) = Some d)
      by (rewrite current_char_advance; exact Hpk).
    pose proof (read_run_text isdigit isdigit_newline
                  (remaining (advance lx1)) (advance lx1)
                  (pos (advance lx1)) EmptyString Ht1' (Nat.le_refl _))
      as H2.
    rewrite Nat.sub_diag, substring_0_r in H2. specialize (H2 eq_refl).
    pose proof (read_run_text isdigit isdigit_newline
                  (remaining (advance lx1)) (advance lx1)
                  (pos lx) (r1 +:+ ".") Ht1') as H3.
    pose proof (read_run_first isdigit (advance lx1) d (r1 +:+ ".")
                  Hcur' Hdd) as Hf2.
    rewrite advance_pos, advance_source, Hs1 in H2, H3.
    assert (Hget : String.get (pos lx + (pos lx1 - pos lx)) (source lx)
                   = Some "."%char).
    { replace (pos lx + (pos lx1 - pos lx)) with (pos lx1) by lia.
      unfold current_char in Ea. rewrite Hs1 in Ea. exact Ea. }
    destruct H3 as (Ht2 & Hl2 & Hr2 & _ & _ & _); [lia| |].
    { rewrite Hr1. replace (S (pos lx1) - pos lx)
        with (S (pos lx1 - pos lx)) by lia.
      apply substring_snoc. exact Hget. }
    cbn zeta in H2. destruct H2 as (_ & _ & _ & _ & _ & Hall2).
    rewrite (read_run_state isdigit _ _ EmptyString (r1 +:+ ".")) in Hall2.
    destruct (read_run isdigit (remaining (advance lx1)) (advance lx1)
                (r1 +:+ ".")) as [lx2 r2].
    cbn [fst snd] in *.
    assert (Hp2 : S (S (pos lx1)) <= pos lx2).
    { destruct Hf2 as (_ & _ & Hf2). rewrite !advance_pos in Hf2. exact Hf2. }
    split; [exact Ht2|]. split.
    { eapply later_trans; [exact Hf|].
      eapply later_trans; [apply later_advance | exact Hl2]. }
    split; [rewrite Hr2; reflexivity|].
    exists r1. split; [exact Hd1|]. right.
    exists (substring (S (pos lx1)) (pos lx2 - S (pos lx1)) (source lx)).
    split.
    + unfold digits. rewrite Hall2, andb_true_r.
      replace (pos lx2 - S (pos lx1))
        with (S (pos lx2 - S (S (pos lx1)))) by lia.
      rewrite <- (substring_snoc_l (source lx) (S (pos lx1)) _ d).
      * reflexivity.
      * unfold peek in Hpk. rewrite Hs1 in Hpk.
        replace (S (pos lx1)) with (pos lx1 + 1) by lia. exact Hpk.
    + cbn [value]. rewrite Hr2.
      replace (pos lx2 - pos lx)
        with ((pos lx1 - pos lx) + S (pos lx2 - S (pos lx1))) by lia.
      rewrite substring_split, <- Hr1. f_equal.
      replace (pos lx + (pos lx1 - pos lx)) with (pos lx1) by lia.
      symmetry. rewrite append_cons, append_nil_l. apply substring_snoc_l.
      unfold current_char in Ea. rewrite Hs1 in Ea. exact Ea.
  - cbn [fst snd]. split; [exact Ht1|]. split; [exact Hf|].
    split; [rewrite Hr1; reflexivity|].
    exists r1. split; [exact Hd1 | left; reflexivity].
Qed.

End LexerLayout.

Section LexerTokens.

Import lexer scan layout.

Local Arguments Ascii.eqb : simpl never.

Lemma keyword_token_ok v kw l c :
  assoc (lower v) KEYWORDS = Some kw -> token_ok (mkToken kw v l c).
Proof.
  intros H. pose proof (assoc_In _ _ _ H) as Hin. simpl in Hin.
  unfold token_ok. cbn [type value].
  repeat (destruct Hin as [Hin|Hin];
          [injection Hin as Hs <-; split; [rewrite <- Hs; reflexivity|];
           intros _; exact H|]).
  destruct Hin.
Qed.

Lemma single_char_token_ok c ty v l col :
  single_char_token c = Some (ty, v) ->
  v = String c EmptyString /\ token_ok (mkToken ty v l col).
Proof.
  unfold single_char_token.
  repeat match goal with
         | |- (if Ascii.eqb c ?a then _ else _) = _ -> _ =>
             let E := fresh "E" in
             destruct (Ascii.eqb c a) eqn:E;
             [apply Ascii.eqb_eq in E; subst c; intros [= <- <-];
              split; [reflexivity|];
              split; [reflexivity | intros Hw; vm_compute in Hw;
                                    discriminate Hw]|]
         end.
  discriminate.
Qed.

Lemma is_word_substring s n m c :
  String.get n s = Some c -> isalpha c || Ascii.eqb c "_" = true ->
  string_forall (fun c => isalnum c || Ascii.eqb c "_")
                (substring n (S m) s) = true ->
  is_word (substring n (S m) s) = true.
Proof.
  intros Hc Ha. rewrite <- (substring_snoc_l s n m c Hc). simpl.
  intros H. apply andb_true_iff in H as [_ H]. rewrite Ha, H. reflexivity.
Qed.

(** What [read_identifier] returns. *)
Lemma read_identifier_text lx c :
  tracked lx -> current_char lx = Some c ->
  isalpha c || Ascii.eqb c "_" = true ->
  let lx' := (read_identifier lx).1 in
  let t := (read_identifier lx).2 in
  tracked lx' /\ later (advance lx) lx'
  /\ t = mkToken (keyword_or_ID (value t))
                 (substring (pos lx) (pos lx' - pos lx) (source lx))
                 (cur_line lx) (cur_column lx)
  /\ is_word (value t) = true.
Proof.
  intros Ht Hc Ha. cbn zeta. unfold read_identifier.
  set (p := fun c => isalnum c || Ascii.eqb c "_").
  assert (Hpc : p c = true).
  { unfold p. apply orb_true_iff in Ha as [Ha|Ha];
      [rewrite (isalpha_isalnum _ Ha) | rewrite Ha, orb_true_r];
      reflexivity. }
  pose proof (read_run_text p word_class_newline (remaining lx) lx
                (pos lx) EmptyString Ht (Nat.le_refl _)) as H1.
  rewrite Nat.sub_diag, substring_0_r in H1. specialize (H1 eq_refl).
  cbn zeta in H1.
  pose proof (read_run_first p lx c EmptyString Hc Hpc) as Hf.
  destruct (read_run p (remaining lx) lx EmptyString) as [lx1 r1].
  cbn [fst snd] in H1, Hf.
  destruct H1 as (Ht1 & Hl1 & Hr1 & _ & _ & Hall1).
  assert (Hp1 : S (pos lx) <= pos lx1).
  { destruct Hf as (_ & _ & Hf). rewrite advance_pos in Hf. exact Hf. }
  assert (Hw : is_word r1 = true).
  { rewrite Hr1.
    replace (pos lx1 - pos lx) with (S (pos lx1 - S (pos lx))) in * by lia.
    eapply is_word_substring; eassumption. }
  unfold keyword_or_ID.
  destruct (assoc (lower r1) KEYWORDS) as [kw|] eqn:Ek; cbn [fst snd value];
    rewrite Ek, <- Hr1; auto.
Qed.

(** One iteration of the main loop: the lexer stays on track, and the
    token it appends, if any, is the text between the two positions. *)
Lemma tokenize_body_token c lx lx' :
  tracked lx -> current_char lx = Some c -> tokenize_body c lx = inr lx' ->
  tracked lx'
  /\ (tokens lx' = tokens lx
      \/ exists t,
           tokens lx' = tokens lx ++ [t]
           /\ line t = cur_line lx /\ column t = cur_column lx
           /\ value t = substring (pos lx) (pos lx' - pos lx) (source lx)
           /\ token_ok t).
Proof.
  intros Ht Hc. unfold tokenize_body.
  destruct (isspace c) eqn:Hsp.
  { intros [= <-]. split; [apply tracked_skip_while; exact Ht|].
    left. destruct (skip_while_later isspace (remaining lx) lx)
      as (_ & H & _). exact H. }
  destruct (Ascii.eqb c "{" || (Ascii.eqb c "(" && is_char "*" (peek lx)))
    eqn:Hcm.
  { intros [= <-]. split; [apply tracked_skip_comment; exact Ht|].
    left. destruct (skip_comment_first _ _ Hc Hcm) as (_ & H & _).
    rewrite H. apply advance_tokens. }
  destruct (isdigit c) eqn:Hd.
  { pose proof (read_number_text lx c Ht Hc Hd) as H. cbn zeta in H.
    destruct (read_number lx) as [lx1 t]. cbn [fst snd] in H.
    destruct H as (H1 & H2 & H3 & H4). intros [= <-].
    split; [exact H1|]. right. exists t. cbn [tokens pos push].
    destruct H2 as (_ & -> & _). rewrite advance_tokens.
    split; [reflexivity|].
    split; [rewrite H3; reflexivity|]. split; [rewrite H3; reflexivity|].
    split; [rewrite H3; reflexivity|].
    unfold token_ok. replace (type t) with NUM by (rewrite H3; reflexivity).
    exact H4. }
  destruct (isalpha c || Ascii.eqb c "_") eqn:Ha.
  { pose proof (read_identifier_text lx c Ht Hc Ha) as H. cbn zeta in H.
    destruct (read_identifier lx) as [lx1 t]. cbn [fst snd] in H.
    destruct H as (H1 & H2 & H3 & H4). intros [= <-].
    split; [exact H1|]. right. exists t. cbn [tokens pos push].
    destruct H2 as (_ & -> & _). rewrite advance_tokens.
    split; [reflexivity|].
    split; [rewrite H3; reflexivity|]. split; [rewrite H3; reflexivity|].
    split; [rewrite H3; reflexivity|].
    destruct t as [ty v l col]. cbn [value] in H3, H4.
    injection H3 as Hty _ _ _. unfold keyword_or_ID in Hty.
    destruct (assoc (lower v) KEYWORDS) as [kw|] eqn:Ek; subst ty.
    - apply keyword_token_ok. exact Ek.
    - unfold token_ok. cbn [type value]. auto. }
  assert (Htwo : forall d ty (v : string),
            peek lx = Some d -> v = String c (String d EmptyString) ->
            token_ok (mkToken ty v (cur_line lx) (cur_column lx)) ->
            tracked (push (mkToken ty v (cur_line lx) (cur_column lx))
                          (advance (advance lx)))
            /\ (tokens (push (mkToken ty v (cur_line lx) (cur_column lx))
                              (advance (advance lx))) = tokens lx
                \/ exists t,
                     tokens (push (mkToken ty v (cur_line lx) (cur_column lx))
                                  (advance (advance lx))) = tokens lx ++ [t]
                     /\ line t = cur_line lx /\ column t = cur_column lx
                     /\ value t
                        = substring (pos lx)
                            (pos (push (mkToken ty v (cur_line lx)
                                                (cur_column lx))
                                       (advance (advance lx))) - pos lx)
                            (source lx)
                     /\ token_ok t)).
  { intros d ty v Hp Hv Hok. split.
    - apply (tracked_advance2 lx c d Hc Hp Ht).
    - right. eexists. cbn [tokens pos push]. rewrite !advance_tokens.
      split; [reflexivity|]. cbn [line column value]. rewrite !advance_pos.
      repeat split; [|exact Hok].
      replace (S (S (pos lx)) - pos lx) with 2 by lia.
      rewrite (substring_two _ _ c d); [exact Hv | exact Hc | exact Hp]. }
  destruct (Ascii.eqb c ":" && is_char "=" (peek lx)) eqn:E1.
  { apply andb_true_iff in E1 as [Ea Eb]. apply Ascii.eqb_eq in Ea.
    apply is_char_eq in Eb. intros [= <-].
    apply (Htwo "="%char); [exact Eb | subst c; reflexivity|].
    split; [reflexivity | intros Hw; vm_compute in Hw; discriminate Hw]. }
  destruct (Ascii.eqb c "<" && is_char "=" (peek lx)) eqn:E2.
  { apply andb_true_iff in E2 as [Ea Eb]. apply Ascii.eqb_eq in Ea.
    apply is_char_eq in Eb. intros [= <-].
    apply (Htwo "="%char); [exact Eb | subst c; reflexivity|].
    split; [reflexivity | intros Hw; vm_compute in Hw; discriminate Hw]. }
  destruct (Ascii.eqb c ">" && is_char "=" (peek lx)) eqn:E3.
  { apply andb_true_iff in E3 as [Ea Eb]. apply Ascii.eqb_eq in Ea.
    apply is_char_eq in Eb. intros [= <-].
    apply (Htwo "="%char); [exact Eb | subst c; reflexivity|].
    split; [reflexivity | intros Hw; vm_compute in Hw; discriminate Hw]. }
  destruct (Ascii.eqb c "<" && is_char ">" (peek lx)) eqn:E4.
  { apply andb_true_iff in E4 as [Ea Eb]. apply Ascii.eqb_eq in Ea.
    apply is_char_eq in Eb. intros [= <-].
    apply (Htwo ">"%char); [exact Eb | subst c; reflexivity|].
    split; [reflexivity | intros Hw; vm_compute in Hw; discriminate Hw]. }
  destruct (single_char_token c) as [[ty v]|] eqn:Es; [|discriminate].
  intros [= <-].
  destruct (single_char_token_ok c ty v (cur_line lx) (cur_column lx) Es)
    as [Hv Hok].
  split; [apply (tracked_advance lx c Hc Ht)|].
  right. eexists. cbn [tokens pos push]. rewrite advance_tokens.
  split; [reflexivity|]. cbn [line column value]. rewrite advance_pos.
  repeat split; [|exact Hok].
  replace (S (pos lx) - pos lx) with 1 by lia.
  rewrite (substring_one _ _ c Hc). exact Hv.
Qed.

End LexerTokens.

Section LexerResults.

Import lexer scan layout.

Local Arguments Ascii.eqb : simpl never.

Lemma laid_out_weaken src toks :
  forall from upto upto',
    upto <= upto' -> laid_out src from toks upto ->
    laid_out src from toks upto'.
Proof.
  induction toks as [|t toks IH]; intros from upto upto' Hle H; simpl in *.
  - lia.
  - destruct H as (off & H1 & H2 & H3). exists off. eauto.
Qed.

Lemma laid_out_snoc src toks t :
  forall from upto,
    laid_out src from toks upto -> located src upto t ->
    laid_out src from (toks ++ [t]) (upto + String.length (value t)).
Proof.
  induction toks as [|t' toks IH]; intros from upto H Ht; simpl in *.
  - exists upto. split; [exact H|]. split; [exact Ht | lia].
  - destruct H as (off & H1 & H2 & H3). exists off. eauto.
Qed.

(** The state at the head of every iteration of the main loop. *)
Lemma loop_head_layout src lx :
  loop_head src lx ->
  source lx = src /\ tracked lx
  /\ laid_out src 0 (tokens lx) (pos lx)
  /\ Forall token_ok (tokens lx).
Proof.
  induction 1 as [|lx c lx' Hh (Hs & Ht & Hl & Hok) Hc Hb].
  - split; [reflexivity|]. split; [split; [simpl; lia | reflexivity]|].
    split; [simpl; lia | constructor].
  - destruct (tokenize_body_progress _ _ _ Hc Hb) as (Hs' & Hp & _).
    destruct (tokenize_body_token _ _ _ Ht Hc Hb) as (Ht' & Htok).
    split; [congruence|]. split; [exact Ht'|].
    destruct Htok as [-> | (t & -> & Hline & Hcol & Hval & Htok)].
    + split; [|exact Hok]. eapply laid_out_weaken; [|exact Hl]. lia.
    + assert (Hlen : String.length (value t) = pos lx' - pos lx).
      { rewrite Hval. apply substring_length_lt.
        pose proof (tracked_pos _ Ht') as Hb'. rewrite Hs' in Hb'. lia. }
      split.
      * replace (pos lx') with (pos lx + String.length (value t)) by lia.
        apply laid_out_snoc; [exact Hl|].
        split; [|split].
        -- destruct Ht as [_ Hpos]. rewrite <- Hs, <- Hpos, Hline, Hcol.
           reflexivity.
        -- rewrite Hlen, <- Hs. symmetry. exact Hval.
        -- lia.
      * apply Forall_app. split; [exact Hok|]. constructor; [exact Htok|].
        constructor.
Qed.

(** How a run of [tokenize] ends. *)
Lemma tokenize_loop_end src fuel :
  forall lx r,
    loop_head src lx -> tokenize_loop fuel lx = Some r ->
    (exists lx', loop_head src lx' /\ current_char lx' = None
                 /\ r = inr (tokens lx' ++
                             [mkToken EOF "$" (cur_line lx')
                                      (cur_column lx')]))
    \/ (exists lx' c e, loop_head src lx' /\ current_char lx' = Some c
                        /\ tokenize_body c lx' = inl e /\ r = inl e).
Proof.
  induction fuel as [|fuel IH]; intros lx r Hh H; simpl in H.
  - destruct (current_char lx) eqn:Hc; [discriminate|].
    injection H as <-. left. eauto.
  - destruct (current_char lx) as [c|] eqn:Hc.
    + destruct (tokenize_body c lx) as [e|lx'] eqn:Hb.
      * injection H as <-. right. exists lx, c, e. auto.
      * apply (IH lx'); [|exact H]. eapply loop_head_next; eassumption.
    + injection H as <-. left. eauto.
Qed.

Lemma tokenize_end src r :
  tokenize src = Some r ->
  (exists lx', loop_head src lx' /\ current_char lx' = None
               /\ r = inr (tokens lx' ++
                           [mkToken EOF "$" (cur_line lx')
                                    (cur_column lx')]))
  \/ (exists lx' c e, loop_head src lx' /\ current_char lx' = Some c
                      /\ tokenize_body c lx' = inl e /\ r = inl e).
Proof. apply tokenize_loop_end. constructor. Qed.

Lemma end_of_source lx :
  tracked lx -> current_char lx = None ->
  pos lx = String.length (source lx).
Proof.
  intros [Hle _] Hc. unfold current_char in Hc.
  destruct (Nat.lt_ge_cases (pos lx) (String.length (source lx)))
    as [Hlt|Hge]; [|lia].
  apply get_lt in Hlt as [c Hc']. congruence.
Qed.

(** X1: [tokenize] ends on every source text, and when it returns tokens
    they are tokens other than [EOF] followed by exactly one [EOF] token,
    whose lexeme is [$] and whose line and column are those of the end of
    the text. *)
Theorem X1_tokenize_ends_with_EOF (src : string) :
  exists r,
    tokenize src = Some r
    /\ forall toks,
         r = inr toks ->
         exists body,
           toks = body ++
                  [mkToken EOF "$" (fst (position src (String.length src)))
                           (snd (position src (String.length src)))]
           /\ Forall (fun t => type t <> EOF) body.
Proof.
  destruct (tokenize_total src) as [r Hr]. exists r. split; [exact Hr|].
  intros toks ->.
  destruct (tokenize_shape _ _ Hr) as (body & eof & E & _ & Hbody).
  destruct (tokenize_end _ _ Hr)
    as [(lx & Hh & Hc & [= E']) | (lx & c & e & _ & _ & _ & [=])].
  destruct (loop_head_layout _ _ Hh) as (Hs & Ht & _ & _).
  rewrite E in E'. apply app_inj_tail in E' as [-> ->].
  exists (tokens lx). split; [|exact Hbody]. rewrite E. do 2 f_equal.
  pose proof (end_of_source _ Ht Hc) as Hp. destruct Ht as [_ Hpos].
  rewrite Hs in *. rewrite <- Hp, <- Hpos. reflexivity.
Qed.

(** X2: the tokens that [tokenize] returns before [EOF] lie in the source
    text in order and without overlap: each lexeme is the text at an
    offset of the source that is not before the end of the previous
    lexeme, and the line and column of the token are those of that
    offset. *)
Theorem X2_tokens_laid_out (src : string) (body : list Token) (eof : Token) :
  tokenize src = Some (inr (body ++ [eof])) ->
  laid_out src 0 body (String.length src).
Proof.
  intros Hr.
  destruct (tokenize_end _ _ Hr)
    as [(lx & Hh & Hc & [= E']) | (lx & c & e & _ & _ & _ & [=])].
  apply app_inj_tail in E' as [-> _].
  destruct (loop_head_layout _ _ Hh) as (Hs & Ht & Hl & _).
  pose proof (end_of_source _ Ht Hc) as Hp. rewrite Hs in Hp.
  rewrite <- Hp. exact Hl.
Qed.

Lemma X2_tokens_laid_out_witness :
  laid_out "x := 10"
    0 [mkToken ID "x" 1 1; mkToken ASSIGN ":=" 1 3; mkToken NUM "10" 1 6] 7.
Proof.
  apply (X2_tokens_laid_out "x := 10" _ (mkToken EOF "$" 1 8)).
  vm_compute. reflexivity.
Defined.

(** X3: every token that [tokenize] returns is well formed for its type:
    the lexeme of a [NUM] is a digit run or two digit runs around one dot,
    the lexeme of an [ID] is a word whose lowercased spelling is not a
    keyword, and for every keyword and operator token the grammar terminal
    of its type is its lowercased lexeme. *)
Theorem X3_tokens_well_formed (src : string) (toks : list Token) :
  tokenize src = Some (inr toks) -> Forall token_ok toks.
Proof.
  intros Hr.
  destruct (tokenize_end _ _ Hr)
    as [(lx & Hh & Hc & [= ->]) | (lx & c & e & _ & _ & _ & [=])].
  destruct (loop_head_layout _ _ Hh) as (_ & _ & _ & Hok).
  apply Forall_app. split; [exact Hok|]. repeat constructor.
Qed.

Lemma X3_tokens_well_formed_witness :
  Forall token_ok
    [mkToken WHILE "While" 1 1; mkToken ID "n" 1 7; mkToken LESS_EQUAL "<=" 1 9;
     mkToken NUM "2.5" 1 12; mkToken EOF "$" 1 15].
Proof.
  apply (X3_tokens_well_formed "While n <= 2.5"). vm_compute. reflexivity.
Defined.

Lemma tokenize_body_error c lx e :
  tokenize_body c lx = inl e ->
  e = mkLexerError (unexpected c) (cur_line lx) (cur_column lx)
  /\ token_start c = false.
Proof.
  unfold tokenize_body, token_start.
  destruct (isspace c); [discriminate|].
  destruct (Ascii.eqb c "{") eqn:Eb; [discriminate|]. cbn [orb].
  destruct (Ascii.eqb c "(" && is_char "*" (peek lx)); [discriminate|].
  destruct (isdigit c); [destruct (read_number lx); discriminate|].
  destruct (isalpha c); [destruct (read_identifier lx); discriminate|].
  destruct (Ascii.eqb c "_"); [destruct (read_identifier lx); discriminate|].
  cbn [orb].
  repeat match goal with
         | |- (if ?b then _ else _) = _ -> _ => destruct b; [discriminate|]
         end.
  destruct (single_char_token c) as [[ty v]|]; [discriminate|].
  intros [= <-]. auto.
Qed.

Lemma tokenize_error_char src e :
  tokenize src = Some (inl e) ->
  exists off c, String.get off src = Some c /\ token_start c = false.
Proof.
  intros Hr.
  destruct (tokenize_end _ _ Hr)
    as [(lx & _ & _ & [=]) | (lx & c & e' & Hh & Hc & Hb & [= <-])].
  destruct (loop_head_layout _ _ Hh) as (Hs & _).
  destruct (tokenize_body_error _ _ _ Hb) as [_ Hstart].
  exists (pos lx), c. unfold current_char in Hc. rewrite Hs in Hc. auto.
Qed.

(** X4: when [tokenize] raises, the error names a character of the source
    text that cannot start a token (it is no space, digit, letter,
    underscore, brace or punctuation character of the language), and the
    line and column of the error are those of that character. *)
Theorem X4_lexer_error_located (src : string) (e : LexerError) :
  tokenize src = Some (inl e) ->
  exists off c,
    String.get off src = Some c
    /\ token_start c = false
    /\ message e = unexpected c
    /\ (err_line e, err_column e) = position src off.
Proof.
  intros Hr.
  destruct (tokenize_end _ _ Hr)
    as [(lx & _ & _ & [=]) | (lx & c & e' & Hh & Hc & Hb & [= <-])].
  destruct (loop_head_layout _ _ Hh) as (Hs & [_ Hpos] & _ & _).
  destruct (tokenize_body_error _ _ _ Hb) as [-> Hstart].
  exists (pos lx), c. unfold current_char in Hc. rewrite Hs in *.
  repeat split; auto.
Qed.

Lemma X4_lexer_error_located_witness :
  exists off c,
    String.get off "x :=
  # 1" = Some c
    /\ token_start c = false
    /\ message (mkLexerError "Unexpected character: '#'" 2 3) = unexpected c
    /\ (2, 3) = position "x :=
  # 1" off.
Proof.
  apply (X4_lexer_error_located _
           (mkLexerError "Unexpected character: '#'" 2 3)).
  vm_compute. reflexivity.
Defined.

Lemma string_forall_get p s :
  string_forall p s = true ->
  forall i c, String.get i s = Some c -> p c = true.
Proof.
  induction s as [|a s IH]; intros H i c Hg; [destruct i; discriminate|].
  simpl in H. apply andb_true_iff in H as [Ha Hs].
  destruct i as [|i]; simpl in Hg; [congruence | eauto].
Qed.

(** X5: a source text in which every character can start a token (spaces,
    digits, letters, underscores, [{] and the punctuation characters of the
    language) is never rejected by [tokenize]. *)
Theorem X5_token_characters_accepted (src : string) :
  string_forall token_start src = true ->
  exists toks, tokenize src = Some (inr toks).
Proof.
  intros Hall. destruct (tokenize_total src) as [[e|toks] Hr]; [|eauto].
  exfalso. destruct (tokenize_error_char _ _ Hr) as (off & c & Hg & Hs).
  rewrite (string_forall_get _ _ Hall _ _ Hg) in Hs. discriminate.
Qed.

Lemma X5_token_characters_accepted_witness :
  exists toks, tokenize "if a<>b then { skip" = Some (inr toks).
Proof.
  apply (X5_token_characters_accepted "if a<>b then { skip"). reflexivity.
Defined.

End LexerResults.

(** ** The grammar tables *)

Section GrammarTables.

Import grammar.

Lemma table_productions A t alpha :
  get_production A t = Some alpha ->
  exists prods, assoc A PRODUCTIONS = Some prods /\ In alpha prods.
Proof.
  intros H.
  pose proof (table_forall
    (fun e => match assoc e.1.1 PRODUCTIONS with
              | Some prods => existsb (list_string_eqb e.2) prods
              | None => false
              end) _ _ _ ltac:(vm_compute; reflexivity) H) as Hc.
  cbn [fst snd] in Hc.
  destruct (assoc A PRODUCTIONS) as [prods|]; [|discriminate].
  exists prods. split; [reflexivity|].
  apply existsb_exists in Hc as (x & Hx & E).
  apply list_string_eqb_eq in E. congruence.
Qed.

(** X6: every entry of [PARSE_TABLE] is well formed: its row is a
    nonterminal, its column is a terminal other than the end marker, and
    its right-hand side is one of the alternatives that [PRODUCTIONS] lists
    for the nonterminal; so no lookup under the end marker finds a
    production. *)
Theorem X6_table_entries_are_productions (A t : string) (alpha : list string) :
  get_production A t = Some alpha ->
  is_nonterminal A = true
  /\ In t TERMINALS /\ t <> "$"
  /\ exists prods, assoc A PRODUCTIONS = Some prods /\ In alpha prods.
Proof.
  intros H.
  pose proof (table_forall
    (fun e => is_nonterminal e.1.1 && mem e.1.2 TERMINALS
              && negb (String.eqb e.1.2 "$"))
    _ _ _ ltac:(vm_compute; reflexivity) H) as Hc.
  cbn [fst snd] in Hc. rewrite !andb_true_iff, negb_true_iff in Hc.
  destruct Hc as [[H1 H2] H3].
  split; [exact H1|]. split; [apply mem_In; exact H2|].
  split; [apply String.eqb_neq; exact H3|].
  apply table_productions with (t := t). exact H.
Qed.

Lemma X6_table_entries_are_productions_witness :
  is_nonterminal "ElsePart" = true
  /\ In "else" TERMINALS /\ "else" <> "$"
  /\ exists prods,
       assoc "ElsePart" PRODUCTIONS = Some prods
       /\ In ["else"; "Statement"] prods.
Proof.
  apply (X6_table_entries_are_productions "ElsePart" "else"). reflexivity.
Defined.

(** X7: the map from token types to grammar terminals loses nothing:
    different token types have different terminals, and every terminal of
    the grammar is the terminal of a token type. *)
Theorem X7_token_terminals_one_to_one :
  (forall ty1 ty2,
      TOKEN_TO_TERMINAL ty1 = TOKEN_TO_TERMINAL ty2 -> ty1 = ty2)
  /\ (forall t, In t TERMINALS -> exists ty, TOKEN_TO_TERMINAL ty = t).
Proof.
  split.
  - intros ty1 ty2. destruct ty1; destruct ty2; intros H;
      solve [reflexivity | discriminate H].
  - intros t Ht. simpl in Ht.
    repeat (destruct Ht as [<-|Ht];
            [match goal with
             | |- exists ty, _ = ?s =>
                 first
                   [ exists lexer.PROGRAM; reflexivity
                   | exists lexer.VAR; reflexivity
                   | exists lexer.BEGIN; reflexivity
                   | exists lexer.END; reflexivity
                   | exists lexer.INTEGER; reflexivity
                   | exists lexer.REAL; reflexivity
                   | exists lexer.BOOLEAN; reflexivity
                   | exists lexer.IF; reflexivity
                   | exists lexer.THEN; reflexivity
                   | exists lexer.ELSE; reflexivity
                   | exists lexer.WHILE; reflexivity
                   | exists lexer.DO; reflexivity
                   | exists lexer.READ; reflexivity
                   | exists lexer.WRITE; reflexivity
                   | exists lexer.DIV; reflexivity
                   | exists lexer.MOD; reflexivity
                   | exists lexer.ID; reflexivity
                   | exists lexer.NUM; reflexivity
                   | exists lexer.PLUS; reflexivity
                   | exists lexer.MINUS; reflexivity
                   | exists lexer.MULTIPLY; reflexivity
                   | exists lexer.DIVIDE; reflexivity
                   | exists lexer.ASSIGN; reflexivity
                   | exists lexer.EQUAL; reflexivity
                   | exists lexer.NOT_EQUAL; reflexivity
                   | exists lexer.LESS; reflexivity
                   | exists lexer.GREATER; reflexivity
                   | exists lexer.LESS_EQUAL; reflexivity
                   | exists lexer.GREATER_EQUAL; reflexivity
                   | exists lexer.LPAREN; reflexivity
                   | exists lexer.RPAREN; reflexivity
                   | exists lexer.SEMICOLON; reflexivity
                   | exists lexer.COLON; reflexivity
                   | exists lexer.COMMA; reflexivity
                   | exists lexer.DOT; reflexivity
                   | exists lexer.EOF; reflexivity ]
             end|]).
    destruct Ht.
Qed.

End GrammarTables.

(** ** The parser on arbitrary token lists *)

Section ParserInputs.

Import grammar parse_tree parser control.

Lemma advance_tokens_eq p : tokens (advance p) = tokens p.
Proof. unfold advance. destruct (pos p <? length (tokens p) - 1); reflexivity. Qed.

Lemma advance_stack_eq p : stack (advance p) = stack p.
Proof. unfold advance. destruct (pos p <? length (tokens p) - 1); reflexivity. Qed.

(** A continuing step keeps the tokens, and keeps the end marker on the
    stack. *)
Lemma step_continue_any root p p' :
  step root p = Continue p' ->
  tokens p' = tokens p
  /\ (In "$" (symbols p) -> In "$" (symbols p')).
Proof.
  unfold step, symbols. intros Hstep.
  destruct (stack p) as [|[top top_node] stack'] eqn:Hs; [discriminate|].
  destruct (current_token p) as [current|] eqn:Hc; [|discriminate].
  destruct (String.eqb top "$" && String.eqb (get_terminal current) "$")
    eqn:Hacc; [discriminate|].
  assert (Htop : top = "$" -> grammar.is_terminal top
                              && negb (String.eqb top EPSILON) = true
                              /\ String.eqb top (get_terminal current) = false).
  { intros ->. split; [reflexivity|]. simpl in Hacc.
    rewrite String.eqb_sym. exact Hacc. }
  assert (Hrest : forall l : list (string * option nat),
            In "$" (map fst ((top, top_node) :: stack')) ->
            top <> "$" -> In "$" (map fst (l ++ stack'))).
  { intros l Hin Hne. simpl in Hin. destruct Hin as [E|H]; [congruence|].
    rewrite map_app. apply in_or_app. right. exact H. }
  destruct (grammar.is_terminal top && negb (String.eqb top EPSILON))
    eqn:Hterm.
  - destruct (String.eqb top (get_terminal current)) eqn:Hm; [|discriminate].
    injection Hstep as <-. rewrite advance_tokens_eq, advance_stack_eq.
    split; [reflexivity|]. simpl. intros Hin. apply (Hrest []); [exact Hin|].
    intros E. destruct (Htop E) as [_ H]. congruence.
  - assert (Hne : top <> "$") by (intros E; destruct (Htop E); congruence).
    destruct (String.eqb top EPSILON).
    + injection Hstep as <-. split; [reflexivity|]. simpl. intros Hin.
      apply (Hrest []); assumption.
    + destruct (is_nonterminal top).
      * destruct (get_production top (get_terminal current))
          as [production|]; [|discriminate].
        destruct (list_string_eqb production [EPSILON]).
        -- injection Hstep as <-. split; [reflexivity|]. simpl. intros Hin.
           apply (Hrest []); assumption.
        -- destruct (make_children production top_node (heap p)).
           injection Hstep as <-. split; [reflexivity|]. simpl. intros Hin.
           unfold push_all. apply Hrest; assumption.
      * injection Hstep as <-. split; [reflexivity|]. simpl. intros Hin.
        apply (Hrest []); assumption.
Qed.

Lemma current_token_empty p :
  current_token p = None <-> tokens p = [].
Proof.
  unfold current_token. split.
  - destruct (pos p <? length (tokens p)) eqn:E.
    + apply Nat.ltb_lt in E. intros H. apply lookup_ge_None in H. lia.
    + intros H. apply last_None in H. exact H.
  - intros ->. simpl. destruct (pos p); reflexivity.
Qed.

Lemma step_raise_any root p e :
  In "$" (symbols p) -> step root p = Raise e ->
  (e = IndexError <-> tokens p = [])
  /\ ~ raised_unexpected_end (inl e).
Proof.
  unfold step, symbols. intros Hin Hstep.
  destruct (stack p) as [|[top top_node] stack'] eqn:Hs; [destruct Hin|].
  destruct (current_token p) as [current|] eqn:Hc.
  - assert (Hne : tokens p <> []).
    { intros E. apply current_token_empty in E. congruence. }
    repeat match type of Hstep with
           | (if ?c then _ else _) = _ => destruct c
           | match ?c with _ => _ end = _ => destruct c
           end; try discriminate; injection Hstep as <-;
      (split; [split; [discriminate | contradiction]
              | intros [tok E]; discriminate E]).
  - injection Hstep as <-. apply current_token_empty in Hc.
    split; [tauto | intros [tok E]; discriminate E].
Qed.

Lemma parse_loop_errors root fuel :
  forall p r,
    In "$" (symbols p) -> parse_loop fuel root p = Some r ->
    (r = inl IndexError <-> tokens p = [])
    /\ ~ raised_unexpected_end r.
Proof.
  induction fuel as [|fuel IH]; intros p r Hin H; [discriminate|].
  simpl in H. destruct (step root p) as [p'|acc tree|e] eqn:Hstep.
  - destruct (step_continue_any _ _ _ Hstep) as [Htok Hin'].
    rewrite <- Htok. apply IH; auto.
  - injection H as <-. apply step_return in Hstep
      as (current & rest & _ & Hc & _).
    split; [split; [discriminate|] | intros [tok E]; discriminate E].
    intros E. apply current_token_empty in E. congruence.
  - injection H as <-. destruct (step_raise_any _ _ _ Hin Hstep) as [H1 H2].
    split; [|exact H2]. split.
    + intros [= ->]. apply H1. reflexivity.
    + intros E. f_equal. apply H1. exact E.
Qed.

(** X8: on any token list whatever, a run of [parse] that ends never ends
    with the error raised after the loop: the stack is never exhausted.  It
    ends with the [IndexError] of [tokens[-1]] exactly when the token list
    is empty. *)
Theorem X8_parse_edge_errors
    (toks : list lexer.Token) (fuel : nat)
    (r : exn + bool * option ParseTree) :
  parse fuel (new toks) = Some r ->
  ~ raised_unexpected_end r /\ (r = inl IndexError <-> toks = []).
Proof.
  intros H. unfold parse in H.
  apply parse_loop_errors in H; [|simpl; auto]. simpl in H. tauto.
Qed.

Lemma X8_parse_edge_errors_witness :
  ~ raised_unexpected_end (inl IndexError)
  /\ (@inl exn (bool * option ParseTree) IndexError = inl IndexError
      <-> @nil lexer.Token = []).
Proof.
  apply (X8_parse_edge_errors [] 1 (inl IndexError)). reflexivity.
Defined.

(** Two parsers that differ in what follows the first [EOF] token only. *)
Lemma current_token_prefix body eof rest n stk st :
  n <= length body ->
  current_token (mkParser (body ++ eof :: rest) n stk st)
  = current_token (mkParser (body ++ [eof]) n stk st).
Proof.
  intros Hn. unfold current_token. cbn [tokens pos].
  rewrite !length_app. cbn [length].
  replace (n <? length body + S (length rest)) with true
    by (symmetry; apply Nat.ltb_lt; lia).
  replace (n <? length body + 1) with true
    by (symmetry; apply Nat.ltb_lt; lia).
  destruct (Nat.lt_ge_cases n (length body)) as [Hlt|Hge].
  - rewrite !lookup_app_l by assumption. reflexivity.
  - assert (n = length body) as -> by lia.
    rewrite !list_lookup_middle by reflexivity. reflexivity.
Qed.

Lemma parse_loop_prefix body eof rest root fuel :
  lexer.type eof = lexer.EOF ->
  forall n stk st,
    n <= length body ->
    parse_loop fuel root (mkParser (body ++ eof :: rest) n stk st)
    = parse_loop fuel root (mkParser (body ++ [eof]) n stk st).
Proof.
  intros Heof. induction fuel as [|fuel IH]; intros n stk st Hn;
    [reflexivity|].
  cbn [parse_loop]. unfold step.
  rewrite (current_token_prefix body eof rest n stk st Hn).
  cbn [stack tokens pos heap].
  destruct stk as [|[top top_node] stack']; [reflexivity|].
  destruct (current_token (mkParser (body ++ [eof]) n _ st))
    as [current|] eqn:Hc; [|reflexivity].
  destruct (String.eqb top "$" && String.eqb (get_terminal current) "$")
    eqn:Hacc; [reflexivity|].
  destruct (grammar.is_terminal top && negb (String.eqb top EPSILON)).
  - destruct (String.eqb top (get_terminal current)) eqn:Hm; [|reflexivity].
    apply String.eqb_eq in Hm.
    assert (Hlt : n < length body).
    { destruct (Nat.lt_ge_cases n (length body)) as [Hlt|Hge];
        [exact Hlt|]. exfalso. assert (n = length body) as -> by lia.
      unfold current_token in Hc. cbn [tokens pos] in Hc.
      rewrite length_app in Hc. cbn [length] in Hc.
      replace (length body <? length body + 1) with true in Hc
        by (symmetry; apply Nat.ltb_lt; lia).
      rewrite list_lookup_middle in Hc by reflexivity.
      injection Hc as <-.
      apply get_terminal_EOF in Heof. rewrite Heof in Hm, Hacc. subst top.
      discriminate Hacc. }
    unfold advance. cbn [tokens pos stack heap].
    rewrite !length_app. cbn [length].
    replace (n <? length body + S (length rest) - 1) with true
      by (symmetry; apply Nat.ltb_lt; lia).
    replace (n <? length body + 1 - 1) with true
      by (symmetry; apply Nat.ltb_lt; lia).
    apply IH. lia.
  - destruct (String.eqb top EPSILON); [apply IH; exact Hn|].
    destruct (is_nonterminal top); [|apply IH; exact Hn].
    destruct (get_production top (get_terminal current)) as [production|];
      [|reflexivity].
    destruct (list_string_eqb production [EPSILON]); [apply IH; exact Hn|].
    destruct (make_children production top_node st).
    apply IH. exact Hn.
Qed.

(** X9: [parse] never reads past the first [EOF] token: whatever tokens
    follow it, the run and its result (the tree, or the error with its
    token) are those of the token list cut after that [EOF]. *)
Theorem X9_tokens_after_EOF_ignored
    (body rest : list lexer.Token) (eof : lexer.Token) (fuel : nat) :
  lexer.type eof = lexer.EOF ->
  parse fuel (new (body ++ eof :: rest)) = parse fuel (new (body ++ [eof])).
Proof.
  intros Heof. unfold parse, start, new. cbn [tokens pos new_node].
  apply parse_loop_prefix; [exact Heof | lia].
Qed.

Lemma X9_tokens_after_EOF_ignored_witness :
  parse 20 (new (empty_program_body
                 ++ empty_program_eof :: [lexer.mkToken lexer.ID "x" 2 1]))
  = parse 20 (new (empty_program_body ++ [empty_program_eof])).
Proof.
  apply (X9_tokens_after_EOF_ignored empty_program_body
           [lexer.mkToken lexer.ID "x" 2 1] empty_program_eof 20).
  reflexivity.
Defined.

End ParserInputs.

(** ** The tree of an accepted run is a derivation tree *)

Section Derivation.

Import grammar parse_tree parser leaves tree_shape language.

(** What a continuing step does to the store, under the invariant of the
    loop: it records a lexeme in the node on top of the stack, or grafts
    under it the nodes of a production of the table. *)
Lemma step_cases toks p done s i pend p' :
  eof_terminated toks ->
  run_inv toks p done ((s, i) :: pend) ->
  step 0 p = Continue p' ->
  (exists current,
      toks !! pos p = Some current /\ get_terminal current = s
      /\ In s TERMINALS /\ S (pos p) < length toks
      /\ p' = mkParser toks (S (pos p)) (stack_of pend)
                       (set_value i (lexer.value current) (heap p)))
  \/ (exists current production,
         toks !! pos p = Some current
         /\ get_production s (get_terminal current) = Some production
         /\ ((production = [EPSILON]
              /\ p' = mkParser toks (pos p) (stack_of pend)
                               (graft i [fresh EPSILON] (heap p)))
             \/ (list_string_eqb production [EPSILON] = false
                 /\ p' = mkParser toks (pos p)
                           (stack_of
                              (zip production
                                   (seq (length (heap p))
                                        (length production)) ++ pend))
                           (graft i (map fresh production) (heap p))))).
Proof.
  intros Heof Hinv Hstep.
  pose proof (inv_tokens _ _ _ _ Hinv) as Htok.
  pose proof (inv_stack _ _ _ _ Hinv) as Hstack.
  pose proof (inv_pos _ _ _ _ Hinv) as Hpos.
  assert (Heofp : eof_terminated (tokens p)) by (rewrite Htok; exact Heof).
  destruct (current_token_some p Heofp) as [current Hc].
  assert (Hlook : toks !! pos p = Some current).
  { rewrite <- Htok. apply current_token_lookup; [exact Hc|].
    rewrite Htok. exact Hpos. }
  unfold step in Hstep. rewrite Hstack, Hc in Hstep.
  pose proof (inv_pending _ _ _ _ Hinv) as Hpend.
  apply Forall_cons in Hpend as [(Hi & Hne & Hnd & Hgs) _].
  cbn [fst snd] in Hi, Hne, Hnd, Hgs.
  rewrite stack_of_app' in Hstep.
  apply String.eqb_neq in Hnd as Hnd'. rewrite Hnd' in Hstep.
  cbn [andb] in Hstep.
  apply String.eqb_neq in Hne as Hne'. rewrite Hne' in Hstep.
  cbn [negb] in Hstep. rewrite andb_true_r in Hstep.
  destruct (grammar.is_terminal s) eqn:Hterm.
  - destruct (String.eqb s (get_terminal current)) eqn:Hm; [|discriminate].
    apply String.eqb_eq in Hm. injection Hstep as <-.
    set (q := mkParser _ _ _ _).
    assert (Hq : current_token q = Some current)
      by (rewrite <- Hc; apply current_token_same_pos; reflexivity).
    destruct (advance_moves q current Heofp Hq) as [Ha Hlt];
      [congruence|].
    rewrite Ha. subst q. cbn [tokens pos stack heap] in *.
    left. exists current. rewrite Htok in *.
    repeat split; auto.
    unfold grammar.is_terminal in Hterm. rewrite Hne', orb_false_r in Hterm.
    apply mem_In. exact Hterm.
  - cbn [orb] in Hgs. rewrite Hgs in Hstep.
    destruct (get_production s (get_terminal current))
      as [production|] eqn:Hp; [|discriminate].
    right. exists current, production.
    split; [exact Hlook|]. split; [exact Hp|].
    destruct (list_string_eqb production [EPSILON]) eqn:Hpe.
    + injection Hstep as <-. left. rewrite Htok.
      apply list_string_eqb_eq in Hpe. auto.
    + assert (Hilt : i < length (heap p))
        by (eapply lookup_lt_Some; exact Hi).
      rewrite (make_children_graft production i (heap p) Hilt) in Hstep.
      injection Hstep as <-. right. unfold push_all.
      rewrite zip_map_Some, <- stack_of_app, Htok. auto.
Qed.

Lemma node_symbol_set_value st j v i :
  node_symbol (set_value j v st) i = node_symbol st i.
Proof.
  unfold node_symbol, set_value.
  destruct (decide (j = i)) as [->|Hne].
  - rewrite list_lookup_alter_eq. destruct (st !! i); reflexivity.
  - rewrite list_lookup_alter_ne by assumption. reflexivity.
Qed.

Lemma node_symbol_graft st i new c :
  c < length st -> node_symbol (graft i new st) c = node_symbol st c.
Proof.
  intros Hc. unfold node_symbol.
  destruct (decide (c = i)) as [->|Hne].
  - destruct (lookup_lt_is_Some_2 st i Hc) as [n Hn].
    rewrite (graft_lookup_parent _ _ _ _ Hn), Hn. reflexivity.
  - rewrite graft_lookup_old by assumption. reflexivity.
Qed.

Lemma derivation_node_ext st st' n :
  (forall c, In c (children n) -> node_symbol st' c = node_symbol st c) ->
  derivation_node st n -> derivation_node st' n.
Proof.
  unfold derivation_node. intros Hext.
  destruct (children n) as [|c cs] eqn:E; [auto|].
  intros (prods & H1 & H2). exists prods. split; [exact H1|].
  rewrite (map_ext_in _ (node_symbol st)); [exact H2|]. exact Hext.
Qed.

Lemma nodes_ok_match st s i pend v :
  st !! i = Some (fresh s) -> In s TERMINALS ->
  nodes_ok st ((s, i) :: pend) -> nodes_ok (set_value i v st) pend.
Proof.
  intros Hi Hs Hok j n Hj. unfold set_value in Hj.
  destruct (decide (i = j)) as [->|Hne].
  - rewrite list_lookup_alter_eq, Hi in Hj. injection Hj as <-.
    right. unfold derivation_node. simpl. auto.
  - rewrite list_lookup_alter_ne in Hj by assumption.
    destruct (Hok j n Hj) as [[E|H]|H].
    + simpl in E. congruence.
    + left. exact H.
    + right. eapply derivation_node_ext; [|exact H].
      intros; apply node_symbol_set_value.
Qed.

Lemma node_symbol_new st i new k :
  i < length st -> k < length new ->
  node_symbol (graft i new st) (length st + k)
  = match new !! k with Some x => symbol x | None => EmptyString end.
Proof.
  intros Hi Hk. unfold node_symbol.
  destruct (lookup_lt_is_Some_2 new k Hk) as [x Hx].
  rewrite (graft_lookup_new _ _ _ _ _ Hi Hx), Hx. reflexivity.
Qed.

Lemma map_node_symbol_new st i syms :
  i < length st ->
  map (node_symbol (graft i (map fresh syms) st))
      (seq (length st) (length syms)) = syms.
Proof.
  intros Hi. apply list_eq. intros k.
  rewrite list_lookup_fmap.
  destruct (Nat.lt_ge_cases k (length syms)) as [Hk|Hk].
  - rewrite lookup_seq_lt by assumption. simpl.
    rewrite node_symbol_new by (rewrite ?length_map; assumption).
    rewrite list_lookup_fmap.
    destruct (lookup_lt_is_Some_2 syms k Hk) as [x Hx]. rewrite Hx.
    reflexivity.
  - rewrite lookup_seq_ge by assumption. simpl. symmetry.
    apply lookup_ge_None. exact Hk.
Qed.

(** Grafting the nodes of a production [syms] of the symbol [s] under the
    pending node [i]. *)
Lemma nodes_ok_graft st s i pend syms prods newpend :
  store_wf st ->
  st !! i = Some (fresh s) -> syms <> [] ->
  assoc s PRODUCTIONS = Some prods -> In syms prods ->
  (forall k x, syms !! k = Some x ->
               x = EPSILON \/ In (length st + k) (map snd newpend)) ->
  nodes_ok st ((s, i) :: pend) ->
  nodes_ok (graft i (map fresh syms) st) (newpend ++ pend).
Proof.
  intros Hwf Hi Hne Hprods Hin Hnew Hok j n Hj.
  assert (Hilt : i < length st) by (eapply lookup_lt_Some; exact Hi).
  destruct (decide (j = i)) as [->|Hji].
  - rewrite (graft_lookup_parent _ _ _ _ Hi) in Hj. injection Hj as <-.
    right. unfold derivation_node. cbn [children symbol fresh app].
    rewrite length_map.
    destruct (seq (length st) (length syms)) as [|c cs] eqn:E.
    + exfalso. apply (f_equal length) in E. rewrite length_seq in E.
      destruct syms; [congruence | discriminate E].
    + exists prods. split; [exact Hprods|]. rewrite <- E.
      rewrite map_node_symbol_new by assumption. exact Hin.
  - destruct (Nat.lt_ge_cases j (length st)) as [Hj'|Hj'].
    + rewrite graft_lookup_old in Hj by assumption.
      destruct (Hok j n Hj) as [[E|H]|H].
      * simpl in E. congruence.
      * left. rewrite map_app. apply in_or_app. right. exact H.
      * right. eapply derivation_node_ext; [|exact H].
        intros c Hc. apply node_symbol_graft.
        specialize (Hwf j n Hj). rewrite Forall_forall in Hwf.
        apply Hwf, list_elem_of_In, Hc.
    + pose proof (lookup_lt_Some _ _ _ Hj) as Hlt.
      rewrite graft_length, length_map in Hlt.
      destruct (lookup_lt_is_Some_2 syms (j - length st) ltac:(lia))
        as [x Hx].
      assert (Hn : n = fresh x).
      { pose proof (graft_lookup_new i (map fresh syms) st (j - length st)
                      (fresh x) Hilt) as Hg.
        rewrite list_lookup_fmap, Hx in Hg. specialize (Hg eq_refl).
        replace (length st + (j - length st)) with j in Hg by lia.
        congruence. }
      destruct (Hnew _ _ Hx) as [-> | Hp].
      * right. subst n. unfold derivation_node. simpl. auto.
      * left. rewrite map_app. apply in_or_app. left.
        replace (length st + (j - length st)) with j in Hp by lia.
        exact Hp.
Qed.

(** The invariant of the loop, with the nodes: every node is finished or
    waits on the stack, and the symbols of the nodes never change. *)
Lemma nodes_ok_step toks p done pend p' :
  eof_terminated toks -> run_inv toks p done pend ->
  nodes_ok (heap p) pend ->
  step 0 p = Continue p' ->
  node_symbol (heap p') 0 = node_symbol (heap p) 0
  /\ exists done' pend',
      run_inv toks p' done' pend' /\ nodes_ok (heap p') pend'.
Proof.
  intros Heof Hinv Hok Hstep.
  destruct pend as [|[s i] pend].
  { exfalso. unfold step in Hstep.
    rewrite (inv_stack _ _ _ _ Hinv) in Hstep.
    assert (Heofp : eof_terminated (tokens p))
      by (rewrite (inv_tokens _ _ _ _ Hinv); exact Heof).
    destruct (current_token_some p Heofp) as [current Hc].
    rewrite Hc in Hstep. cbn [stack_of map app] in Hstep.
    change (String.eqb "$" "$") with true in Hstep. cbn [andb] in Hstep.
    destruct (String.eqb (get_terminal current) "$") eqn:E; [discriminate|].
    change (grammar.is_terminal "$" && negb (String.eqb "$" EPSILON))
      with true in Hstep. cbn iota in Hstep.
    rewrite String.eqb_sym, E in Hstep. discriminate. }
  pose proof (inv_pending _ _ _ _ Hinv) as Hpend.
  apply Forall_cons in Hpend as [(Hi & Hne & Hnd & Hgs) _].
  cbn [fst snd] in Hi, Hne, Hnd, Hgs.
  pose proof (inv_wf _ _ _ _ Hinv) as Hwf.
  pose proof (inv_root _ _ _ _ Hinv) as Hroot.
  assert (Hilt : i < length (heap p)) by (eapply lookup_lt_Some; exact Hi).
  destruct (step_cases _ _ _ _ _ _ _ Heof Hinv Hstep)
    as [(current & Hlook & Hterm & Hs & Hlt & ->)
       | (current & production & Hlook & Hp
          & [(-> & ->) | (Hpe & ->)])]; cbn [heap].
  - split; [apply node_symbol_set_value|].
    exists (done ++ [i]), pend. split.
    + apply inv_match with (s := s); auto.
    + apply nodes_ok_match with (s := s); auto.
  - split; [apply node_symbol_graft; exact Hroot|].
    destruct (table_productions _ _ _ Hp) as (prods & Hprods & Hin).
    exists done, pend. split.
    + apply (inv_graft toks p done s i pend [fresh EPSILON] []); auto;
        try discriminate; repeat constructor.
    + apply (nodes_ok_graft (heap p) s i pend [EPSILON] prods []
               Hwf Hi); auto; try discriminate.
      intros [|k] x Hx; [|discriminate]. injection Hx as <-. auto.
  - split; [apply node_symbol_graft; exact Hroot|].
    destruct (production_symbols _ _ _ Hp Hpe) as [Hnn Hsyms].
    destruct (table_productions _ _ _ Hp) as (prods & Hprods & Hin).
    assert (Hne_eps : Forall (fun s => s <> EPSILON) production).
    { eapply List.Forall_impl; [|exact Hsyms]. simpl. tauto. }
    assert (Hsnd : map snd (zip production
                                (seq (length (heap p)) (length production)))
                   = seq (length (heap p)) (length production)).
    { apply snd_zip. rewrite length_seq. lia. }
    exists done, (zip production (seq (length (heap p))
                                      (length production)) ++ pend).
    split.
    + apply (inv_graft toks p done s i pend (map fresh production)); auto.
      * intros E. apply Hnn. destruct production; [reflexivity|].
        discriminate E.
      * apply Forall_forall. intros x Hx.
        apply list_elem_of_fmap in Hx as (y & -> & _). reflexivity.
      * rewrite (new_leaf_ids_fresh _ _ Hne_eps). exact Hsnd.
      * apply Forall_forall. intros [s' j] Hj.
        apply list_elem_of_lookup in Hj as [k Hk].
        apply lookup_zip_with_Some in Hk
          as (x & y & [= <- <-] & Hx & Hy).
        apply lookup_seq in Hy as [-> Hklt].
        rewrite List.Forall_forall in Hsyms.
        specialize (Hsyms s' ltac:(apply list_elem_of_In,
                                    list_elem_of_lookup; eauto)).
        split; [|exact Hsyms]. cbn [fst snd].
        apply graft_lookup_new; [exact Hilt|].
        rewrite list_lookup_fmap, Hx. reflexivity.
    + apply (nodes_ok_graft (heap p) s i pend production prods _
               Hwf Hi); auto.
      intros k x Hx. right. rewrite Hsnd. apply in_seq.
      apply lookup_lt_Some in Hx. lia.
Qed.

Lemma nodes_ok_start toks :
  nodes_ok (heap (start (new toks))) [("Program", 0)].
Proof.
  intros [|i] n Hn; [|discriminate]. left. simpl. auto.
Qed.

(** At the accepting step every node is finished, and the leaves hold the
    tokens before the current one, which is [EOF]. *)
Lemma parse_loop_tree toks fuel :
  eof_terminated toks ->
  forall p done pend b tree,
    run_inv toks p done pend -> nodes_ok (heap p) pend ->
    node_symbol (heap p) 0 = "Program" ->
    parse_loop fuel 0 p = Some (inr (b, Some tree)) ->
    derivation_tree tree
    /\ exists k current,
        toks !! k = Some current /\ get_terminal current = "$"
        /\ forall fuel', length (nodes tree) <= fuel' ->
             map (node_info (nodes tree)) (leaf_ids fuel' (nodes tree) 0)
             = map token_leaf (take k toks).
Proof.
  intros Heof. induction fuel as [|fuel IH];
    intros p done pend b tree Hinv Hok Hsym H; [discriminate|].
  simpl in H. destruct (step 0 p) as [p'|acc tree'|e] eqn:Hstep.
  - destruct (nodes_ok_step _ _ _ _ _ Heof Hinv Hok Hstep)
      as (Hsym' & done' & pend' & Hinv' & Hok').
    eapply IH; try eassumption. congruence.
  - injection H as <- <-.
    apply step_return in Hstep as (current & rest & Hs & Hc & Ht & _ & ->).
    unfold control.symbols in Hs. rewrite (inv_stack _ _ _ _ Hinv) in Hs.
    pose proof (inv_tokens _ _ _ _ Hinv) as Htok.
    pose proof (inv_pos _ _ _ _ Hinv) as Hpos.
    destruct pend as [|[s i] pend].
    + split.
      * unfold derivation_tree. cbn [nodes root].
        split; [reflexivity|]. split; [exact Hsym|].
        split; [apply (inv_wf _ _ _ _ Hinv)|].
        intros i n Hn. destruct (Hok i n Hn) as [[]|H]. exact H.
      * exists (pos p), current. split.
        { rewrite <- Htok. apply current_token_lookup; [exact Hc|].
          rewrite Htok. exact Hpos. }
        split; [exact Ht|]. cbn [nodes]. intros fuel' Hf.
        rewrite (inv_leaves _ _ _ _ Hinv) by exact Hf.
        cbn [map]. rewrite app_nil_r. apply (inv_done _ _ _ _ Hinv).
    + exfalso. pose proof (inv_pending _ _ _ _ Hinv) as Hpend.
      apply Forall_cons in Hpend as [(_ & _ & Hnd & _) _].
      cbn in Hs. injection Hs as E _. apply Hnd. exact E.
  - discriminate.
Qed.

Lemma accepted_tree body eof fuel tree :
  lexer.type eof = lexer.EOF ->
  Forall (fun tok => lexer.type tok <> lexer.EOF) body ->
  parse fuel (new (body ++ [eof])) = Some (inr (true, Some tree)) ->
  derivation_tree tree
  /\ forall fuel', length (nodes tree) <= fuel' ->
       map (node_info (nodes tree)) (leaf_ids fuel' (nodes tree) 0)
       = map token_leaf body.
Proof.
  intros Heof Hbody H. unfold parse in H.
  apply (parse_loop_tree (body ++ [eof])) with (done := [])
    (pend := [("Program", 0)]) in H as (Ht & k & current & Hk & Hc & Hl).
  - split; [exact Ht|].
    assert (Ek : k = length body).
    { apply get_terminal_EOF in Hc.
      destruct (Nat.lt_ge_cases k (length body)) as [Hlt|Hge].
      - rewrite lookup_app_l in Hk by assumption.
        rewrite Forall_forall in Hbody. exfalso.
        apply (Hbody current); [|assumption].
        apply list_elem_of_lookup. eauto.
      - apply lookup_lt_Some in Hk. rewrite length_app in Hk. simpl in Hk.
        lia. }
    intros fuel' Hf. rewrite (Hl fuel' Hf), Ek, take_app_length.
    reflexivity.
  - apply eof_terminated_app, Heof.
  - apply run_inv_start. rewrite length_app. simpl. lia.
  - apply nodes_ok_start.
  - reflexivity.
Qed.

(** The terminal leaves below a node of a finished store spell a sequence
    that the symbol of the node derives. *)
Lemma tree_derives st :
  store_wf st ->
  (forall i n, st !! i = Some n -> derivation_node st n) ->
  forall fuel i n,
    st !! i = Some n -> length st - i <= fuel ->
    derives (symbol n)
            (map (fun j => fst (node_info st j)) (leaf_ids fuel st i)).
Proof.
  intros Hwf Hnodes. induction fuel as [|fuel IH]; intros i n Hn Hf.
  { apply lookup_lt_Some in Hn. lia. }
  cbn [leaf_ids]. rewrite Hn.
  pose proof (Hnodes i n Hn) as Hd. pose proof (Hwf i n Hn) as Hch.
  unfold derivation_node in Hd.
  destruct (is_epsilon n) eqn:Ee.
  { unfold is_epsilon in Ee. apply String.eqb_eq in Ee. rewrite Ee.
    apply derives_epsilon. }
  destruct (children n) as [|c cs] eqn:Ec.
  - cbn [length Nat.eqb map]. unfold node_info. rewrite Hn. cbn [fst].
    destruct Hd as [E|Ht].
    + unfold is_epsilon in Ee. apply String.eqb_neq in Ee.
      exfalso. apply Ee. exact E.
    + apply derives_terminal. exact Ht.
  - cbn [length Nat.eqb]. destruct Hd as (prods & Hp & Hin).
    apply (derives_production _ prods (map (node_symbol st) (c :: cs)));
      [exact Hp | exact Hin |].
    clear Hin Ec. induction Hch as [|c' cs' Hc' _ IHcs].
    + apply derives_nil.
    + cbn [map flat_map]. rewrite map_app. apply derives_cons; [|exact IHcs].
      destruct (lookup_lt_is_Some_2 st c' ltac:(lia)) as [m Hm].
      unfold node_symbol at 1. rewrite Hm. apply IH; [exact Hm | lia].
Qed.

(** X10: the tree that [parse] returns for an accepted token sequence is a
    derivation tree of the grammar: the root is node 0 with the symbol
    [Program], the children of every node are allocated after it, a node
    without children is an epsilon or a terminal node, and the children of
    any other node spell, in order, one of the productions that
    [PRODUCTIONS] lists for the symbol of the node. *)
Theorem X10_accepted_tree_is_derivation_tree
    (body : list lexer.Token) (eof : lexer.Token) (fuel : nat)
    (tree : ParseTree) :
  lexer.type eof = lexer.EOF ->
  Forall (fun tok => lexer.type tok <> lexer.EOF) body ->
  parse fuel (new (body ++ [eof])) = Some (inr (true, Some tree)) ->
  derivation_tree tree.
Proof.
  intros Heof Hbody H.
  apply (accepted_tree body eof fuel tree Heof Hbody H).
Qed.

Lemma X10_accepted_tree_is_derivation_tree_witness :
  derivation_tree empty_program_tree.
Proof.
  apply (X10_accepted_tree_is_derivation_tree empty_program_body
           empty_program_eof 20 empty_program_tree).
  - reflexivity.
  - repeat constructor; discriminate.
  - vm_compute. reflexivity.
Defined.

(** X11: [parse] is sound for the grammar: when it accepts a token
    sequence (tokens other than [EOF], then the [EOF] token), the productions
    of [PRODUCTIONS] derive the terminals of the tokens before [EOF] from
    [Program]. *)
Theorem X11_accepted_tokens_are_derivable
    (body : list lexer.Token) (eof : lexer.Token) (fuel : nat)
    (tree : ParseTree) :
  lexer.type eof = lexer.EOF ->
  Forall (fun tok => lexer.type tok <> lexer.EOF) body ->
  parse fuel (new (body ++ [eof])) = Some (inr (true, Some tree)) ->
  derives "Program" (map get_terminal body).
Proof.
  intros Heof Hbody H.
  destruct (accepted_tree body eof fuel tree Heof Hbody H)
    as ((_ & Hsym & Hwf & Hnodes) & Hl).
  unfold node_symbol in Hsym.
  destruct (nodes tree !! 0) as [n|] eqn:Hn; [|discriminate].
  pose proof (tree_derives (nodes tree) Hwf Hnodes (length (nodes tree))
                0 n Hn ltac:(lia)) as Hd.
  rewrite Hsym in Hd.
  rewrite <- (map_map (node_info (nodes tree)) fst) in Hd.
  rewrite (Hl _ (Nat.le_refl _)), map_map in Hd. exact Hd.
Qed.

Lemma X11_accepted_tokens_are_derivable_witness :
  derives "Program" (map get_terminal empty_program_body).
Proof.
  apply (X11_accepted_tokens_are_derivable empty_program_body
           empty_program_eof 20 empty_program_tree).
  - reflexivity.
  - repeat constructor; discriminate.
  - vm_compute. reflexivity.
Defined.

End Derivation.

(** ** A block that starts with a semicolon *)

Section BlockStart.

Import grammar parser control block_start language.

Lemma begin_guarded_tail x l :
  begin_guarded (x :: l) = true -> begin_guarded l = true.
Proof. simpl. intros H. apply andb_true_iff in H as [_ H]. exact H. Qed.

Lemma begin_guarded_begin l :
  begin_guarded ("begin" :: l) = true -> exists rest, l = "StmtList" :: rest.
Proof.
  simpl. intros H. apply andb_true_iff in H as [H _].
  destruct l as [|y l]; [discriminate|].
  apply String.eqb_eq in H. subst y. eauto.
Qed.

Lemma begin_guarded_app a b :
  begin_guarded a = true -> begin_guarded b = true ->
  begin_guarded (a ++ b) = true.
Proof.
  intros Ha Hb. induction a as [|x a IH]; [exact Hb|].
  cbn [app begin_guarded] in *. apply andb_true_iff in Ha as [H1 H2].
  apply andb_true_iff. split; [|apply IH; exact H2].
  destruct (String.eqb x "begin"); [|reflexivity].
  destruct a as [|y a]; [discriminate | exact H1].
Qed.

Lemma table_begin_guarded A t alpha :
  get_production A t = Some alpha -> begin_guarded alpha = true.
Proof.
  intros H.
  exact (table_forall (fun e => begin_guarded e.2) _ _ _
           ltac:(vm_compute; reflexivity) H).
Qed.

Lemma guarded_step p p' :
  step_kind p p' -> begin_guarded (symbols p) = true ->
  begin_guarded (symbols p') = true.
Proof.
  intros [top current Hs _ _ _ _ _ _
         | top current Hs _ _ _ _ _
         | top current production rest Hs Hs' _ _ Hp _ _ _] Hg.
  - rewrite Hs in Hg. eapply begin_guarded_tail, Hg.
  - rewrite Hs in Hg. eapply begin_guarded_tail, Hg.
  - rewrite Hs in Hg. rewrite Hs'. apply begin_guarded_app.
    + eapply table_begin_guarded, Hp.
    + eapply begin_guarded_tail, Hg.
Qed.

Lemma no_production_StmtList_semicolon :
  get_production "StmtList" ";" = None.
Proof. reflexivity. Qed.

Lemma after_begin_step p p' :
  step_kind p p' -> begin_guarded (symbols p) = true ->
  after_begin p -> after_begin p'.
Proof.
  intros [top current Hs Hc Htop _ Htok Hpos Hlt
         | top current Hs Hc _ Hcase Htok Hpos
         | top current production rest Hs Hs' Hc Hnt Hp _ Htok Hpos] Hg Ha
         k b c Hk Hb Hbt Hcur Hct.
  - rewrite Hpos in Hk. injection Hk as <-. rewrite Htok in Hb.
    rewrite (current_token_lookup p current Hc ltac:(lia)) in Hb.
    injection Hb as <-. rewrite Hs, Htop, Hbt in Hg.
    apply begin_guarded_begin, Hg.
  - rewrite (current_token_same_pos p p' Htok Hpos) in Hcur.
    rewrite Hpos in Hk. rewrite Htok in Hb.
    destruct (Ha k b c Hk Hb Hbt Hcur Hct) as [rest E].
    exfalso. rewrite Hs in E. injection E as -> _.
    rewrite Hc in Hcur. injection Hcur as ->. rewrite Hct in Hcase.
    destruct Hcase as [E | [[_ E] | [_ E]]]; discriminate E.
  - rewrite (current_token_same_pos p p' Htok Hpos) in Hcur.
    rewrite Hpos in Hk. rewrite Htok in Hb.
    destruct (Ha k b c Hk Hb Hbt Hcur Hct) as [rest' E].
    exfalso. rewrite Hs in E. injection E as -> _.
    rewrite Hc in Hcur. injection Hcur as ->. rewrite Hct in Hp.
    discriminate Hp.
Qed.

(** A run that has not passed a [begin] followed by [;] does not accept. *)
Lemma begin_semicolon_loop root fuel :
  forall p k b s,
    eof_terminated (tokens p) ->
    begin_guarded (symbols p) = true -> after_begin p ->
    pos p <= S k ->
    tokens p !! k = Some b -> get_terminal b = "begin" ->
    tokens p !! S k = Some s -> get_terminal s = ";" ->
    (forall j t, j <= S k -> tokens p !! j = Some t ->
                 get_terminal t <> "$") ->
    forall res, parse_loop fuel root p <> Some (inr res).
Proof.
  induction fuel as [|fuel IH];
    intros p k b s Heof Hg Ha Hpos Hb Hbt Hs Hst Hnon res H;
    [discriminate|].
  pose proof (lookup_lt_Some _ _ _ Hs) as Hlen.
  simpl in H. destruct (step root p) as [p'|acc tree|e] eqn:Hstep.
  - pose proof (step_continue _ _ _ Heof Hstep) as Hk.
    pose proof (guarded_step _ _ Hk Hg) as Hg'.
    pose proof (after_begin_step _ _ Hk Hg Ha) as Ha'.
    assert (Htok : tokens p' = tokens p /\ pos p' <= S k).
    { destruct Hk as [top current Hsy Hc Htop _ Htok Hpos' Hlt
                     | top current _ _ _ _ Htok Hpos'
                     | top current production rest _ _ _ _ _ _ Htok Hpos'].
      - split; [exact Htok|]. rewrite Hpos'.
        destruct (Nat.eq_dec (pos p) (S k)) as [E|E]; [|lia].
        exfalso.
        pose proof (current_token_lookup p current Hc ltac:(lia)) as Hcl.
        rewrite E, Hs in Hcl. injection Hcl as <-.
        destruct (Ha k b s E Hb Hbt Hc Hst) as [rest E'].
        rewrite Hsy in E'. injection E' as E' _.
        rewrite Htop, Hst in E'. discriminate E'.
      - split; [exact Htok | lia].
      - split; [exact Htok | lia]. }
    destruct Htok as [Htok Hpos'].
    apply (IH p' k b s) with (res := res); rewrite ?Htok; auto.
  - apply step_return in Hstep as (current & rest & _ & Hc & Ht & _).
    apply (Hnon (pos p) current Hpos); [|exact Ht].
    apply current_token_lookup; [exact Hc | lia].
  - discriminate.
Qed.

Lemma begin_semicolon_rejected pre b s post fuel r :
  Forall (fun tok => lexer.type tok <> lexer.EOF) pre ->
  lexer.type b = lexer.BEGIN -> lexer.type s = lexer.SEMICOLON ->
  eof_terminated (pre ++ b :: s :: post) ->
  parse fuel (new (pre ++ b :: s :: post)) = Some r ->
  raised_mismatch r \/ raised_no_production r.
Proof.
  intros Hpre Hb Hs Heof H.
  assert (Hbt : get_terminal b = "begin")
    by (unfold get_terminal; rewrite Hb; reflexivity).
  assert (Hst : get_terminal s = ";")
    by (unfold get_terminal; rewrite Hs; reflexivity).
  unfold parse in H.
  destruct r as [e|res].
  - assert (Hin : In "$" (symbols (start (new (pre ++ b :: s :: post)))))
      by (simpl; auto).
    destruct (parse_loop_errors _ _ _ _ Hin H) as [Hi Hu].
    destruct e as [kind tok|].
    + destruct kind as [expected found|nonterminal terminal|].
      * left. exists expected, found, tok. reflexivity.
      * right. exists nonterminal, terminal, tok. reflexivity.
      * exfalso. apply Hu. exists tok. reflexivity.
    + exfalso. destruct Hi as [Hi _]. specialize (Hi eq_refl).
      simpl in Hi. destruct pre; discriminate Hi.
  - exfalso. revert H.
    apply (begin_semicolon_loop 0 fuel _ (length pre) b s);
      change (tokens (start (new (pre ++ b :: s :: post))))
        with (pre ++ b :: s :: post);
      change (pos (start (new (pre ++ b :: s :: post)))) with 0.
    + exact Heof.
    + reflexivity.
    + intros k b' c Hk. discriminate Hk.
    + lia.
    + apply list_lookup_middle. reflexivity.
    + exact Hbt.
    + rewrite lookup_app_r by lia.
      replace (S (length pre) - length pre) with 1 by lia. reflexivity.
    + exact Hst.
    + intros j t Hj Ht Ht'. apply get_terminal_EOF in Ht'.
      destruct (Nat.lt_ge_cases j (length pre)) as [Hlt|Hge].
      * rewrite lookup_app_l in Ht by assumption.
        rewrite Forall_forall in Hpre. apply (Hpre t); [|exact Ht'].
        apply list_elem_of_lookup. eauto.
      * rewrite lookup_app_r in Ht by assumption.
        destruct (j - length pre) as [|[|n]] eqn:E; [| |lia];
          injection Ht as <-; congruence.
Qed.

(** X12: [parse] never accepts a token sequence in which the token [;]
    directly follows the token [begin] (tokens other than [EOF] before
    them): every run that ends, ends with one of the two errors of the
    loop. *)
Theorem X12_semicolon_after_begin_rejected
    (pre : list lexer.Token) (b s : lexer.Token) (post : list lexer.Token)
    (fuel : nat) (r : exn + bool * option parse_tree.ParseTree) :
  Forall (fun tok => lexer.type tok <> lexer.EOF) pre ->
  lexer.type b = lexer.BEGIN -> lexer.type s = lexer.SEMICOLON ->
  eof_terminated (pre ++ b :: s :: post) ->
  parse fuel (new (pre ++ b :: s :: post)) = Some r ->
  raised_mismatch r \/ raised_no_production r.
Proof. apply begin_semicolon_rejected. Qed.

Lemma X12_semicolon_after_begin_rejected_witness :
  raised_mismatch
    (inl (ParserError (NoProduction "StmtList" ";")
            (Some (lexer.mkToken lexer.SEMICOLON ";" 1 18))))
  \/ raised_no_production
       (inl (ParserError (NoProduction "StmtList" ";")
               (Some (lexer.mkToken lexer.SEMICOLON ";" 1 18)))).
Proof.
  apply (X12_semicolon_after_begin_rejected
           [ lexer.mkToken lexer.PROGRAM "program" 1 1;
             lexer.mkToken lexer.ID "t" 1 9;
             lexer.mkToken lexer.SEMICOLON ";" 1 10 ]
           (lexer.mkToken lexer.BEGIN "begin" 1 12)
           (lexer.mkToken lexer.SEMICOLON ";" 1 18)
           [ lexer.mkToken lexer.END "end" 1 20;
             lexer.mkToken lexer.DOT "." 1 23;
             lexer.mkToken lexer.EOF "$" 1 24 ]
           20).
  - repeat constructor; discriminate.
  - reflexivity.
  - reflexivity.
  - eexists. split; reflexivity.
  - vm_compute. reflexivity.
Defined.

Lemma derives_terminal_seq t alpha w :
  In t TERMINALS -> derives_seq alpha w -> derives_seq (t :: alpha) (t :: w).
Proof.
  intros Ht H. apply (derives_cons t alpha [t] w); [|exact H].
  apply derives_terminal, Ht.
Qed.

Lemma derives_empty A prods :
  assoc A PRODUCTIONS = Some prods -> In [EPSILON] prods -> derives A [].
Proof.
  intros Hp Hin. apply (derives_production A prods [EPSILON] []); auto.
  apply (derives_cons EPSILON [] [] []); constructor.
Qed.

Lemma derives_empty_statement :
  derives "Program" (map get_terminal empty_statement_body).
Proof.
  assert (T : forall t, mem t TERMINALS = true -> In t TERMINALS)
    by (intros t; apply mem_In).
  assert (Hdecl : derives "Declarations" [])
    by (eapply derives_empty; [reflexivity | simpl; auto]).
  assert (Hstmt : derives "Statement" [])
    by (eapply derives_empty; [reflexivity | simpl; auto 10]).
  assert (Hlp0 : derives "StmtListP" [])
    by (eapply derives_empty; [reflexivity | simpl; auto]).
  assert (Hlp : derives "StmtListP" [";"]).
  { eapply (derives_production _ _ [";"; "Statement"; "StmtListP"]);
      [reflexivity | simpl; auto |].
    apply derives_terminal_seq; [apply T; reflexivity|].
    apply (derives_cons _ _ [] []); [exact Hstmt|].
    apply (derives_cons _ _ [] []); [exact Hlp0 | constructor]. }
  assert (Hl : derives "StmtList" [";"]).
  { eapply (derives_production _ _ ["Statement"; "StmtListP"]);
      [reflexivity | simpl; auto |].
    apply (derives_cons _ _ [] [";"]); [exact Hstmt|].
    apply (derives_cons _ _ [";"] []); [exact Hlp | constructor]. }
  assert (Hb : derives "Block" ["begin"; ";"; "end"]).
  { eapply (derives_production _ _
              ["Declarations"; "begin"; "StmtList"; "end"]);
      [reflexivity | simpl; auto |].
    apply (derives_cons _ _ [] ["begin"; ";"; "end"]); [exact Hdecl|].
    apply derives_terminal_seq; [apply T; reflexivity|].
    apply (derives_cons _ _ [";"] ["end"]); [exact Hl|].
    apply derives_terminal_seq; [apply T; reflexivity | constructor]. }
  eapply (derives_production _ _ ["program"; "id"; ";"; "Block"; "."]);
    [reflexivity | simpl; auto |].
  cbn [map empty_statement_body].
  repeat (apply derives_terminal_seq; [apply T; reflexivity|]).
  apply (derives_cons _ _ ["begin"; ";"; "end"] ["."]); [exact Hb|].
  apply derives_terminal_seq; [apply T; reflexivity | constructor].
Qed.

(** X13: [parse] is not complete for the grammar: [PRODUCTIONS] derive the
    terminals of [program t; begin ; end.] from [Program] (the first
    statement of the block is empty), and [parse] raises
    [No production for [StmtList, ;]] on these tokens, whatever the [EOF]
    token after them. *)
Theorem X13_derivable_program_rejected :
  exists body tok,
    Forall (fun t => lexer.type t <> lexer.EOF) body
    /\ derives "Program" (map get_terminal body)
    /\ forall eof, lexer.type eof = lexer.EOF ->
         exists fuel,
           parse fuel (new (body ++ [eof]))
           = Some (inl (ParserError (NoProduction "StmtList" ";")
                          (Some tok))).
Proof.
  exists empty_statement_body, (lexer.mkToken lexer.SEMICOLON ";" 1 18).
  split; [repeat constructor; discriminate|].
  split; [exact derives_empty_statement|].
  intros [ty v l c] Hty. cbn in Hty. subst ty. exists 20.
  vm_compute. reflexivity.
Qed.

End BlockStart.

(** ** A token list that does not end with [EOF] *)

Section Runaway.

Import grammar parser control runaway.

Lemma at_open_paren_step root p :
  at_open_paren p -> exists p', step root p = Continue p' /\ at_open_paren p'.
Proof.
  intros ((tok & Hc & Ht) & Hpos & rest & Hs).
  destruct p as [toks n stk st]. unfold symbols in Hs. cbn [stack] in Hs.
  cbn [tokens pos] in Hpos.
  assert (Hcur : forall stk' st',
            current_token (mkParser toks n stk' st') = Some tok) by (intros; exact Hc).
  unfold step. cbn [stack tokens pos heap]. 
  destruct stk as [|[top node] stk'];
    [destruct Hs as [E|[E|[E|E]]]; discriminate E|].
  rewrite Hc. cbv zeta. rewrite Ht.
  destruct Hs as [E|[E|[E|E]]]; cbn [map fst] in E.
  - injection E as -> Hr. cbn. eexists. split; [reflexivity|].
    split; [exists tok; split; [apply Hcur | exact Ht]|].
    split; [exact Hpos|]. unfold symbols. cbn. eauto.
  - injection E as -> Hr. cbn. eexists. split; [reflexivity|].
    split; [exists tok; split; [apply Hcur | exact Ht]|].
    split; [exact Hpos|]. unfold symbols. cbn. eauto.
  - injection E as -> Hr. cbn. eexists. split; [reflexivity|].
    split; [exists tok; split; [apply Hcur | exact Ht]|].
    split; [exact Hpos|]. unfold symbols. cbn. eauto 6.
  - injection E as -> Hr.
    change (("(" =? "$")%string) with false.
    change (is_terminal "(" && negb ("(" =? EPSILON)%string) with true.
    change (("(" =? "(")%string) with true. cbv iota. cbn [andb].
    unfold advance. cbn [tokens pos stack heap].
    replace (n <? length toks - 1) with false
      by (symmetry; apply Nat.ltb_ge; exact Hpos).
    eexists. split; [reflexivity|].
    split; [exists tok; split; [apply Hcur | exact Ht]|].
    split; [exact Hpos|]. unfold symbols. cbn [stack].
    destruct stk' as [|[s2 n2] stk2]; [discriminate Hr|].
    cbn [map fst] in *. injection Hr as -> Hr. eauto.
Qed.

(** From such a state the loop of [parse] never ends. *)
Lemma at_open_paren_loop root fuel :
  forall p, at_open_paren p -> parse_loop fuel root p = None.
Proof.
  induction fuel as [|fuel IH]; intros p Hp; [reflexivity|].
  destruct (at_open_paren_step root p Hp) as (p' & Hstep & Hp').
  simpl. rewrite Hstep. apply IH, Hp'.
Qed.

Lemma parse_loop_iterations k root fuel :
  forall p p',
    iterations k root p = Some p' ->
    parse_loop (k + fuel) root p = parse_loop fuel root p'.
Proof.
  induction k as [|k IH]; intros p p' H.
  - injection H as <-. reflexivity.
  - cbn [iterations] in H. cbn [Nat.add parse_loop].
    destruct (step root p) as [q| |]; try discriminate. apply IH, H.
Qed.

(** A run that reaches such a state never ends. *)
Lemma runaway_parse k toks p :
  iterations k 0 (start (new toks)) = Some p -> at_open_paren p ->
  forall fuel, parse fuel (new toks) = None.
Proof.
  intros Hk Hp fuel. unfold parse.
  destruct (parse_loop fuel 0 (start (new toks))) as [r|] eqn:E;
    [|reflexivity].
  apply (parse_loop_mono _ (k + fuel)) in E; [|lia].
  rewrite (parse_loop_iterations k 0 fuel _ p Hk) in E.
  rewrite (at_open_paren_loop 0 fuel p Hp) in E. discriminate E.
Qed.

(** X14: on a token list that does not end with [EOF], [parse] can run
    forever.  On the tokens of [program t; begin x := (] the cursor stays
    on the last token, the [(], which is matched again and again while the
    stack grows: no number of iterations ends the loop. *)
Theorem X14_parse_runs_forever_without_EOF (fuel : nat) :
  parse fuel (new open_paren_tokens) = None.
Proof.
  destruct (iterations 11 0 (start (new open_paren_tokens))) as [p|] eqn:E;
    [|vm_compute in E; discriminate E].
  apply (runaway_parse 11 _ p E). vm_compute in E. injection E as <-.
  split; [|split].
  - exists (lexer.mkToken lexer.LPAREN "(" 1 23). split; reflexivity.
  - cbn. lia.
  - eexists. left. reflexivity.
Qed.

End Runaway.

(** ** The outputs of a parse tree *)

Section TreeOutput.

Import parse_tree parser tree_output.

Lemma filter_flat_map {A B} (P : B -> Prop) `{forall x, Decision (P x)}
    (f : A -> list B) (l : list A) :
  filter P (flat_map f l) = flat_map (fun x => filter P (f x)) l.
Proof.
  induction l as [|x l IH]; [reflexivity|].
  cbn [flat_map]. rewrite filter_app, IH. reflexivity.
Qed.

Lemma epsilon_leaves_lookup st i n :
  epsilon_leaves st = true -> st !! i = Some n -> is_epsilon n = true ->
  children n = [].
Proof.
  unfold epsilon_leaves. intros H Hn E. rewrite forallb_forall in H.
  specialize (H n ltac:(apply list_elem_of_In, list_elem_of_lookup; eauto)).
  rewrite E in H. cbn [implb] in H. apply Nat.eqb_eq in H.
  destruct (children n); [reflexivity | discriminate H].
Qed.

Lemma preorder_nodes_filter st :
  epsilon_leaves st = true ->
  forall fuel node depth,
    preorder_nodes fuel st node depth false
    = filter (fun dn => is_epsilon (snd dn) = false)
             (preorder_nodes fuel st node depth true).
Proof.
  intros Heps. induction fuel as [|fuel IH]; intros node depth;
    [reflexivity|].
  cbn [preorder_nodes]. destruct node as [i|]; [|reflexivity].
  destruct (st !! i) as [n|] eqn:Hn; [|reflexivity].
  cbn [negb]. rewrite andb_true_r, andb_false_r.
  destruct (is_epsilon n) eqn:E.
  - rewrite (epsilon_leaves_lookup st i n Heps Hn E). cbn [flat_map].
    rewrite filter_cons_False; [reflexivity|]. cbn [snd]. congruence.
  - rewrite filter_cons_True by exact E. f_equal.
    rewrite filter_flat_map. apply flat_map_ext. intros c. apply IH.
Qed.

(** X15: in a tree whose epsilon nodes have no children, the traversal
    that leaves epsilon out is the traversal that includes it without the
    lines of the epsilon nodes: the other nodes are visited in the same
    order and at the same depths. *)
Theorem X15_traversal_without_epsilon (t : ParseTree) :
  epsilon_leaves (nodes t) = true ->
  preorder_traversal t true
  = map (fun dn => node_str (fst dn) (snd dn))
        (preorder_nodes (S (length (nodes t))) (nodes t) (root t) 0 true)
  /\ preorder_traversal t false
     = map (fun dn => node_str (fst dn) (snd dn))
           (filter (fun dn => is_epsilon (snd dn) = false)
                   (preorder_nodes (S (length (nodes t))) (nodes t)
                                   (root t) 0 true)).
Proof.
  intros H. unfold preorder_traversal.
  rewrite !preorder_helper_nodes. split; [reflexivity|].
  rewrite (preorder_nodes_filter _ H). reflexivity.
Qed.

Lemma X15_traversal_without_epsilon_witness :
  preorder_traversal build_sample_tree true
  = map (fun dn => node_str (fst dn) (snd dn))
        (preorder_nodes (S (length (nodes build_sample_tree)))
           (nodes build_sample_tree) (root build_sample_tree) 0 true)
  /\ preorder_traversal build_sample_tree false
     = map (fun dn => node_str (fst dn) (snd dn))
           (filter (fun dn => is_epsilon (snd dn) = false)
                   (preorder_nodes (S (length (nodes build_sample_tree)))
                      (nodes build_sample_tree) (root build_sample_tree)
                      0 true)).
Proof.
  apply (X15_traversal_without_epsilon build_sample_tree).
  vm_compute. reflexivity.
Defined.

(** X16: [build_sample_tree] builds the tree of the program that its
    comment names: both traversals and the graphical view of the sample
    tree are those of the tree that [parse_string] returns for
    [program test; begin x := 5 end.] *)
Theorem X16_sample_tree_is_parsed_tree :
  exists tree,
    parse_string 40 "program test; begin x := 5 end."
    = Some (inr (true, Some tree))
    /\ preorder_traversal build_sample_tree false
       = preorder_traversal tree false
    /\ preorder_traversal build_sample_tree true
       = preorder_traversal tree true
    /\ graphical_lines build_sample_tree = graphical_lines tree.
Proof.
  exists (match parse_string 40 "program test; begin x := 5 end." with
          | Some (inr (_, Some tree)) => tree
          | _ => mkTree [] None
          end).
  split; [vm_compute; reflexivity|].
  split; [vm_compute; reflexivity|].
  split; vm_compute; reflexivity.
Qed.

Lemma graphical_line_label prefix is_last n :
  is_epsilon n = false ->
  graphical_line prefix is_last n
  = (prefix +:+ (if is_last then "+-- " else "|-- ")) +:+ node_str 0 n.
Proof.
  intros E. unfold graphical_line, node_str, is_epsilon in *. rewrite E.
  cbn [indent]. change (EmptyString +:+ symbol n) with (symbol n).
  destruct (negb (String.eqb (value n) EmptyString)
            && negb (String.eqb (value n) (symbol n)));
    rewrite ?append_assoc; reflexivity.
Qed.

Lemma graphical_preorder st fuel :
  forall node prefix is_last depth,
    String.length prefix = 4 * depth ->
    Forall2 same_node
      (print_graphical_helper fuel st node prefix is_last)
      (preorder_helper fuel st node depth false).
Proof.
  induction fuel as [|fuel IH]; intros node prefix is_last depth Hp;
    [constructor|].
  cbn [print_graphical_helper preorder_helper].
  destruct node as [i|]; [|constructor].
  destruct (st !! i) as [n|] eqn:Hn; [|constructor].
  cbn [negb]. rewrite andb_true_r.
  destruct (is_epsilon n) eqn:E; [constructor|].
  constructor.
  - exists depth, n, (prefix +:+ (if is_last then "+-- " else "|-- ")).
    split; [reflexivity|]. split; [apply graphical_line_label, E|].
    rewrite length_append, Hp. destruct is_last; cbn [String.length]; lia.
  - set (cp := prefix +:+ (if is_last then "    " else "|   ")).
    assert (Hcp : String.length cp = 4 * S depth).
    { unfold cp. rewrite length_append, Hp.
      destruct is_last; cbn [String.length]; lia. }
    generalize (length (List.filter (non_epsilon st) (children n)) - 1).
    intros k.
    change (fun (i0 : nat) (child : nat) =>
              print_graphical_helper fuel st (Some child) cp (Nat.eqb i0 k))
      with (fun (i0 : nat) (child : nat) =>
              print_graphical_helper fuel st (Some child) cp
                ((fun j => Nat.eqb j k) i0)).
    generalize (fun j => Nat.eqb j k) as lastf.
    induction (children n) as [|c cs IHc]; intros lastf; [constructor|].
    cbn [List.filter flat_map].
    destruct (non_epsilon st c) eqn:Ec.
    + cbn [imap concat]. apply Forall2_app; [apply IH, Hcp|].
      apply (IHc (fun j => lastf (S j))).
    + replace (preorder_helper fuel st (Some c) (S depth) false)
        with (@nil string); [apply IHc|].
      unfold non_epsilon in Ec. destruct fuel as [|f]; [reflexivity|].
      cbn [preorder_helper]. destruct (st !! c) as [m|]; [|reflexivity].
      apply negb_false_iff in Ec. rewrite Ec. reflexivity.
Qed.

(** X17: the graphical view prints the nodes of the traversal that leaves
    epsilon out, in the same order and with the same labels: line by line,
    the label that the traversal indents by its depth comes in the graphical
    view after four columns of drawing per level. *)
Theorem X17_graphical_view_matches_traversal (t : ParseTree) :
  Forall2 same_node (graphical_lines t) (preorder_traversal t false).
Proof. apply graphical_preorder. reflexivity. Qed.

End TreeOutput.

(** ** Tokenizing the lexemes again *)

Section Respell.

Import lexer scan layout respelling.

Local Arguments Ascii.eqb : simpl never.

Lemma delimited_holds p s :
  p " "%char = false -> delimited s -> holds p (String.get 0 s) = false.
Proof. intros Hp [-> | [r ->]]; [reflexivity | exact Hp]. Qed.

Lemma delimited_is_char a s :
  Ascii.eqb a " " = false -> delimited s -> is_char a (String.get 0 s) = false.
Proof. intros Hp [-> | [r ->]]; [reflexivity | exact Hp]. Qed.

Lemma at_text_push t lx pre suf :
  at_text lx pre suf -> at_text (push t lx) pre suf.
Proof. intros H. exact H. Qed.

Lemma tokenize_body_space lx pre suf :
  at_text lx pre (String " " suf) -> starts_with isspace suf = false ->
  tokenize_body " " lx = inr (moved lx 1).
Proof.
  intros Hat Hs. unfold tokenize_body.
  change (isspace " ") with true. cbv iota. f_equal.
  unfold skip_whitespace. rewrite (at_text_remaining _ _ _ Hat).
  cbn [String.length skip_while].
  pose proof (at_text_current _ _ _ Hat) as Hc. cbn in Hc.
  rewrite Hc. cbn [holds]. change (isspace " ") with true. cbv iota.
  rewrite (advance_moved lx " " Hc) by discriminate.
  pose proof (at_text_moved _ _ _ _ Hat) as Hat1.
  pose proof (at_text_current _ _ _ Hat1) as Hc1.
  destruct (String.length suf); [reflexivity|]. cbn [skip_while].
  rewrite Hc1. unfold starts_with in Hs. rewrite Hs. reflexivity.
Qed.


Lemma read_identifier_at lx pre w suf :
  at_text lx pre (w +:+ suf) -> is_word w = true ->
  starts_with (fun c => isalnum c || Ascii.eqb c "_") suf = false ->
  read_identifier lx
  = (moved lx (String.length w),
     mkToken (keyword_or_ID w) w (cur_line lx) (cur_column lx)).
Proof.
  intros Hat Hw Hs. unfold read_identifier.
  set (p := fun c => isalnum c || Ascii.eqb c "_").
  rewrite (read_run_spec p w word_class_newline _ lx pre suf
             EmptyString (is_word_forall _ Hw) Hs Hat).
  2:{ rewrite (at_text_remaining _ _ _ Hat), length_append. lia. }
  rewrite append_nil_l. unfold keyword_or_ID.
  destruct (assoc (lower w) KEYWORDS); reflexivity.
Qed.

Lemma lower_char_letter c :
  between 97 122 (code (lower_char c)) = true -> isalpha c = true.
Proof.
  destruct c as [[] [] [] [] [] [] [] []]; vm_compute;
    intros H; first [reflexivity | discriminate H].
Qed.

Lemma lower_char_other c :
  isalpha (lower_char c) = false -> lower_char c = c.
Proof.
  destruct c as [[] [] [] [] [] [] [] []]; vm_compute;
    intros H; first [reflexivity | discriminate H].
Qed.

Lemma lower_letters v :
  string_forall (fun c => between 97 122 (code c)) (lower v) = true ->
  string_forall isalpha v = true.
Proof.
  induction v as [|c v IH]; [reflexivity|]. cbn [lower string_forall].
  intros H. apply andb_true_iff in H as [H1 H2].
  rewrite (lower_char_letter _ H1), (IH H2). reflexivity.
Qed.

Lemma letters_word v :
  v <> EmptyString -> string_forall isalpha v = true -> is_word v = true.
Proof.
  destruct v as [|c v]; [congruence|]. intros _. cbn [string_forall is_word].
  intros H. apply andb_true_iff in H as [H1 H2]. rewrite H1. cbn [orb andb].
  induction v as [|d v IH]; [reflexivity|]. cbn [string_forall] in *.
  apply andb_true_iff in H2 as [H2 H3].
  rewrite (isalpha_isalnum _ H2), (IH H3). reflexivity.
Qed.

Lemma lower_other v :
  string_forall (fun c => negb (isalpha c)) (lower v) = true -> lower v = v.
Proof.
  induction v as [|c v IH]; [reflexivity|]. cbn [lower string_forall].
  intros H. apply andb_true_iff in H as [H1 H2].
  apply negb_true_iff in H1.
  rewrite (lower_char_other _ H1), (IH H2). reflexivity.
Qed.

Lemma advance_moved2 lx pre a b suf :
  at_text lx pre (String a (String b suf)) ->
  a <> newline -> b <> newline ->
  advance (advance lx) = moved lx 2.
Proof.
  intros Hat Ha Hb.
  pose proof (at_text_current _ _ _ Hat) as Hc.
  change (String.get 0 (String a (String b suf))) with (Some a) in Hc.
  rewrite (advance_moved lx a Hc Ha).
  pose proof (at_text_moved _ _ _ _ Hat) as Hat1.
  pose proof (at_text_current _ _ _ Hat1) as Hc1.
  change (String.get 0 (String b suf)) with (Some b) in Hc1.
  rewrite (advance_moved _ b Hc1 Hb), moved_moved. reflexivity.
Qed.

Ltac lexer_compute :=
  cbv - [push advance moved skip_whitespace skip_comment read_number
         read_identifier cur_line cur_column].

Lemma tokenize_body_two lx pre a b suf ty :
  at_text lx pre (String a (String b suf)) ->
  In (ty, a, b)
     [ (ASSIGN, ":", "="); (LESS_EQUAL, "<", "="); (GREATER_EQUAL, ">", "=");
       (NOT_EQUAL, "<", ">") ]%char ->
  tokenize_body a lx
  = inr (push (mkToken ty (String a (String b EmptyString))
                       (cur_line lx) (cur_column lx))
              (moved lx 2)).
Proof.
  intros Hat Hin.
  pose proof (at_text_peek _ _ _ Hat) as Hp.
  change (String.get 1 (String a (String b suf))) with (Some b) in Hp.
  assert (Hadv : a <> newline -> b <> newline ->
                 advance (advance lx) = moved lx 2)
    by (apply (advance_moved2 lx pre a b suf Hat)).
  simpl in Hin.
  repeat (destruct Hin as [Hin|Hin];
          [injection Hin as <- <- <-; unfold tokenize_body; rewrite Hp;
           rewrite <- Hadv by discriminate; lexer_compute; reflexivity|]).
  destruct Hin.
Qed.

Lemma tokenize_body_one lx pre c suf ty v :
  at_text lx pre (String c suf) -> delimited suf ->
  single_char_token c = Some (ty, v) ->
  tokenize_body c lx
  = inr (push (mkToken ty v (cur_line lx) (cur_column lx)) (moved lx 1)).
Proof.
  intros Hat Hd.
  pose proof (at_text_peek _ _ _ Hat) as Hp.
  change (String.get 1 (String c suf)) with (String.get 0 suf) in Hp.
  pose proof (at_text_current _ _ _ Hat) as Hc.
  change (String.get 0 (String c suf)) with (Some c) in Hc.
  assert (Hadv : c <> newline -> advance lx = moved lx 1)
    by (apply advance_moved, Hc).
  assert (Hp' : peek lx = None \/ peek lx = Some " "%char).
  { destruct Hd as [-> | [r ->]]; [left | right]; exact Hp. }
  unfold single_char_token.
  repeat match goal with
         | |- (if Ascii.eqb c ?a then _ else _) = _ -> _ =>
             let E := fresh "E" in
             destruct (Ascii.eqb c a) eqn:E;
             [apply Ascii.eqb_eq in E; subst c; intros [= <- <-];
              unfold tokenize_body; rewrite <- Hadv by discriminate;
              destruct Hp' as [Hp'|Hp']; rewrite Hp'; lexer_compute;
              reflexivity|]
         end.
  discriminate.
Qed.


Lemma reads_word lx pre w suf :
  at_text lx pre (w +:+ suf) -> is_word w = true -> delimited suf ->
  reads lx (keyword_or_ID w) w.
Proof.
  intros Hat Hw Hd. destruct w as [|c w'] eqn:Ew; [discriminate|].
  rewrite <- Ew in *.
  assert (Hc : isalpha c || Ascii.eqb c "_" = true).
  { rewrite Ew in Hw. simpl in Hw. apply andb_true_iff in Hw. tauto. }
  exists c. split; [|split].
  - rewrite (at_text_current _ _ _ Hat), Ew. reflexivity.
  - apply isspace_isalpha, Hc.
  - rewrite (tokenize_body_word _ _ Hc).
    rewrite (read_identifier_at lx pre w suf Hat Hw); [reflexivity|].
    apply (delimited_holds (fun c => isalnum c || Ascii.eqb c "_"));
      [reflexivity | exact Hd].
Qed.

Lemma reads_number lx pre v suf :
  at_text lx pre (v +:+ suf) -> num_lexeme v -> delimited suf ->
  reads lx NUM v.
Proof.
  intros Hat (d1 & H1 & Hv) Hd.
  assert (Hsd : starts_with isdigit suf = false)
    by (apply delimited_holds; [reflexivity | exact Hd]).
  destruct d1 as [|c d1'] eqn:Ed; [discriminate|]. rewrite <- Ed in *.
  assert (Hc : isdigit c = true).
  { rewrite Ed in H1. unfold digits in H1. simpl in H1.
    apply andb_true_iff in H1. tauto. }
  assert (Hv0 : String.get 0 (v +:+ suf) = Some c)
    by (destruct Hv as [-> | (d2 & _ & ->)]; rewrite Ed; reflexivity).
  exists c. split; [|split].
  - rewrite (at_text_current _ _ _ Hat). exact Hv0.
  - apply isspace_isdigit, Hc.
  - rewrite (tokenize_body_digit _ _ Hc).
    destruct Hv as [-> | (d2 & H2 & ->)].
    + rewrite (read_number_integer lx pre d1 suf Hat
                 (string_forall_digits _ H1) Hsd); [reflexivity|].
      rewrite (delimited_is_char "." suf eq_refl Hd). reflexivity.
    + rewrite !append_assoc in Hat.
      rewrite (read_number_real lx pre d1 d2 suf Hat
                 (string_forall_digits _ H1) H2 Hsd).
      cbn [fst snd]. rewrite !length_append. cbn [String.length].
      do 3 f_equal. lia.
Qed.

Lemma reads_keyword lx pre v suf ty :
  grammar.TOKEN_TO_TERMINAL ty = lower v ->
  string_forall (fun c => between 97 122 (code c)) (grammar.TOKEN_TO_TERMINAL ty)
  = true ->
  grammar.TOKEN_TO_TERMINAL ty <> EmptyString ->
  (is_word v = true -> assoc (lower v) KEYWORDS = Some ty) ->
  at_text lx pre (v +:+ suf) -> delimited suf -> reads lx ty v.
Proof.
  intros Hl Hall Hne Hk Hat Hd.
  assert (Hw : is_word v = true).
  { apply letters_word.
    - intros ->. apply Hne. rewrite Hl. reflexivity.
    - apply lower_letters. rewrite <- Hl. exact Hall. }
  pose proof (reads_word lx pre v suf Hat Hw Hd) as H.
  unfold keyword_or_ID in H. rewrite (Hk Hw) in H. exact H.
Qed.

Lemma reads_one lx pre v suf ty c :
  grammar.TOKEN_TO_TERMINAL ty = lower v ->
  grammar.TOKEN_TO_TERMINAL ty = String c EmptyString ->
  single_char_token c = Some (ty, String c EmptyString) ->
  at_text lx pre (v +:+ suf) -> delimited suf -> reads lx ty v.
Proof.
  intros Hl Hc Hs Hat Hd.
  assert (Hv : v = String c EmptyString).
  { rewrite <- Hc, Hl. symmetry. apply lower_other. rewrite <- Hl, Hc.
    cbn [string_forall]. rewrite andb_true_r.
    revert Hs. unfold single_char_token.
    repeat match goal with
           | |- (if Ascii.eqb c ?a then _ else _) = _ -> _ =>
               let E := fresh "E" in
               destruct (Ascii.eqb c a) eqn:E;
               [apply Ascii.eqb_eq in E; subst c; reflexivity|]
           end.
    discriminate. }
  subst v. exists c. split; [|split].
  - rewrite (at_text_current _ _ _ Hat). reflexivity.
  - revert Hs. unfold single_char_token.
    repeat match goal with
           | |- (if Ascii.eqb c ?a then _ else _) = _ -> _ =>
               let E := fresh "E" in
               destruct (Ascii.eqb c a) eqn:E;
               [apply Ascii.eqb_eq in E; subst c; reflexivity|]
           end.
    discriminate.
  - apply (tokenize_body_one lx pre c suf ty _ Hat Hd Hs).
Qed.

Lemma reads_two lx pre v suf ty a b :
  grammar.TOKEN_TO_TERMINAL ty = lower v ->
  grammar.TOKEN_TO_TERMINAL ty = String a (String b EmptyString) ->
  In (ty, a, b)
     [ (ASSIGN, ":", "="); (LESS_EQUAL, "<", "="); (GREATER_EQUAL, ">", "=");
       (NOT_EQUAL, "<", ">") ]%char ->
  at_text lx pre (v +:+ suf) -> reads lx ty v.
Proof.
  intros Hl Hc Hin Hat.
  assert (Hab : isalpha a = false /\ isalpha b = false
                /\ isspace a = false).
  { simpl in Hin.
    repeat (destruct Hin as [Hin|Hin];
            [injection Hin as <- <- <-; repeat split; reflexivity|]).
    destruct Hin. }
  destruct Hab as (Ha & Hb & Hsp).
  assert (Hv : v = String a (String b EmptyString)).
  { rewrite <- Hc, Hl. symmetry. apply lower_other. rewrite <- Hl, Hc.
    cbn [string_forall]. rewrite Ha, Hb. reflexivity. }
  subst v. exists a. split; [|split].
  - rewrite (at_text_current _ _ _ Hat). reflexivity.
  - exact Hsp.
  - apply (tokenize_body_two lx pre a b suf ty Hat Hin).
Qed.

Lemma reads_token lx pre t suf :
  token_ok t -> type t <> EOF ->
  at_text lx pre (value t +:+ suf) -> delimited suf ->
  reads lx (type t) (value t).
Proof.
  destruct t as [ty v l col]. unfold token_ok. cbn [type value].
  intros Hok Hne Hat Hd.
  destruct ty;
    try (match type of Hok with
         | _ = lower _ /\ _ => destruct Hok as [Hl Hk]
         end;
         first
           [ apply (reads_keyword lx pre v suf _ Hl eq_refl
                      ltac:(discriminate) Hk Hat Hd)
           | apply (reads_one lx pre v suf _ _ Hl eq_refl eq_refl Hat Hd)
           | apply (reads_two lx pre v suf _ _ _ Hl eq_refl
                      ltac:(simpl; tauto) Hat) ]).
  - destruct Hok as [Hw Hk].
    pose proof (reads_word lx pre v suf Hat Hw Hd) as H.
    unfold keyword_or_ID in H. rewrite Hk in H. exact H.
  - apply (reads_number lx pre v suf Hat Hok Hd).
  - congruence.
Qed.


Lemma concat_cons2 v v2 vs :
  String.concat " " (v :: v2 :: vs)
  = v +:+ " " +:+ String.concat " " (v2 :: vs).
Proof. reflexivity. Qed.

Lemma respell_loop src :
  forall todo lx pre,
    Forall token_ok todo -> Forall (fun t => type t <> EOF) todo ->
    loop_head src lx -> at_text lx pre (respell todo) ->
    exists toks' l c,
      tokenize src = Some (inr (tokens lx ++ toks' ++ [mkToken EOF "$" l c]))
      /\ map type toks' = map type todo
      /\ map value toks' = map value todo.
Proof.
  induction todo as [|t todo IH]; intros lx pre Hok Hne Hh Hat.
  - exists [], (cur_line lx), (cur_column lx).
    split; [|split; reflexivity].
    destruct (loop_head_tokenize _ _ Hh) as [_ ->].
    apply tokenize_loop_at_end.
    rewrite (at_text_current _ _ _ Hat). reflexivity.
  - apply Forall_cons in Hok as [Hok1 Hok]. apply Forall_cons in Hne as [Hne1 Hne].
    assert (Hstep : forall suf,
              at_text lx pre (value t +:+ suf) -> delimited suf ->
              exists lx1,
                loop_head src lx1
                /\ at_text lx1 (pre +:+ value t) suf
                /\ tokens lx1
                   = tokens lx ++ [mkToken (type t) (value t) (cur_line lx)
                                           (cur_column lx)]).
    { intros suf Hat' Hd.
      destruct (reads_token lx pre t suf Hok1 Hne1 Hat' Hd)
        as (c & Hc & _ & Hb).
      eexists. split; [eapply loop_head_next; eassumption|].
      split; [|reflexivity].
      apply at_text_push, at_text_moved_run, Hat'. }
    destruct todo as [|t2 todo'].
    + destruct (Hstep EmptyString) as (lx1 & Hh1 & Hat1 & Ht1).
      { unfold respell in Hat. cbn in Hat. rewrite append_nil_r. exact Hat. }
      { left. reflexivity. }
      destruct (IH lx1 _ Hok Hne Hh1 Hat1) as (toks' & l & c & Hr & H1 & H2).
      exists (mkToken (type t) (value t) (cur_line lx) (cur_column lx)
                :: toks'), l, c.
      rewrite Hr, Ht1, <- app_assoc. cbn [app map type value].
      rewrite H1, H2. auto.
    + unfold respell in Hat. cbn [map] in Hat. rewrite concat_cons2 in Hat.
      destruct (Hstep _ Hat) as (lx1 & Hh1 & Hat1 & Ht1).
      { right. eexists. reflexivity. }
      change (" " +:+ String.concat " " (value t2 :: map value todo'))
        with (String " " (respell (t2 :: todo'))) in Hat1.
      pose proof (at_text_moved _ _ _ _ Hat1) as Hat2.
      assert (Hs : starts_with isspace (respell (t2 :: todo')) = false).
      { apply Forall_cons in Hok as [Hok2 _].
        apply Forall_cons in Hne as [Hne2 _].
        assert (Hd : exists suf, respell (t2 :: todo') = value t2 +:+ suf
                                 /\ delimited suf).
        { unfold respell. destruct todo' as [|t3 todo'']; cbn [map].
          - exists EmptyString. split; [|left; reflexivity].
            cbn. rewrite append_nil_r. reflexivity.
          - rewrite concat_cons2. eexists. split; [reflexivity|].
            right. eexists. reflexivity. }
        destruct Hd as (suf & Hsuf & Hd). rewrite Hsuf in Hat2.
        destruct (reads_token _ _ t2 suf Hok2 Hne2 Hat2 Hd)
          as (c & Hc & Hsp & _).
        rewrite (at_text_current _ _ _ Hat2) in Hc.
        unfold starts_with. rewrite Hsuf, Hc. exact Hsp. }
      assert (Hh2 : loop_head src (moved lx1 1)).
      { eapply loop_head_next; [exact Hh1 | |].
        - rewrite (at_text_current _ _ _ Hat1). reflexivity.
        - apply (tokenize_body_space lx1 _ _ Hat1 Hs). }
      destruct (IH (moved lx1 1) _ Hok Hne Hh2 Hat2)
        as (toks' & l & c & Hr & H1 & H2).
      exists (mkToken (type t) (value t) (cur_line lx) (cur_column lx)
                :: toks'), l, c.
      rewrite Hr. change (tokens (moved lx1 1)) with (tokens lx1).
      rewrite Ht1, <- app_assoc. cbn [app map type value].
      rewrite H1, H2. auto.
Qed.

(** The lexemes, written out again, give the same lexemes. *)
Lemma lexemes_retokenize src body eof :
  tokenize src = Some (inr (body ++ [eof])) ->
  exists body' l c,
    tokenize (respell body) = Some (inr (body' ++ [mkToken EOF "$" l c]))
    /\ map type body' = map type body
    /\ map value body' = map value body.
Proof.
  intros Hr.
  assert (Hok : Forall token_ok body /\ Forall (fun t => type t <> EOF) body).
  { destruct (tokenize_shape _ _ Hr) as (b & e & Hbe & _ & Hne).
    apply app_inj_tail in Hbe as [<- <-]. split; [|exact Hne].
    destruct (tokenize_end _ _ Hr)
      as [(lx & Hh & Hc & [= E]) | (lx & c & e' & _ & _ & _ & [=])].
    apply app_inj_tail in E as [-> _].
    destruct (loop_head_layout _ _ Hh) as (_ & _ & _ & H). exact H. }
  destruct Hok as [Hok Hne].
  destruct (respell_loop (respell body) body (init (respell body))
              EmptyString Hok Hne (loop_head_init _))
    as (toks' & l & c & H & H1 & H2).
  { split; reflexivity. }
  exists toks', l, c. cbn [tokens init app] in H. auto.
Qed.

(** X18: the lexemes that [tokenize] returns, written out again with one
    space between them, tokenize to the same token types and the same
    lexemes: comments and layout aside, nothing of a source text is lost or
    changed by the lexer. *)
Theorem X18_lexemes_retokenize
    (src : string) (body : list Token) (eof : Token) :
  tokenize src = Some (inr (body ++ [eof])) ->
  exists body' eof',
    tokenize (respell body) = Some (inr (body' ++ [eof']))
    /\ type eof' = EOF
    /\ map type body' = map type body
    /\ map value body' = map value body.
Proof.
  intros Hr.
  destruct (lexemes_retokenize src body eof Hr) as (body' & l & c & H).
  exists body', (mkToken EOF "$" l c). tauto.
Qed.

Lemma X18_lexemes_retokenize_witness :
  exists body' eof',
    tokenize "x := 1 + y" = Some (inr (body' ++ [eof']))
    /\ type eof' = EOF
    /\ map type body' = [ID; ASSIGN; NUM; PLUS; ID]
    /\ map value body' = ["x"; ":="; "1"; "+"; "y"].
Proof.
  apply (X18_lexemes_retokenize "x:=1{c}+ y"
           [mkToken ID "x" 1 1; mkToken ASSIGN ":=" 1 2; mkToken NUM "1" 1 4;
            mkToken PLUS "+" 1 8; mkToken ID "y" 1 10]
           (mkToken EOF "$" 1 11)).
  vm_compute. reflexivity.
Defined.

End Respell.

(** ** What the parser sees of a token *)

Section LexemeIndependence.

Import grammar parse_tree parser lexeme_independence respelling.

Lemma same_types_length {A B} (f : A -> B) (l1 l2 : list A) :
  map f l1 = map f l2 -> length l1 = length l2.
Proof.
  intros H. apply (f_equal length) in H. rewrite !length_map in H. exact H.
Qed.

Lemma current_token_same p q :
  same_state p q -> same_type (current_token p) (current_token q).
Proof.
  intros (Ht & Hp & _). unfold same_type, current_token.
  rewrite <- Hp, <- (same_types_length _ _ _ Ht).
  destruct (pos p <? length (tokens p)).
  - pose proof (f_equal (fun l => l !! pos p) Ht) as H. cbn beta in H.
    rewrite !list_lookup_fmap in H. exact H.
  - pose proof (f_equal last Ht) as H. rewrite !fmap_last in H. exact H.
Qed.

Lemma shape_set_value n v st : map shape (set_value n v st) = map shape st.
Proof.
  unfold set_value.
  change (shape <$> alter (fun n => mkNode (symbol n) v (children n)) n st
          = shape <$> st).
  rewrite (list_fmap_alter shape _ id); [apply list_alter_id; reflexivity|].
  apply Forall_forall. reflexivity.
Qed.

Lemma shape_add_child parent child st1 st2 :
  map shape st1 = map shape st2 ->
  map shape (add_child parent child st1)
  = map shape (add_child parent child st2).
Proof.
  intros H. unfold add_child.
  change (shape <$> st1 = shape <$> st2) in H.
  change (shape <$> alter (fun n => mkNode (symbol n) (value n)
                                           (children n ++ [child]))
                          parent st1
          = shape <$> alter (fun n => mkNode (symbol n) (value n)
                                             (children n ++ [child]))
                            parent st2).
  rewrite !(list_fmap_alter shape _ (fun sc => (sc.1, sc.2 ++ [child])));
    [rewrite H; reflexivity | |]; apply Forall_forall; reflexivity.
Qed.

Lemma shape_new_node sym val1 val2 st1 st2 :
  map shape st1 = map shape st2 ->
  map shape (new_node sym val1 st1).1 = map shape (new_node sym val2 st2).1
  /\ (new_node sym val1 st1).2 = (new_node sym val2 st2).2.
Proof.
  intros H. unfold new_node. cbn [fst snd]. rewrite !map_app, H.
  split; [reflexivity|]. apply (same_types_length _ _ _ H).
Qed.

Lemma shape_attach_epsilon top st1 st2 :
  map shape st1 = map shape st2 ->
  map shape (attach_epsilon top st1) = map shape (attach_epsilon top st2).
Proof.
  intros H. destruct top as [parent|]; [|exact H]. unfold attach_epsilon.
  destruct (shape_new_node EPSILON EmptyString EmptyString _ _ H) as [H1 H2].
  unfold new_node in *. cbn [fst snd] in *. rewrite H2.
  apply shape_add_child, H1.
Qed.

Lemma shape_make_children production top :
  forall st1 st2,
    map shape st1 = map shape st2 ->
    map shape (make_children production top st1).1
    = map shape (make_children production top st2).1
    /\ (make_children production top st1).2
       = (make_children production top st2).2.
Proof.
  induction production as [|sym production IH]; intros st1 st2 H;
    [split; [exact H | reflexivity]|].
  cbn [make_children].
  destruct (shape_new_node sym EmptyString EmptyString _ _ H) as [H1 H2].
  unfold new_node in *. cbn [fst snd] in *.
  assert (H3 : map shape (attach top (length st1)
                                 (st1 ++ [mkNode sym EmptyString []]))
               = map shape (attach top (length st2)
                                   (st2 ++ [mkNode sym EmptyString []]))).
  { destruct top as [parent|]; [|exact H1]. cbn [attach]. rewrite H2.
    apply shape_add_child, H1. }
  destruct (IH _ _ H3) as [H4 H5].
  destruct (make_children production top
              (attach top (length st1) (st1 ++ [mkNode sym EmptyString []])))
    as [st1' cs1].
  destruct (make_children production top
              (attach top (length st2) (st2 ++ [mkNode sym EmptyString []])))
    as [st2' cs2].
  cbn [fst snd] in *. rewrite H2, H5. auto.
Qed.

Lemma advance_same p q : same_state p q -> same_state (advance p) (advance q).
Proof.
  intros (Ht & Hp & Hs & Hh). unfold advance.
  rewrite <- Hp, <- (same_types_length _ _ _ Ht).
  destruct (pos p <? length (tokens p) - 1); repeat split; cbn; auto.
Qed.

Lemma step_same root p q :
  same_state p q -> same_step (step root p) (step root q).
Proof.
  intros Hpq. pose proof (current_token_same _ _ Hpq) as Hc.
  destruct Hpq as (Ht & Hp & Hs & Hh). unfold step. rewrite <- Hs.
  destruct (stack p) as [|[top top_node] stack']; [reflexivity|].
  unfold same_type in Hc.
  destruct (current_token p) as [c1|], (current_token q) as [c2|];
    try discriminate Hc; [|exact I].
  injection Hc as Hc.
  assert (Hterm : get_terminal c1 = get_terminal c2)
    by (unfold get_terminal; rewrite Hc; reflexivity).
  cbv zeta. rewrite <- Hterm.
  destruct (String.eqb top "$" && String.eqb (get_terminal c1) "$").
  { split; [reflexivity|]. split; [reflexivity | exact Hh]. }
  destruct (grammar.is_terminal top && negb (String.eqb top EPSILON)).
  { destruct (String.eqb top (get_terminal c1)).
    - apply advance_same. repeat split; cbn [tokens pos stack heap]; auto.
      destruct top_node; [rewrite !shape_set_value|]; exact Hh.
    - cbn. split; [reflexivity|]. unfold same_type. cbn. congruence. }
  destruct (String.eqb top EPSILON).
  { repeat split; cbn [tokens pos stack heap]; auto.
    apply shape_attach_epsilon, Hh. }
  destruct (is_nonterminal top);
    [|repeat split; cbn [tokens pos stack heap]; auto].
  destruct (get_production top (get_terminal c1)) as [production|].
  - destruct (list_string_eqb production [EPSILON]).
    + repeat split; cbn [tokens pos stack heap]; auto.
      apply shape_attach_epsilon, Hh.
    + destruct (shape_make_children production top_node _ _ Hh) as [H1 H2].
      destruct (make_children production top_node (heap p)) as [st1 cs1].
      destruct (make_children production top_node (heap q)) as [st2 cs2].
      cbn [fst snd] in *. subst cs2.
      repeat split; cbn [tokens pos stack heap]; auto.
  - cbn. repeat split. unfold same_type. cbn. congruence.
Qed.

Lemma parse_loop_same root fuel :
  forall p q, same_state p q ->
              same_outcome (parse_loop fuel root p) (parse_loop fuel root q).
Proof.
  induction fuel as [|fuel IH]; intros p q Hpq; [exact I|].
  cbn [parse_loop]. pose proof (step_same root p q Hpq) as H.
  destruct (step root p), (step root q); try contradiction.
  - apply IH, H.
  - exact H.
  - exact H.
Qed.

(** X19: [parse] looks at the types of the tokens only: on two token
    lists with the same types it runs the same way, and with the same fuel
    it accepts both with trees that differ in the recorded lexemes only,
    or raises on both the same error up to the lexeme and the position
    reported, or ends on neither. *)
Theorem X19_parse_depends_on_types
    (toks1 toks2 : list lexer.Token) (fuel : nat) :
  map lexer.type toks1 = map lexer.type toks2 ->
  same_outcome (parse fuel (new toks1)) (parse fuel (new toks2)).
Proof.
  intros H. apply parse_loop_same. repeat split; auto.
Qed.

Lemma X19_parse_depends_on_types_witness :
  same_outcome
    (parse 20 (new (empty_program_body ++ [empty_program_eof])))
    (parse 20 (new [ lexer.mkToken lexer.PROGRAM "PROGRAM" 1 1;
                     lexer.mkToken lexer.ID "other_name" 2 1;
                     lexer.mkToken lexer.SEMICOLON ";" 2 11;
                     lexer.mkToken lexer.BEGIN "Begin" 3 1;
                     lexer.mkToken lexer.END "End" 4 1;
                     lexer.mkToken lexer.DOT "." 4 4;
                     lexer.mkToken lexer.EOF "$" 5 1 ])).
Proof.
  apply (X19_parse_depends_on_types
           (empty_program_body ++ [empty_program_eof])).
  reflexivity.
Defined.

Lemma current_token_lexeme p q :
  same_lexemes p q ->
  option_map lexeme (current_token p) = option_map lexeme (current_token q).
Proof.
  intros (Ht & Hp & _). unfold current_token.
  rewrite <- Hp, <- (same_types_length _ _ _ Ht).
  destruct (pos p <? length (tokens p)).
  - pose proof (f_equal (fun l => l !! pos p) Ht) as H. cbn beta in H.
    rewrite !list_lookup_fmap in H. exact H.
  - pose proof (f_equal last Ht) as H. rewrite !fmap_last in H. exact H.
Qed.

Lemma advance_lexemes p q :
  same_lexemes p q -> same_lexemes (advance p) (advance q).
Proof.
  intros (Ht & Hp & Hs & Hh). unfold advance.
  rewrite <- Hp, <- (same_types_length _ _ _ Ht).
  destruct (pos p <? length (tokens p) - 1); repeat split; cbn; auto.
Qed.

Lemma step_lexemes root p q :
  same_lexemes p q -> same_result (step root p) (step root q).
Proof.
  intros Hpq. pose proof (current_token_lexeme _ _ Hpq) as Hc.
  destruct Hpq as (Ht & Hp & Hs & Hh). unfold step. rewrite <- Hs, <- Hh.
  destruct (stack p) as [|[top top_node] stack']; [exact I|].
  destruct (current_token p) as [c1|], (current_token q) as [c2|];
    try discriminate Hc; [|exact I].
  injection Hc as Hty Hval.
  assert (Hterm : get_terminal c1 = get_terminal c2)
    by (unfold get_terminal; rewrite Hty; reflexivity).
  cbv zeta. rewrite <- Hterm, <- Hval.
  destruct (String.eqb top "$" && String.eqb (get_terminal c1) "$").
  { split; reflexivity. }
  destruct (grammar.is_terminal top && negb (String.eqb top EPSILON)).
  { destruct (String.eqb top (get_terminal c1)); [|exact I].
    apply advance_lexemes. repeat split; cbn [tokens pos stack heap]; auto. }
  destruct (String.eqb top EPSILON).
  { repeat split; cbn [tokens pos stack heap]; auto. }
  destruct (is_nonterminal top);
    [|repeat split; cbn [tokens pos stack heap]; auto].
  destruct (get_production top (get_terminal c1)) as [production|];
    [|exact I].
  destruct (list_string_eqb production [EPSILON]).
  - repeat split; cbn [tokens pos stack heap]; auto.
  - destruct (make_children production top_node (heap p)) as [st1 cs1].
    repeat split; cbn [tokens pos stack heap]; auto.
Qed.

Lemma parse_loop_lexemes root fuel :
  forall p q,
    same_lexemes p q ->
    match parse_loop fuel root p, parse_loop fuel root q with
    | None, None => True
    | Some (inr r1), Some (inr r2) => r1 = r2
    | Some (inl (ParserError _ _)), Some (inl (ParserError _ _)) => True
    | Some (inl IndexError), Some (inl IndexError) => True
    | _, _ => False
    end.
Proof.
  induction fuel as [|fuel IH]; intros p q Hpq; [exact I|].
  cbn [parse_loop]. pose proof (step_lexemes root p q Hpq) as H.
  destruct (step root p) as [p'|b1 t1|e1], (step root q) as [q'|b2 t2|e2];
    try contradiction; try (destruct e1; contradiction).
  - apply IH, H.
  - destruct H as [-> ->]. reflexivity.
  - destruct e1, e2; try contradiction; exact I.
Qed.

Lemma map_lexeme (a b : list lexer.Token) :
  map lexer.type a = map lexer.type b ->
  map lexer.value a = map lexer.value b ->
  map lexeme a = map lexeme b.
Proof.
  revert b. induction a as [|x a IH]; intros [|y b] Ht Hv;
    try discriminate Ht; [reflexivity|].
  injection Ht as Ht1 Ht. injection Hv as Hv1 Hv.
  cbn [map]. unfold lexeme at 1 3. rewrite Ht1, Hv1, (IH b Ht Hv).
  reflexivity.
Qed.

(** X20: the result of [parse_string] depends on the lexemes of the
    source text only, not on its layout or its comments: a source text and
    its lexemes written out again with one space between them are both
    rejected, or both accepted with the same tree. *)
Theorem X20_parse_string_ignores_layout
    (src : string) (body : list lexer.Token) (eof : lexer.Token)
    (fuel : nat) :
  lexer.tokenize src = Some (inr (body ++ [eof])) ->
  parse_string fuel (respell body) = parse_string fuel src.
Proof.
  intros Hr.
  destruct (lexemes_retokenize src body eof Hr)
    as (body' & l & c & Hr' & Ht & Hv).
  assert (Heof : lexeme eof = (lexer.EOF, "$")).
  { destruct (tokenize_end _ _ Hr)
      as [(lx & _ & _ & [= E]) | (lx & c0 & e' & _ & _ & _ & [=])].
    apply app_inj_tail in E as [_ ->]. reflexivity. }
  assert (Hsame : same_lexemes
            (start (new (body' ++ [lexer.mkToken lexer.EOF "$" l c])))
            (start (new (body ++ [eof])))).
  { split; [|repeat split].
    change (map lexeme (body' ++ [lexer.mkToken lexer.EOF "$" l c])
            = map lexeme (body ++ [eof])).
    rewrite !map_app, (map_lexeme _ _ Ht Hv). cbn [map]. rewrite Heof.
    reflexivity. }
  unfold parse_string. rewrite Hr, Hr'. unfold parse.
  pose proof (parse_loop_lexemes 0 fuel _ _ Hsame) as H.
  destruct (parse_loop fuel 0
              (start (new (body' ++ [lexer.mkToken lexer.EOF "$" l c]))))
    as [[[k1 t1|]|r1]|],
     (parse_loop fuel 0 (start (new (body ++ [eof])))) as [[[k2 t2|]|r2]|];
    try contradiction; try reflexivity.
  rewrite H. reflexivity.
Qed.

Lemma X20_parse_string_ignores_layout_witness :
  parse_string 20 "program t ; begin end ."
  = parse_string 20 "program t; {empty} begin end.".
Proof.
  apply (X20_parse_string_ignores_layout "program t; {empty} begin end."
           [ lexer.mkToken lexer.PROGRAM "program" 1 1;
             lexer.mkToken lexer.ID "t" 1 9;
             lexer.mkToken lexer.SEMICOLON ";" 1 10;
             lexer.mkToken lexer.BEGIN "begin" 1 20;
             lexer.mkToken lexer.END "end" 1 26;
             lexer.mkToken lexer.DOT "." 1 29 ]
           (lexer.mkToken lexer.EOF "$" 1 30) 20).
  vm_compute. reflexivity.
Defined.

End LexemeIndependence.

(** ** [tokenize_input] and [tokenize] *)

Section InputTokens.

Import lexer scan layout respelling lexer_input.

Local Arguments Ascii.eqb : simpl never.

Lemma string_forall_append p s t :
  string_forall p (s +:+ t) = string_forall p s && string_forall p t.
Proof.
  induction s as [|c s IH]; [reflexivity|].
  rewrite append_cons. cbn [string_forall]. rewrite IH, andb_assoc.
  reflexivity.
Qed.

Lemma string_forall_impl (p q : ascii -> bool) s :
  (forall c, p c = true -> q c = true) ->
  string_forall p s = true -> string_forall q s = true.
Proof.
  intros Hpq. induction s as [|c s IH]; [reflexivity|]. cbn [string_forall].
  intros H. apply andb_true_iff in H as [H1 H2].
  rewrite (Hpq _ H1), (IH H2). reflexivity.
Qed.

Lemma word_char_not_space c :
  isalnum c || Ascii.eqb c "_" = true -> isspace c = false.
Proof.
  destruct c as [[] [] [] [] [] [] [] []]; vm_compute;
    intros H; first [reflexivity | discriminate H].
Qed.

Lemma isdigit_lower c : isdigit c = true -> lower_char c = c.
Proof.
  destruct c as [[] [] [] [] [] [] [] []]; vm_compute;
    intros H; first [reflexivity | discriminate H].
Qed.

Lemma isdigit_not_dot c : isdigit c = true -> Ascii.eqb c "." = false.
Proof.
  destruct c as [[] [] [] [] [] [] [] []]; vm_compute;
    intros H; first [reflexivity | discriminate H].
Qed.

Lemma token_cases t :
  token_ok t -> type t <> EOF ->
  (type t = NUM /\ num_lexeme (value t))
  \/ (is_word (value t) = true /\ type t = keyword_or_ID (value t))
  \/ In (type t, value t) operators.
Proof.
  destruct t as [ty v l col]. unfold token_ok. cbn [type value].
  intros Hok Hne.
  assert (Hkw : forall kw,
            grammar.TOKEN_TO_TERMINAL kw = lower v ->
            string_forall (fun c => between 97 122 (code c))
                          (grammar.TOKEN_TO_TERMINAL kw) = true ->
            grammar.TOKEN_TO_TERMINAL kw <> EmptyString ->
            (is_word v = true -> assoc (lower v) KEYWORDS = Some kw) ->
            is_word v = true /\ kw = keyword_or_ID v).
  { intros kw Hl Hall Hn Hk.
    assert (Hw : is_word v = true).
    { apply letters_word.
      - intros ->. apply Hn. rewrite Hl. reflexivity.
      - apply lower_letters. rewrite <- Hl. exact Hall. }
    split; [exact Hw|]. unfold keyword_or_ID. rewrite (Hk Hw). reflexivity. }
  assert (Hop : forall op,
            grammar.TOKEN_TO_TERMINAL op = lower v ->
            string_forall (fun c => negb (isalpha c))
                          (grammar.TOKEN_TO_TERMINAL op) = true ->
            v = grammar.TOKEN_TO_TERMINAL op).
  { intros op Hl Hall. rewrite Hl. symmetry. apply lower_other.
    rewrite <- Hl. exact Hall. }
  destruct ty;
    try (match type of Hok with
         | _ = lower _ /\ _ => destruct Hok as [Hl Hk]
         end;
         first
           [ right; left;
             apply (Hkw _ Hl eq_refl ltac:(discriminate) Hk)
           | right; right;
             rewrite (Hop _ Hl eq_refl); cbn; tauto ]).
  - destruct Hok as [Hw Hk]. right. left. split; [exact Hw|].
    unfold keyword_or_ID. rewrite Hk. reflexivity.
  - left. auto.
  - congruence.
Qed.


Lemma digits_solid d :
  string_forall isdigit d = true ->
  string_forall (fun c => negb (isspace c)) d = true.
Proof.
  apply string_forall_impl. intros c H. rewrite (isspace_isdigit _ H).
  reflexivity.
Qed.

Lemma lexeme_solid t : token_ok t -> type t <> EOF -> solid (value t).
Proof.
  intros Hok Hne.
  destruct (token_cases t Hok Hne)
    as [(_ & d1 & H1 & Hv) | [(Hw & _) | Hin]].
  - pose proof (digits_solid _ (string_forall_digits _ H1)) as Hs1.
    assert (Hn1 : d1 <> EmptyString) by (intros ->; discriminate H1).
    destruct Hv as [-> | (d2 & H2 & ->)]; [split; assumption|].
    split.
    + destruct d1; [congruence | discriminate].
    + rewrite !string_forall_append, Hs1,
        (digits_solid _ (string_forall_digits _ H2)). reflexivity.
  - split; [intros E; rewrite E in Hw; discriminate Hw|].
    apply (string_forall_impl (fun c => isalnum c || Ascii.eqb c "_"));
      [|apply is_word_forall, Hw].
    intros c H. rewrite (word_char_not_space _ H). reflexivity.
  - cbn in Hin.
    repeat (destruct Hin as [Hin|Hin];
            [injection Hin as _ <-; split; [discriminate | reflexivity]|]).
    destruct Hin.
Qed.

Lemma split_from_solid v :
  string_forall (fun c => negb (isspace c)) v = true ->
  forall word s, split_from word (v +:+ s) = split_from (word +:+ v) s.
Proof.
  induction v as [|c v IH]; intros Hv word s.
  - rewrite append_nil_l, append_nil_r. reflexivity.
  - cbn [string_forall] in Hv. apply andb_true_iff in Hv as [Hc Hv].
    apply negb_true_iff in Hc. rewrite append_cons. cbn [split_from].
    rewrite Hc, (IH Hv), append_assoc. reflexivity.
Qed.

Lemma respell_cons t toks :
  respell (t :: toks)
  = value t +:+ match toks with
                | [] => EmptyString
                | _ => String " " (respell toks)
                end.
Proof.
  unfold respell. destruct toks as [|t2 toks]; cbn [map].
  - cbn. rewrite append_nil_r. reflexivity.
  - reflexivity.
Qed.

Lemma split_respell toks :
  Forall (fun t => solid (value t)) toks ->
  split (respell toks) = map value toks.
Proof.
  unfold split. induction 1 as [|t toks [Hn Hs] Hall IH]; [reflexivity|].
  rewrite respell_cons, (split_from_solid _ Hs), append_nil_l.
  assert (Hv : String.eqb (value t) EmptyString = false)
    by (apply String.eqb_neq, Hn).
  destruct toks as [|t2 toks']; cbn [split_from map].
  - rewrite Hv. reflexivity.
  - change (isspace " ") with true. cbv iota. rewrite Hv, IH. reflexivity.
Qed.

Lemma rstrip_solid v :
  string_forall (fun c => negb (isspace c)) v = true ->
  forall s, rstrip (v +:+ s) = v +:+ rstrip s.
Proof.
  induction v as [|c v IH]; intros Hv s; [reflexivity|].
  cbn [string_forall] in Hv. apply andb_true_iff in Hv as [Hc Hv].
  apply negb_true_iff in Hc. rewrite !append_cons. cbn [rstrip].
  rewrite (IH Hv), Hc. destruct (v +:+ rstrip s); reflexivity.
Qed.

Lemma respell_nonempty t toks :
  solid (value t) -> respell (t :: toks) <> EmptyString.
Proof.
  intros [Hn _]. rewrite respell_cons. destruct (value t); [congruence|].
  discriminate.
Qed.

Lemma strip_respell toks :
  Forall (fun t => solid (value t)) toks ->
  strip (respell toks) = respell toks.
Proof.
  intros Hall. unfold strip.
  assert (Hl : lstrip (respell toks) = respell toks).
  { destruct Hall as [|t toks [Hn Hs] _]; [reflexivity|].
    rewrite respell_cons. destruct (value t) as [|c v]; [congruence|].
    cbn [string_forall] in Hs. apply andb_true_iff in Hs as [Hc _].
    apply negb_true_iff in Hc. rewrite append_cons. cbn [lstrip].
    rewrite Hc. reflexivity. }
  rewrite Hl. clear Hl.
  induction Hall as [|t toks [Hn Hs] Hall IH]; [reflexivity|].
  rewrite respell_cons, (rstrip_solid _ Hs). f_equal.
  destruct toks as [|t2 toks']; [reflexivity|].
  cbn [rstrip]. rewrite IH.
  pose proof (respell_nonempty t2 toks') as Hne.
  apply Forall_cons in Hall as [H2 _]. specialize (Hne H2).
  destruct (respell (t2 :: toks')); [congruence | reflexivity].
Qed.


Lemma remove_dots_append a b :
  remove_dots (a +:+ b) = remove_dots a +:+ remove_dots b.
Proof.
  induction a as [|c a IH]; [reflexivity|]. rewrite append_cons.
  cbn [remove_dots]. destruct (Ascii.eqb c "."); [exact IH|].
  rewrite append_cons, IH. reflexivity.
Qed.

Lemma count_dots_append a b :
  count_dots (a +:+ b) = count_dots a + count_dots b.
Proof.
  induction a as [|c a IH]; [reflexivity|]. rewrite append_cons.
  cbn [count_dots]. destruct (Ascii.eqb c "."); rewrite IH; reflexivity.
Qed.

Lemma digits_no_dots d :
  string_forall isdigit d = true -> remove_dots d = d /\ count_dots d = 0.
Proof.
  induction d as [|c d IH]; [split; reflexivity|]. cbn [string_forall].
  intros H. apply andb_true_iff in H as [Hc Hd].
  destruct (IH Hd) as [H1 H2]. cbn [remove_dots count_dots].
  rewrite (isdigit_not_dot _ Hc), H1, H2. split; reflexivity.
Qed.

Lemma keyword_simple s kw :
  assoc s KEYWORDS = Some kw -> assoc s simple_tokens = Some kw.
Proof.
  intros H. pose proof (assoc_In _ _ _ H) as Hin. cbn in Hin.
  repeat (destruct Hin as [Hin|Hin]; [injection Hin as <- <-; reflexivity|]).
  destruct Hin.
Qed.

Lemma word_start c :
  isalpha c || Ascii.eqb c "_" = true ->
  isdigit c = false /\ Ascii.eqb c "." = false.
Proof.
  destruct c as [[] [] [] [] [] [] [] []]; vm_compute;
    intros H; first [split; reflexivity | discriminate H].
Qed.

Lemma part_type_number v :
  num_lexeme v -> part_type v = Some NUM.
Proof.
  intros (d1 & H1 & Hv). unfold part_type.
  destruct d1 as [|c d1'] eqn:Ed; [discriminate|]. rewrite <- Ed in *.
  assert (Hc : isdigit c = true).
  { rewrite Ed in H1. unfold digits in H1. simpl in H1.
    apply andb_true_iff in H1. tauto. }
  assert (Hlow : exists r, lower v = String c r).
  { destruct Hv as [-> | (d2 & _ & ->)]; rewrite Ed; rewrite ?append_cons;
      cbn [lower]; rewrite (isdigit_lower _ Hc); eauto. }
  destruct Hlow as [r Hlow].
  destruct (assoc (lower v) simple_tokens) as [ty|] eqn:E.
  { exfalso. apply assoc_In in E. rewrite Hlow in E. cbn in E.
    repeat (destruct E as [E|E];
            [injection E as <- _ _; vm_compute in Hc; discriminate Hc|]).
    destruct E. }
  pose proof (string_forall_digits _ H1) as Hf1.
  destruct Hv as [-> | (d2 & H2 & ->)]; [rewrite H1; reflexivity|].
  pose proof (string_forall_digits _ H2) as Hf2.
  destruct (digits_no_dots _ Hf1) as [Hr1 Hc1].
  destruct (digits_no_dots _ Hf2) as [Hr2 Hc2].
  rewrite !remove_dots_append, !count_dots_append, Hr1, Hr2, Hc1, Hc2.
  cbn [remove_dots count_dots]. change (Ascii.eqb "." ".") with true.
  cbv iota. cbn [count_dots Nat.add Nat.leb]. rewrite append_nil_l.
  assert (Hd : digits (d1 +:+ d2) = true).
  { unfold digits. rewrite string_forall_append, Hf1, Hf2, Ed.
    reflexivity. }
  rewrite Hd. cbn [andb]. rewrite orb_true_r. reflexivity.
Qed.

Lemma part_type_word v :
  is_word v = true ->
  (keyword_or_ID v = ID ->
   isidentifier v = true /\ lower v <> "num"%string) ->
  part_type v = Some (keyword_or_ID v).
Proof.
  intros Hw Hid. unfold part_type, keyword_or_ID in *.
  destruct (assoc (lower v) KEYWORDS) as [kw|] eqn:Ek.
  { rewrite (keyword_simple _ _ Ek). reflexivity. }
  destruct (Hid eq_refl) as [Hi Hnum].
  destruct (assoc (lower v) simple_tokens) as [ty|] eqn:E.
  - apply assoc_In in E. cbn in E.
    destruct E as [E|E]; [injection E as _ <-; reflexivity|].
    destruct E as [E|E]; [injection E as Hk _; congruence|].
    exfalso.
    repeat (destruct E as [E|E];
            [injection E as Hk _;
             first
               [ (* a keyword *)
                 rewrite <- Hk in Ek; discriminate Ek
               | (* an operator *)
                 assert (Hv : lower v = v)
                   by (apply lower_other; rewrite <- Hk; reflexivity);
                 rewrite Hv in Hk; rewrite <- Hk in Hw; discriminate Hw ]|]).
    destruct E.
  - destruct v as [|c v']; [discriminate|].
    assert (Hc : isalpha c || Ascii.eqb c "_" = true).
    { simpl in Hw. apply andb_true_iff in Hw. tauto. }
    destruct (word_start _ Hc) as [Hd Hdot].
    unfold digits. cbn [remove_dots string_forall]. rewrite Hdot.
    cbn [string_forall]. rewrite Hd. cbn [andb]. rewrite !andb_false_r.
    cbn [orb andb]. rewrite Hi. reflexivity.
Qed.

Lemma part_type_token t :
  token_ok t -> type t <> EOF ->
  (type t = ID ->
   isidentifier (value t) = true /\ lower (value t) <> "num"%string) ->
  part_type (value t) = Some (type t).
Proof.
  intros Hok Hne Hid.
  destruct (token_cases t Hok Hne) as [(Ht & Hn) | [(Hw & Ht) | Hin]].
  - rewrite Ht. apply part_type_number, Hn.
  - rewrite Ht. apply part_type_word; [exact Hw|].
    rewrite <- Ht. exact Hid.
  - cbn in Hin.
    repeat (destruct Hin as [Hin|Hin];
            [injection Hin as <- <-; reflexivity|]).
    destruct Hin.
Qed.

Lemma input_loop_tokens toks :
  Forall token_ok toks -> Forall (fun t => type t <> EOF) toks ->
  Forall (fun t => type t = ID ->
                   isidentifier (value t) = true
                   /\ lower (value t) <> "num"%string) toks ->
  forall i, input_loop i (map value toks) = inr (renumbered i toks).
Proof.
  induction toks as [|t toks IH]; intros Hok Hne Hid i; [reflexivity|].
  apply Forall_cons in Hok as [Hok1 Hok].
  apply Forall_cons in Hne as [Hne1 Hne].
  apply Forall_cons in Hid as [Hid1 Hid].
  cbn [map input_loop renumbered].
  rewrite (part_type_token t Hok1 Hne1 Hid1), (IH Hok Hne Hid).
  reflexivity.
Qed.

(** X21: the two lexers agree on the lexemes of a source text: when no
    identifier of the text is spelled like [num] and every identifier is a
    Python identifier, [tokenize_input] on the lexemes that [tokenize]
    returns, written out with one space between them, returns tokens of the
    same types with the same lexemes, on line 1 and numbered from column 1,
    and the [EOF] token after them. *)
Theorem X21_tokenize_input_agrees
    (src : string) (body : list Token) (eof : Token) :
  tokenize src = Some (inr (body ++ [eof])) ->
  Forall (fun t => type t = ID ->
                   isidentifier (value t) = true
                   /\ lower (value t) <> "num"%string) body ->
  tokenize_input (respell body)
  = inr (renumbered 0 body ++ [mkToken EOF "$" 1 (length body + 1)]).
Proof.
  intros Hr Hid.
  assert (Hok : Forall token_ok body /\ Forall (fun t => type t <> EOF) body).
  { destruct (tokenize_shape _ _ Hr) as (b & e & Hbe & _ & Hne).
    apply app_inj_tail in Hbe as [<- <-]. split; [|exact Hne].
    destruct (tokenize_end _ _ Hr)
      as [(lx & Hh & Hc & [= E]) | (lx & c & e' & _ & _ & _ & [=])].
    apply app_inj_tail in E as [-> _].
    destruct (loop_head_layout _ _ Hh) as (_ & _ & _ & H). exact H. }
  destruct Hok as [Hok Hne].
  assert (Hsolid : Forall (fun t => solid (value t)) body).
  { apply Forall_forall. intros t Ht. rewrite Forall_forall in Hok, Hne.
    apply lexeme_solid; auto. }
  unfold tokenize_input. cbv zeta.
  rewrite (strip_respell _ Hsolid), (split_respell _ Hsolid).
  rewrite (input_loop_tokens _ Hok Hne Hid), length_map. reflexivity.
Qed.

Lemma X21_tokenize_input_agrees_witness :
  tokenize_input "x := 1 + y"
  = inr [mkToken ID "x" 1 1; mkToken ASSIGN ":=" 1 2; mkToken NUM "1" 1 3;
         mkToken PLUS "+" 1 4; mkToken ID "y" 1 5; mkToken EOF "$" 1 6].
Proof.
  apply (X21_tokenize_input_agrees "x:=1{c}+ y"
           [mkToken ID "x" 1 1; mkToken ASSIGN ":=" 1 2; mkToken NUM "1" 1 4;
            mkToken PLUS "+" 1 8; mkToken ID "y" 1 10]
           (mkToken EOF "$" 1 11)).
  - vm_compute. reflexivity.
  - repeat apply List.Forall_cons; try apply List.Forall_nil;
      cbn [type value]; intros H;
      first [ discriminate H
            | split; [reflexivity | intros E; vm_compute in E; discriminate E] ].
Defined.

(** X22: the two lexers differ on the word [num]: [tokenize] reads any
    spelling of it as an identifier, [tokenize_input] as a number token. *)
Theorem X22_num_word_differs (v : string) :
  lower v = "num"%string ->
  tokenize v
  = Some (inr [mkToken ID v 1 1; mkToken EOF "$" 1 (S (String.length v))])
  /\ tokenize_input v = inr [mkToken NUM v 1 1; mkToken EOF "$" 1 2].
Proof.
  intros Hl.
  assert (Hw : is_word v = true).
  { apply letters_word; [intros ->; discriminate Hl|].
    apply lower_letters. rewrite Hl. reflexivity. }
  split.
  - rewrite (tokenize_word _ Hw). unfold keyword_or_ID. rewrite Hl.
    reflexivity.
  - assert (Hs : Forall (fun t => solid (value t)) [mkToken ID v 1 1]).
    { constructor; [|constructor]. cbn [value].
      split; [intros E; rewrite E in Hw; discriminate Hw|].
      apply (string_forall_impl (fun c => isalnum c || Ascii.eqb c "_"));
        [|apply is_word_forall, Hw].
      intros c H. rewrite (word_char_not_space _ H). reflexivity. }
    pose proof (strip_respell _ Hs) as H1.
    pose proof (split_respell _ Hs) as H2.
    change (respell [mkToken ID v 1 1]) with v in H1, H2.
    unfold tokenize_input. cbv zeta. rewrite H1, H2.
    cbn [map value input_loop]. unfold part_type. rewrite Hl. reflexivity.
Qed.

Lemma X22_num_word_differs_witness :
  tokenize "Num"
  = Some (inr [mkToken ID "Num" 1 1; mkToken EOF "$" 1 4])
  /\ tokenize_input "Num" = inr [mkToken NUM "Num" 1 1; mkToken EOF "$" 1 2].
Proof. apply (X22_num_word_differs "Num"). reflexivity. Defined.

End InputTokens.
